(** * nat-api: the dual-protocol port-mapping orchestrator and the UPnP device

    A shallow embedding of [src/index.js] (class [NatAPI]) and of the UPnP
    [Device] class ([src/lib/upnp/device.js] and its async revision), with
    the properties of the specification stated and settled against it.

    Conventions of the embedding:
    - JavaScript values are the first-order type [jsval]; numbers are the
      integers [Z] and [NaN] (no fractions and no infinities: ports, ttls
      and status codes);
    - an [async] method is a function in the state-and-exception monad [M]
      over the [NatAPI] object; one call runs to completion before the next
      starts (the sequential behaviour of one caller awaiting each call);
    - the two protocol clients ([lib/pmp], [lib/upnp/index.js]) and the
      network are the environment: a [World] answers every client call from
      the history of the calls made so far. *)

From Stdlib Require Import ZArith Ascii String Lia.
From stdpp Require Import base option list strings gmap pretty.

Open Scope Z_scope.

(* ================================================================== *)
(** ** JavaScript values *)
(* ================================================================== *)

Inductive jsval :=
| JUndefined
| JNull
| JBool (b : bool)
| JNum (n : Z)
| JNaN                      (* the number NaN: [typeof NaN === 'number'] *)
| JStr (s : string).

#[global] Instance jsval_eq_dec : EqDecision jsval.
Proof. solve_decision. Defined.

(** [ToBoolean]: what [if (v)], [v && _] and [v || _] test. *)
Definition truthy (v : jsval) : bool :=
  match v with
  | JUndefined | JNull | JNaN => false
  | JBool b => b
  | JNum n => negb (n =? 0)
  | JStr s => match s with EmptyString => false | String _ _ => true end
  end.

(** [a || b] *)
Definition js_or (a b : jsval) : jsval := if truthy a then a else b.

(** [a === b]: on this value type, the same value, except that [NaN] is
    not equal to anything, itself included. *)
Definition strict_eq (a b : jsval) : bool :=
  bool_decide (a = b) && negb (bool_decide (a = JNaN)).

(** [a == null] *)
Definition loose_null (a : jsval) : bool :=
  match a with JUndefined | JNull => true | _ => false end.

(** [ToString], as used by [v + ':']; for a number, its decimal digits (an
    integer below 10^21 in magnitude). *)
Definition to_string (v : jsval) : string :=
  match v with
  | JUndefined => "undefined"
  | JNull => "null"
  | JBool true => "true"
  | JBool false => "false"
  | JNum n => pretty n
  | JNaN => "NaN"
  | JStr s => s
  end.

Definition upper_ascii (c : ascii) : ascii :=
  let n := N_of_ascii c in
  if ((97 <=? n) && (n <=? 122))%N then ascii_of_N (n - 32) else c.

(** [String.prototype.toUpperCase] on the ASCII range; no character outside
    it upper-cases to one of the letters of ['UDP'] or ['TCP']. *)
Fixpoint toUpperCase (s : string) : string :=
  match s with
  | EmptyString => EmptyString
  | String c r => String (upper_ascii c) (toUpperCase r)
  end.

(* ================================================================== *)
(** ** Arrays *)
(* ================================================================== *)

Section Arrays.
Context {A : Type}.

(** [arr.findIndex(p)]: the first index whose element satisfies [p],
    [-1] when there is none. *)
Fixpoint findIndex_from (p : A -> bool) (arr : list A) (i : Z) : Z :=
  match arr with
  | [] => -1
  | x :: r => if p x then i else findIndex_from p r (i + 1)
  end.

Definition findIndex (p : A -> bool) (arr : list A) : Z :=
  findIndex_from p arr 0.

(** [arrayRemove(arr, i)] of the package unordered-array-remove, which
    [index.js] imports (a dependency, not a file of this repository); its
    published source:
<<
    if (i >= arr.length || i < 0) return
    var last = arr.pop()
    if (i < arr.length) { var tmp = arr[i]; arr[i] = last; return tmp }
    return last
>>
    [arr.pop()] leaves [removelast arr] and returns [last arr]. The array
    after the call: *)
Definition arrayRemove (arr : list A) (i : Z) : list A :=
  if bool_decide (i >= Z.of_nat (length arr) \/ i < 0) then arr
  else
    match last arr with
    | None => arr
    | Some l =>
        let arr' := removelast arr in
        if bool_decide (i < Z.of_nat (length arr')) then <[Z.to_nat i := l]> arr'
        else arr'
    end.
End Arrays.

(* ================================================================== *)
(** ** The request object and the orchestrator's state *)
(* ================================================================== *)

(** The options object of [map] and [unmap]; an absent property is
    [JUndefined]. *)
Record Opts := mkOpts {
  publicPort : jsval;
  privatePort : jsval;
  protocol : jsval;
  description : jsval;
  ttl : jsval;
  gateway : jsval
}.

#[global] Instance Opts_eq_dec : EqDecision Opts.
Proof. solve_decision. Defined.

(** [{ ...o, protocol: p }] *)
Definition set_protocol (o : Opts) (p : jsval) : Opts :=
  mkOpts (publicPort o) (privatePort o) p (description o) (ttl o) (gateway o).

(** An argument of [map]/[unmap]: a primitive or an options object. *)
Inductive jsarg :=
| Prim (v : jsval)
| Obj (o : Opts).

(** Objects in [_openPorts] are compared by identity ([indexOf]); every
    object created by [{ ...opts }] gets a fresh reference. *)
Definition objref := nat.

(** The calls the orchestrator makes on the two protocol clients. *)
Inductive Call :=
| PmpPortMapping (public private type ttl : jsval)
| PmpPortUnmapping (public private type : jsval)
| PmpExternalIp
| PmpClose
| UpnpPortMapping (public private descr protocol ttl : jsval)
| UpnpPortUnmapping (public private protocol : jsval)
| UpnpExternalIp
| UpnpDestroy.

#[global] Instance Call_eq_dec : EqDecision Call.
Proof. solve_decision. Defined.

(** How an awaited client call settles. [Timeout] is a call still pending
    after one second: on the NAT-PMP paths the one-second timer then wins
    the [Promise.race]. The UPnP calls and the closes are awaited without a
    timer, so a pending one would never return; the embedding has no such
    runs, it reads a [Timeout] there as a rejection, and the statements
    that depend on the difference take those calls to settle. *)
Inductive Outcome :=
| Resolve (v : jsval)
| Reject
| Timeout.

(** One client call as it happened: the call, how it settled, and the
    registry the rest of the program could observe while it was pending. *)
Record Event := mkEvent {
  ev_call : Call;
  ev_outcome : Outcome;
  ev_registry : list (objref * Opts)
}.

(** The environment: the answer to a call, given the calls made before. *)
Definition World := list Event -> Call -> Outcome.

(** What a [setInterval] callback does when it fires. *)
Inductive Job :=
| JobUpnpMap (o : Opts)      (* () => this._upnpMap(opts) *)
| JobPmpBind (o : Opts).     (* async () => { try { await this._pmpMap.bind(this, opts) } catch (err) {} } *)

(** A running [setInterval] timer: the callback and the delay that
    [setInterval] was given. *)
Record Timer := mkTimer {
  t_job : Job;
  t_delay : Z                (* milliseconds *)
}.

(** The delay Node runs a timer with: one above 2147483647 ms or below
    1 ms is replaced by 1 ms. *)
Definition node_delay (d : Z) : Z :=
  if (d <? 1) || (2147483647 <? d) then 1 else d.

(** The period at which a timer fires. *)
Definition timer_period (t : Timer) : Z := node_delay (t_delay t).

Record NatAPI := mkNatAPI {
  this_ttl : Z;
  this_description : jsval;
  this_gateway : jsval;
  autoUpdate : bool;
  upnpPermanentFallback : bool;
  _timeout : Z;
  _destroyed : bool;
  _openPorts : list (objref * Opts);
  _upnpIntervals : gmap string nat;
  _pmpIntervals : gmap string nat;
  _pmpClient : option string;          (* the gateway of the NatPMP client *)
  _upnpClient : option bool;           (* NatUPNP({ permanentFallback }) *)
  (* the runtime around the object *)
  intervals : gmap nat Timer;          (* the running setInterval timers *)
  next_handle : nat;
  next_ref : objref;
  trace : list Event
}.

Definition with_openPorts (s : NatAPI) (l : list (objref * Opts)) : NatAPI :=
  mkNatAPI (this_ttl s) (this_description s) (this_gateway s) (autoUpdate s)
    (upnpPermanentFallback s) (_timeout s) (_destroyed s) l
    (_upnpIntervals s) (_pmpIntervals s) (_pmpClient s) (_upnpClient s)
    (intervals s) (next_handle s) (next_ref s) (trace s).

Definition with_destroyed (s : NatAPI) (b : bool) : NatAPI :=
  mkNatAPI (this_ttl s) (this_description s) (this_gateway s) (autoUpdate s)
    (upnpPermanentFallback s) (_timeout s) b (_openPorts s)
    (_upnpIntervals s) (_pmpIntervals s) (_pmpClient s) (_upnpClient s)
    (intervals s) (next_handle s) (next_ref s) (trace s).

Definition with_upnpIntervals (s : NatAPI) (m : gmap string nat) : NatAPI :=
  mkNatAPI (this_ttl s) (this_description s) (this_gateway s) (autoUpdate s)
    (upnpPermanentFallback s) (_timeout s) (_destroyed s) (_openPorts s)
    m (_pmpIntervals s) (_pmpClient s) (_upnpClient s)
    (intervals s) (next_handle s) (next_ref s) (trace s).

Definition with_pmpIntervals (s : NatAPI) (m : gmap string nat) : NatAPI :=
  mkNatAPI (this_ttl s) (this_description s) (this_gateway s) (autoUpdate s)
    (upnpPermanentFallback s) (_timeout s) (_destroyed s) (_openPorts s)
    (_upnpIntervals s) m (_pmpClient s) (_upnpClient s)
    (intervals s) (next_handle s) (next_ref s) (trace s).

Definition with_intervals (s : NatAPI) (m : gmap nat Timer) (h : nat) : NatAPI :=
  mkNatAPI (this_ttl s) (this_description s) (this_gateway s) (autoUpdate s)
    (upnpPermanentFallback s) (_timeout s) (_destroyed s) (_openPorts s)
    (_upnpIntervals s) (_pmpIntervals s) (_pmpClient s) (_upnpClient s)
    m h (next_ref s) (trace s).

Definition with_next_ref (s : NatAPI) (r : objref) : NatAPI :=
  mkNatAPI (this_ttl s) (this_description s) (this_gateway s) (autoUpdate s)
    (upnpPermanentFallback s) (_timeout s) (_destroyed s) (_openPorts s)
    (_upnpIntervals s) (_pmpIntervals s) (_pmpClient s) (_upnpClient s)
    (intervals s) (next_handle s) r (trace s).

Definition with_trace (s : NatAPI) (t : list Event) : NatAPI :=
  mkNatAPI (this_ttl s) (this_description s) (this_gateway s) (autoUpdate s)
    (upnpPermanentFallback s) (_timeout s) (_destroyed s) (_openPorts s)
    (_upnpIntervals s) (_pmpIntervals s) (_pmpClient s) (_upnpClient s)
    (intervals s) (next_handle s) (next_ref s) t.

(* ================================================================== *)
(** ** The constructor *)
(* ================================================================== *)

(** The constructor's options; [None] is an absent property. *)
Record Config := mkConfig {
  cfg_ttl : option Z;
  cfg_description : option string;
  cfg_gateway : option string;
  cfg_autoUpdate : option bool;
  cfg_enablePMP : option bool;
  cfg_enableUPNP : option bool;
  cfg_upnpPermanentFallback : option bool
}.

Definition default_config : Config :=
  mkConfig None None None None None None None.

(** [x !== false] *)
Definition not_false (x : option bool) : bool :=
  match x with Some false => false | _ => true end.

(** [new NatAPI(opts)]; [v4] is what the default-gateway lookup returns,
    [None] when it throws. *)
Definition new_NatAPI (opts : Config) (v4 : option string) : NatAPI :=
  let t := match cfg_ttl opts with
           | Some n => if n =? 0 then 7200 else Z.max n 1200
           | None => 7200
           end in
  let fallback := default false (cfg_upnpPermanentFallback opts) in
  mkNatAPI
    t
    (js_or (from_option JStr JUndefined (cfg_description opts)) (JStr "NatAPI"))
    (js_or (from_option JStr JUndefined (cfg_gateway opts)) JNull)
    (not_false (cfg_autoUpdate opts))
    fallback
    ((t - 600) * 1000)
    false
    []
    ∅
    ∅
    (if not_false (cfg_enablePMP opts) then v4 else None)
    (if not_false (cfg_enableUPNP opts) then Some fallback else None)
    ∅ 0%nat 0%nat [].

(* ================================================================== *)
(** ** The monad of the async methods *)
(* ================================================================== *)

Inductive exn :=
| Error (msg : string)       (* new Error(msg) *)
| TypeError.                 (* a property read on null *)

#[global] Instance exn_eq_dec : EqDecision exn.
Proof. solve_decision. Defined.

Inductive Result (A : Type) :=
| Ok (a : A)
| Throw (e : exn).
Arguments Ok {A} a.
Arguments Throw {A} e.

(** A method body: it reads and writes [this] and returns or throws. A
    throw keeps the writes made before it. *)
Definition M (A : Type) : Type := NatAPI -> Result A * NatAPI.

Definition ret {A} (a : A) : M A := fun s => (Ok a, s).

Definition throw {A} (e : exn) : M A := fun s => (Throw e, s).

Definition bind {A B} (m : M A) (k : A -> M B) : M B :=
  fun s =>
    match m s with
    | (Ok a, s') => k a s'
    | (Throw e, s') => (Throw e, s')
    end.

Definition try_catch {A} (m : M A) (h : exn -> M A) : M A :=
  fun s =>
    match m s with
    | (Ok a, s') => (Ok a, s')
    | (Throw e, s') => h e s'
    end.

Definition get : M NatAPI := fun s => (Ok s, s).

Definition modify (f : NatAPI -> NatAPI) : M unit := fun s => (Ok tt, f s).

Declare Scope js_scope.
Delimit Scope js_scope with js.
Notation "x <- m ;; k" := (bind m (fun x => k))
  (at level 100, m at next level, right associativity) : js_scope.
Notation "m ;;; k" := (bind m (fun _ => k))
  (at level 100, right associativity) : js_scope.
Open Scope js_scope.

(** [for (const x of l) body(x)] *)
Fixpoint for_of {A} (l : list A) (body : A -> M unit) : M unit :=
  match l with
  | [] => ret tt
  | x :: r => body x ;;; for_of r body
  end.

(** Truthiness of a field that holds an object or [null]. *)
Definition present {A} (o : option A) : bool :=
  match o with Some _ => true | None => false end.

(* ================================================================== *)
(** ** Runtime services: object allocation and timers *)
(* ================================================================== *)

(** [{ ...opts }]: a new object, distinct from every earlier one. *)
Definition new_object : M objref :=
  fun s => (Ok (next_ref s), with_next_ref s (S (next_ref s))).

(** [this._openPorts.push(o)] *)
Definition push (r : objref) (o : Opts) : M unit :=
  modify (fun s => with_openPorts s (_openPorts s ++ [(r, o)])).

(** [arr.indexOf(obj)]: objects are equal when they are the same object. *)
Definition indexOf (arr : list (objref * Opts)) (r : objref) : Z :=
  findIndex (fun e => bool_decide (fst e = r)) arr.

(** [setInterval(job, delay).unref?.()] under Node: the timer starts and its
    handle is returned. The timer is recorded with the delay given; it
    fires every [timer_period]. *)
Definition setInterval (j : Job) (delay : Z) : M nat :=
  fun s =>
    let h := next_handle s in
    (Ok h, with_intervals s (<[h := mkTimer j delay]> (intervals s)) (S h)).

(** [clearInterval(handle)]: the timer stops. *)
Definition clearInterval (h : nat) : M unit :=
  modify (fun s => with_intervals s (delete h (intervals s)) (next_handle s)).

(** [opts.publicPort + ':' + opts.privatePort + '-' + opts.protocol] *)
Definition interval_key (opts : Opts) : string :=
  to_string (publicPort opts) +:+ ":" +:+ to_string (privatePort opts)
    +:+ "-" +:+ to_string (protocol opts).

(** The predicate of the two [findIndex] calls on the registry:
<<
      (o.publicPort === opts.publicPort) &&
      (o.privatePort === opts.privatePort) &&
      (o.protocol === opts.protocol || opts.protocol == null)
>> *)
Definition key_matches (opts : Opts) (e : objref * Opts) : bool :=
  let o := snd e in
  strict_eq (publicPort o) (publicPort opts) &&
  strict_eq (privatePort o) (privatePort opts) &&
  (strict_eq (protocol o) (protocol opts) || loose_null (protocol opts)).

(* ================================================================== *)
(** ** Validation *)
(* ================================================================== *)

(** [typeof v === 'number'] *)
Definition is_number (v : jsval) : bool :=
  match v with JNum _ | JNaN => true | _ => false end.

(** [typeof v === 'string'] *)
Definition is_string (v : jsval) : bool :=
  match v with JStr _ => true | _ => false end.

(** [['UDP', 'TCP'].includes(p.toUpperCase())] *)
Definition protocol_name_ok (v : jsval) : bool :=
  match v with
  | JStr s => bool_decide (toUpperCase s ∈ ["UDP"; "TCP"]%string)
  | _ => false
  end.

(** The second half of [_validateInput], once [opts] is an object. *)
Definition fill_defaults (opts : Opts) : M Opts :=
  if truthy (protocol opts)
     && (negb (is_string (protocol opts)) || negb (protocol_name_ok (protocol opts)))
  then throw (Error "protocol is invalid")
  else
    s <- get ;;
    ret (mkOpts (publicPort opts) (privatePort opts)
           (js_or (protocol opts) JNull)
           (js_or (description opts) (this_description s))
           (js_or (ttl opts) (JNum (this_ttl s)))
           (js_or (gateway opts) (this_gateway s))).

(** [opts = {}; opts.publicPort = pub; opts.privatePort = priv] *)
Definition port_object (pub priv : jsval) : Opts :=
  mkOpts pub priv JUndefined JUndefined JUndefined JUndefined.

(** [_validateInput(publicPort, privatePort)]. [typeof null] is ['object'],
    so [null] takes the first branch and the read of [opts.protocol] raises
    a TypeError. The writes of the defaults into a caller's object are not
    part of the state of [this]; what the method returns is the object
    after them. *)
Definition _validateInput (publicPort privatePort : jsarg) : M Opts :=
  match publicPort with
  | Obj o => fill_defaults o
  | Prim JNull => throw TypeError
  | Prim p =>
      if is_number p then
        match privatePort with
        | Prim q =>
            if is_number q then fill_defaults (port_object p q)
            else fill_defaults (port_object p p)
        | Obj _ => fill_defaults (port_object p p)
        end
      else throw (Error "port was not specified")
  end.

(* ================================================================== *)
(** ** The protocol paths *)
(* ================================================================== *)

Section Orchestrator.
Variable world : World.

(** [await client.call(...)]: the environment settles the call; the call
    joins the trace together with the registry as it stood meanwhile. *)
Definition await (c : Call) : M Outcome :=
  fun s =>
    let o := world (trace s) c in
    (Ok o, with_trace s (trace s ++ [mkEvent c o (_openPorts s)])).

(** [await client.call(...)] outside any [try]: a call that does not
    resolve throws what the client rejected with. *)
Definition settled (c : Call) : M jsval :=
  o <- await c ;;
  match o with
  | Resolve v => ret v
  | _ => throw (Error "rejected")
  end.

(** [if (this._destroyed) throw new Error('client is destroyed')] *)
Definition check_destroyed : M unit :=
  s <- get ;;
  if _destroyed s then throw (Error "client is destroyed") else ret tt.

(** [_upnpMap(opts)]; a [portMapping] that is rejected is caught and gives
    [false]. No timer guards the call. *)
Definition _upnpMap (opts : Opts) : M bool :=
  check_destroyed ;;;
  o <- await (UpnpPortMapping (publicPort opts) (privatePort opts)
                (description opts) (protocol opts) (ttl opts)) ;;
  match o with
  | Resolve _ =>
      s <- get ;;
      (if autoUpdate s then
         h <- setInterval (JobUpnpMap opts) (_timeout s) ;;
         modify (fun s => with_upnpIntervals s
                            (<[interval_key opts := h]> (_upnpIntervals s)))
       else ret tt) ;;;
      ret true
  | _ => ret false
  end.

(** [_pmpMap(opts)]. The reconnect ([new NatPMP(this._pmpClient.gateway)])
    keeps the gateway and is not visible at this level. When the timer
    wins the race it closes the client before rejecting, and the catch
    block closes it again. The one-second timer is not cancelled when the
    call settles first: it fires later and closes the client once more.
    That stray close comes after the race has settled, at a time the
    embedding does not have; it is not in the trace, and the statements
    about the calls of a path that goes on to UPnP leave the closes out. *)
Definition _pmpMap (opts : Opts) : M bool :=
  check_destroyed ;;;
  o <- await (PmpPortMapping (publicPort opts) (privatePort opts)
                (protocol opts) (ttl opts)) ;;
  match o with
  | Resolve _ =>
      s <- get ;;
      (if autoUpdate s then
         h <- setInterval (JobPmpBind opts) (_timeout s) ;;
         modify (fun s => with_pmpIntervals s
                            (<[interval_key opts := h]> (_pmpIntervals s)))
       else ret tt) ;;;
      ret true
  | Reject => await PmpClose ;;; ret false
  | Timeout => await PmpClose ;;; await PmpClose ;;; ret false
  end.

(** [_upnpUnmap(opts)]: on success the timer stored under the key of [opts],
    when there is one, is cleared and its table entry deleted. *)
Definition _upnpUnmap (opts : Opts) : M bool :=
  check_destroyed ;;;
  o <- await (UpnpPortUnmapping (publicPort opts) (privatePort opts)
                (protocol opts)) ;;
  match o with
  | Resolve _ =>
      s <- get ;;
      let key := interval_key opts in
      match _upnpIntervals s !! key with
      | Some h =>
          clearInterval h ;;;
          modify (fun s => with_upnpIntervals s (delete key (_upnpIntervals s)))
      | None => ret tt
      end ;;;
      ret true
  | _ => ret false
  end.

(** [_pmpUnmap(opts)], with the timeout handling of [_pmpMap]. *)
Definition _pmpUnmap (opts : Opts) : M bool :=
  check_destroyed ;;;
  o <- await (PmpPortUnmapping (publicPort opts) (privatePort opts)
                (protocol opts)) ;;
  match o with
  | Resolve _ =>
      s <- get ;;
      let key := interval_key opts in
      match _pmpIntervals s !! key with
      | Some h =>
          clearInterval h ;;;
          modify (fun s => with_pmpIntervals s (delete key (_pmpIntervals s)))
      | None => ret tt
      end ;;;
      ret true
  | Reject => await PmpClose ;;; ret false
  | Timeout => await PmpClose ;;; await PmpClose ;;; ret false
  end.

(** The pair [[success, error]] that [_map] and [_unmap] return. *)
Definition Response : Type := bool * option exn.

(** [[false, new Error('no protocols succeeded')]] *)
Definition no_protocols : Response :=
  (false, Some (Error "no protocols succeeded")).

(** The body shared by [_map] and [_unmap]: NAT-PMP when there is a
    client, then UPnP when there is one. *)
Definition fallback_chain (pmp upnp : Opts -> M bool) (opts : Opts) : M Response :=
  check_destroyed ;;;
  try_catch
    (s <- get ;;
     pmpSuccess <- (if present (_pmpClient s) then pmp opts else ret false) ;;
     if pmpSuccess then ret (true, None)
     else
       s <- get ;;
       upnpSuccess <- (if present (_upnpClient s) then upnp opts else ret false) ;;
       if upnpSuccess then ret (true, None)
       else ret no_protocols)
    (fun error => ret (false, Some error)).

(** [_map(opts)] and [_unmap(opts)] *)
Definition _map : Opts -> M Response := fallback_chain _pmpMap _upnpMap.

Definition _unmap : Opts -> M Response := fallback_chain _pmpUnmap _upnpUnmap.

(** [_pmpIp()] *)
Definition _pmpIp : M jsval :=
  check_destroyed ;;;
  try_catch
    (s <- get ;;
     if present (_pmpClient s) then
       o <- await PmpExternalIp ;;
       match o with
       | Resolve ip => if truthy ip then ret ip else ret (JStr "")
       | Reject => throw (Error "rejected")
       | Timeout => await PmpClose ;;; throw (Error "timeout")
       end
     else ret (JStr ""))
    (fun _ => ret (JStr "")).

(** [_upnpIp()] *)
Definition _upnpIp : M jsval :=
  check_destroyed ;;;
  try_catch
    (s <- get ;;
     if present (_upnpClient s) then
       o <- await UpnpExternalIp ;;
       match o with
       | Resolve ip => if truthy ip then ret ip else ret (JStr "")
       | _ => throw (Error "rejected")
       end
     else ret (JStr ""))
    (fun _ => ret (JStr "")).

(* ---------------------------------------------------------------- *)
(** *** The public operations *)
(* ---------------------------------------------------------------- *)

(** [externalIp()] *)
Definition externalIp : M jsval :=
  check_destroyed ;;;
  try_catch
    (s <- get ;;
     ip <- (if present (_pmpClient s) then _pmpIp else ret (JStr "")) ;;
     if truthy ip then ret ip
     else
       s <- get ;;
       ip <- (if present (_upnpClient s) then _upnpIp else ret (JStr "")) ;;
       if truthy ip then ret ip else ret (JStr ""))
    (fun _ => ret (JStr "")).

(** [arrayRemove(this._openPorts, i)] *)
Definition remove_at (i : NatAPI -> Z) : M unit :=
  modify (fun s => with_openPorts s (arrayRemove (_openPorts s) (i s))).

(** [map(publicPort, privatePort)] *)
Definition map (publicPort privatePort : jsarg) : M bool :=
  check_destroyed ;;;
  opts <- _validateInput publicPort privatePort ;;
  if truthy (protocol opts) then
    (* UDP or TCP *)
    newOpts <- new_object ;;
    push newOpts opts ;;;
    response <- _map opts ;;
    if negb (fst response) then
      remove_at (fun s => indexOf (_openPorts s) newOpts) ;;;
      ret false
    else ret true
  else
    (* UDP & TCP *)
    newOptsUDP <- new_object ;;
    let optsUDP := set_protocol opts (JStr "UDP") in
    push newOptsUDP optsUDP ;;;
    response <- _map optsUDP ;;
    if negb (fst response) then
      remove_at (fun s => indexOf (_openPorts s) newOptsUDP) ;;;
      ret false
    else
      newOptsTCP <- new_object ;;
      let optsTCP := set_protocol opts (JStr "TCP") in
      push newOptsTCP optsTCP ;;;
      response <- _map optsTCP ;;
      if negb (fst response) then
        remove_at (fun s => findIndex (key_matches optsTCP) (_openPorts s)) ;;;
        ret false
      else ret true.

(** [unmap(publicPort, privatePort)] *)
Definition unmap (publicPort privatePort : jsarg) : M bool :=
  check_destroyed ;;;
  opts <- _validateInput publicPort privatePort ;;
  remove_at (fun s => findIndex (key_matches opts) (_openPorts s)) ;;;
  if truthy (protocol opts) then
    (* UDP or TCP *)
    response <- _unmap opts ;;
    ret (fst response)
  else
    (* UDP & TCP *)
    response <- _unmap (set_protocol opts (JStr "UDP")) ;;
    if negb (fst response) then ret false
    else
      response <- _unmap (set_protocol opts (JStr "TCP")) ;;
      if negb (fst response) then ret false
      else ret true.

(** [destroy()]. The loop hands each registry object itself to [unmap];
    the defaults [_validateInput] writes back into it are the values it
    already holds ([fill_defaults_idem]). The two closes are awaited
    outside any [try], after [_destroyed] is set: when the NAT-PMP close is
    rejected, [destroy] throws and the UPnP client is not destroyed. *)
Definition destroy : M bool :=
  s <- get ;;
  if _destroyed s then throw (Error "client already destroyed")
  else
    let openPortsCopy := _openPorts s in
    for_of openPortsCopy
      (fun openPort =>
         try_catch (unmap (Obj (snd openPort)) (Prim JUndefined) ;;; ret tt)
                   (fun _ => ret tt)) ;;;
    modify (fun s => with_destroyed s true) ;;;
    s <- get ;;
    (if present (_pmpClient s) then settled PmpClose ;;; ret tt else ret tt) ;;;
    (if present (_upnpClient s) then settled UpnpDestroy ;;; ret tt else ret tt) ;;;
    ret true.

(** One firing of a [setInterval] callback. The UPnP callback calls
    [_upnpMap(opts)] and nobody awaits or catches its promise. The NAT-PMP
    callback awaits [this._pmpMap.bind(this, opts)], which is a function
    value: nothing is called. *)
Definition fire (j : Job) : M unit :=
  match j with
  | JobUpnpMap opts => _upnpMap opts ;;; ret tt
  | JobPmpBind opts => ret tt
  end.

End Orchestrator.

(* ================================================================== *)
(** ** The UPnP device: description tree and service resolution *)
(* ================================================================== *)

(** A [<service>] element of the device description, as parsed. *)
Record Service := mkService {
  serviceType : jsval;
  controlURL : jsval;
  SCPDURL : jsval
}.

(** A repeated element arrives as one item or as an array of items. *)
Inductive items (A : Type) :=
| One (a : A)
| Many (l : list A).
Arguments One {A} a.
Arguments Many {A} l.

(** [toArray(item)] *)
Definition toArray {A} (i : items A) : list A :=
  match i with
  | One a => [a]
  | Many l => l
  end.

(** A [<device>] element. A list field is [None] when [device.deviceList]
    or [device.deviceList.device] is falsy (likewise for services); an item
    is [None] when it is a falsy node, such as an empty element. *)
#[warnings="-register-all"]
Inductive xdevice :=
| XDevice (deviceList : option (items (option xdevice)))
          (serviceList : option (items (option Service))).

(** [toArray(device.serviceList.service).forEach(traverseServices)] *)
Definition traverseServices (sl : option (items (option Service))) : list Service :=
  match sl with
  | None => []
  | Some i => omap id (toArray i)
  end.

(** [traverseDevices(device)]: the services pushed, in the order of the
    pushes. The sub-devices are visited before the device's own services. *)
Fixpoint traverseDevices (device : xdevice) : list Service :=
  match device with
  | XDevice dl sl =>
      let each :=
        fix each (l : list (option xdevice)) : list Service :=
          match l with
          | [] => []
          | None :: r => each r
          | Some d :: r => traverseDevices d ++ each r
          end in
      match dl with
      | None => []
      | Some (One None) => []
      | Some (One (Some d)) => traverseDevices d
      | Some (Many l) => each l
      end ++ traverseServices sl
  end.

(** The parsed description document: [info.device] and [info.baseURL]. *)
Record Description := mkDescription {
  info_device : option xdevice;
  info_baseURL : jsval
}.

(** [_parseDescription(info).services] *)
Definition _parseDescription (info : Description) : list Service :=
  match info_device info with
  | None => []
  | Some d => traverseDevices d
  end.

Record Device := mkDevice {
  url : string;
  services : list string
}.

(** [new Device(url)] *)
Definition new_Device (u : string) : Device :=
  mkDevice u
    [ "urn:schemas-upnp-org:service:WANIPConnection:1";
      "urn:schemas-upnp-org:service:WANIPConnection:2";
      "urn:schemas-upnp-org:service:WANPPPConnection:1" ]%string.

(** What [_getService] resolves to. *)
Record ServiceInfo := mkServiceInfo {
  si_service : jsval;
  si_SCPDURL : string;
  si_controlURL : string
}.

(** [types.indexOf(v)] *)
Definition types_indexOf (types : list string) (v : jsval) : Z :=
  findIndex (fun t => strict_eq (JStr t) v) types.

Section ServiceResolution.
(** [addPrefix]: the platform's URL resolution of [u] against a base. *)
Variable resolve : string -> jsval -> string.

(** The part of [_getService] after the description has been fetched. *)
Definition _getService (self : Device) (types : list string)
    (info : Description) : Result ServiceInfo :=
  let s := List.filter
             (fun service => negb (types_indexOf types (serviceType service) =? -1))
             (_parseDescription info) in
  (* Use the first available service *)
  match s with
  | [] => Throw (Error "Service not found")
  | s0 :: _ =>
      if negb (truthy (controlURL s0)) || negb (truthy (SCPDURL s0))
      then Throw (Error "Service not found")
      else
        let base := to_string (js_or (info_baseURL info) (JStr (url self))) in
        Ok (mkServiceInfo (serviceType s0)
              (resolve base (SCPDURL s0))
              (resolve base (controlURL s0)))
  end.
End ServiceResolution.

(* ================================================================== *)
(** ** The UPnP device: running a SOAP action *)
(* ================================================================== *)

Definition lower_ascii (c : ascii) : ascii :=
  let n := N_of_ascii c in
  if ((65 <=? n) && (n <=? 90))%N then ascii_of_N (n + 32) else c.

Fixpoint toLowerCase (s : string) : string :=
  match s with
  | EmptyString => EmptyString
  | String c r => String (lower_ascii c) (toLowerCase r)
  end.

(** The POST that carries one SOAP action. Its headers and its body, the
    SOAP envelope, are functions of these fields; the arguments go into the
    envelope as [envelope_args] writes them. *)
Record Request := mkRequest {
  req_url : string;
  req_service : jsval;
  req_action : string;
  req_args : list (string * jsval)
}.

(** [(args[1] ? args[1] : '')]: a falsy value, the number 0 among them, is
    written as nothing. *)
Definition arg_text (v : jsval) : string :=
  if truthy v then to_string v else "".

(** ['<' + args[0] + '>' + (args[1] ? args[1] : '') + '</' + args[0] + '>'] *)
Definition arg_element (arg : string * jsval) : string :=
  "<" +:+ fst arg +:+ ">" +:+ arg_text (snd arg) +:+ "</" +:+ fst arg +:+ ">".

(** [args.map(...).join('')]: the arguments as the envelope carries them. *)
Definition envelope_args (args : list (string * jsval)) : string :=
  String.concat "" (List.map arg_element args).

(** What [run] reads of an element of a parsed reply: it is absent
    ([undefined]), a text (xml2js gives an element without attributes and
    children as its text, an empty element as the empty string), or an
    element with attributes or children (an object). *)
Inductive xmlnode :=
| Absent
| Text (s : string)
| Nested.

(** [Number(fault.detail.UPnPError.errorCode)] *)
Inductive ErrorCode :=
| NoCode            (* reading the path throws: no [detail], or no [UPnPError] in it *)
| NotACode          (* NaN or a number that is no integer: no [case] matches *)
| Code (n : Z).

(** The [s:Fault] element of a reply. *)
Record Fault := mkFault {
  f_faultString : xmlnode;
  f_faultstring : xmlnode;
  f_errorCode : ErrorCode
}.

(** A child of the envelope: its [s:Fault] child when it has one, and the
    element as the value that [run] hands to its caller. *)
Record Element := mkElement {
  el_fault : option Fault;
  el_value : jsval
}.

(** The parsed body of a reply: xml2js with its 0.1 defaults gives the root
    element, its attributes under ['@'] and its children under their
    qualified names. *)
Record Document := mkDocument {
  doc_attrs : option (list (string * jsval));
  doc_children : list (string * Element)
}.

(** [body[key]] *)
Definition child (body : Document) (key : string) : option Element :=
  snd <$> List.find (fun kv => String.eqb (fst kv) key) (doc_children body).

(** The reply to a POST: the status, and what parsing its text gives: an
    error when the text is not well-formed XML, [null] ([None]) when it is
    empty, the document otherwise. *)
Record HttpResponse := mkResponse {
  status : Z;
  parsed : Result (option Document)
}.

Inductive NetEvent :=
| Fetched (u : string)       (* the GET of the description *)
| Posted (r : Request).

(** The network and the gateway behind it; a [fetch] that is rejected
    throws. *)
Record Net := mkNet {
  getXml : list NetEvent -> string -> Result Description;
  post : list NetEvent -> Request -> Result HttpResponse
}.

(** [args[args.length - 1] = v]. On an empty array this sets the property
    ["-1"], which is no element: the array stays empty. *)
Definition set_last {A} (args : list A) (v : A) : list A :=
  match args with
  | [] => []
  | _ => <[ (length args - 1)%nat := v ]> args
  end.

Definition lease_zero : string * jsval := ("NewLeaseDuration"%string, JNum 0).

Definition request_failed (st : Z) (fs : string) : exn :=
  Error ("Request failed, status code: " +:+ pretty st +:+ ", fault string " +:+ fs).

(** The message thrown for a UPnP error code other than 725. *)
Definition upnp_error (st : Z) (fs : string) (code : Z) : exn :=
  if code =? 606 then Error "The action requested REQUIRES authorization and the sender was not authorized."
  else if code =? 714 then Error "The specified value does not exist in the array."
  else if code =? 715 then Error "The source IP address cannot be wild-carded."
  else if code =? 716 then Error "The external port cannot be wild-carded."
  else if code =? 718 then Error "The port mapping entry specified conflicts with a mapping assigned previously to another client."
  else if code =? 724 then Error "Internal and External port values MUST be the same."
  else if code =? 726 then Error "RemoteHost must be a wildcard and cannot be a specific IP address or DNS name."
  else if code =? 727 then Error "ExternalPort MUST be a wildcard and cannot be a specific port value."
  else if code =? 728 then Error "There are not enough free ports available to complete port mapping."
  else if code =? 729 then Error "Attempted port mapping is not allowed due to conflict with other mechanisms"
  else if code =? 732 then Error "The internal port cannot be wild-carded."
  else request_failed st fs.

(** Truthiness of an element read from a reply. *)
Definition node_truthy (n : xmlnode) : bool :=
  match n with
  | Absent => false
  | Text s => truthy (JStr s)
  | Nested => true
  end.

(** [fault.faultString || fault.faultstring] *)
Definition fault_string (fault : Fault) : xmlnode :=
  if node_truthy (f_faultString fault) then f_faultString fault
  else f_faultstring fault.

(** [body['s:Body']['s:Fault']], under the fixed prefix [s:]; [None] when
    reading it, or a property of it, throws a TypeError. *)
Definition fault_of (body : option Document) : option Fault :=
  match body with
  | Some doc =>
      match child doc "s:Body" with
      | Some el => el_fault el
      | None => None
      end
  | None => None
  end.

(** [s] without its prefix [pre], when it starts with it. For a key [k],
    [/^xmlns:/.test(k)] is whether [strip_prefix "xmlns:" k] is something,
    and [k.replace(/^xmlns:/, '')] is then what it is. *)
Fixpoint strip_prefix (pre s : string) : option string :=
  match pre, s with
  | EmptyString, _ => Some s
  | String a pre', String b s' =>
      if Ascii.eqb a b then strip_prefix pre' s' else None
  | String _ _, EmptyString => None
  end.

(** The [some] loop of [_getNamespace] over [Object.keys(data['@'])], in key
    order: the value left in [ns]. An object has each key once, so the
    value read back by [data['@'][key]] is the one listed with the key. *)
Fixpoint xmlns_bound (attrs : list (string * jsval)) (uri : jsval) : option string :=
  match attrs with
  | [] => None
  | (key, v) :: rest =>
      match strip_prefix "xmlns:" key with
      | None => xmlns_bound rest uri
      | Some ns => if negb (strict_eq v uri) then xmlns_bound rest uri else Some ns
      end
  end.

(** [_getNamespace(data, uri)]; the first argument is [data['@']], [None]
    when the element has no attributes. *)
Definition _getNamespace (data_at : option (list (string * jsval))) (uri : jsval) : string :=
  match data_at with
  | None => ""
  | Some attrs =>
      match xmlns_bound attrs uri with
      | Some ns => if truthy (JStr ns) then ns +:+ ":" else ""
      | None => ""
      end
  end.

(** The namespace of SOAP envelopes. *)
Definition soap_envelope : jsval :=
  JStr "http://schemas.xmlsoap.org/soap/envelope/".

(** [body[soapns + 'Body']], with [soapns] the prefix the reply declares
    for the envelope namespace; on [null] the read of [data['@']] throws. *)
Definition soap_body (body : option Document) : Result jsval :=
  match body with
  | Some doc =>
      match child doc (_getNamespace (doc_attrs doc) soap_envelope +:+ "Body") with
      | Some el => Ok (el_value el)
      | None => Ok JUndefined
      end
  | None => Throw TypeError
  end.

Section DeviceRun.
Variable resolve : string -> jsval -> string.
Variable net : Net.
Variable self : Device.

(** [run(action, args)] of the async revision. The method calls itself on
    a 725 fault, so the model takes the number of submissions it may make;
    [None] is a run that has not returned within them. It returns the
    result and the network traffic so far. The body of the reply is parsed
    before the status is looked at. *)
Fixpoint run (fuel : nat) (action : string) (args : list (string * jsval))
    (tr : list NetEvent) : option (Result jsval * list NetEvent) :=
  match fuel with
  | O => None
  | S fuel' =>
      let tr1 := tr ++ [Fetched (url self)] in
      match getXml net tr (url self) with
      | Throw e => Some (Throw e, tr1)
      | Ok description =>
          match _getService resolve self (services self) description with
          | Throw e => Some (Throw e, tr1)
          | Ok info =>
              let req := mkRequest (si_controlURL info) (si_service info) action args in
              let tr2 := tr1 ++ [Posted req] in
              match post net tr1 req with
              | Throw e => Some (Throw e, tr2)
              | Ok res =>
                  match parsed res with
                  | Throw e => Some (Throw e, tr2)
                  | Ok body =>
                      if status res =? 500 then
                        match fault_of body with
                        | None => Some (Throw TypeError, tr2)
                        | Some fault =>
                            match fault_string fault with
                            | Text faultString =>
                                if bool_decide (toLowerCase faultString = "upnperror"%string) then
                                  match f_errorCode fault with
                                  | NoCode => Some (Throw TypeError, tr2)
                                  | NotACode =>
                                      Some (Throw (request_failed (status res) faultString), tr2)
                                  | Code errorCode =>
                                      if errorCode =? 725 then
                                        (* Automatically re-submit the request with a lease duration of 0. *)
                                        run fuel' action (set_last args lease_zero) tr2
                                      else
                                        Some (Throw (upnp_error (status res) faultString errorCode), tr2)
                                  end
                                else Some (Throw (request_failed (status res) faultString), tr2)
                            | _ => Some (Throw TypeError, tr2)      (* no [toLowerCase] *)
                            end
                        end
                      else if negb (status res =? 200) then
                        Some (Throw (Error ("Request failed: " +:+ pretty (status res))), tr2)
                      else Some (soap_body body, tr2)
                  end
              end
          end
      end
  end.

(** [run(action, args, callback)] of [lib/upnp/device.js], the revision
    with callbacks: what the callback receives, and the traffic. The status
    is looked at before the body is read: every status other than 200 is a
    failure, no fault is parsed and nothing is submitted twice. *)
Definition run_callback (action : string) (args : list (string * jsval))
    (tr : list NetEvent) : Result jsval * list NetEvent :=
  let tr1 := tr ++ [Fetched (url self)] in
  match getXml net tr (url self) with
  | Throw e => (Throw e, tr1)
  | Ok description =>
      match _getService resolve self (services self) description with
      | Throw e => (Throw e, tr1)
      | Ok info =>
          let req := mkRequest (si_controlURL info) (si_service info) action args in
          let tr2 := tr1 ++ [Posted req] in
          match post net tr1 req with
          | Throw e => (Throw e, tr2)
          | Ok res =>
              if negb (status res =? 200) then
                (Throw (Error ("Request failed: " +:+ pretty (status res))), tr2)
              else
                match parsed res with
                | Throw e => (Throw e, tr2)
                | Ok body => (soap_body body, tr2)
                end
          end
      end
  end.
End DeviceRun.

(** A reply that is fault 725: status 500, a body that parses, and in it
    under [s:Body] an [s:Fault] whose fault string is 'UPnPError' in any
    case and whose error code is 725. *)
Definition is_fault_725 (reply : Result HttpResponse) : bool :=
  match reply with
  | Ok res =>
      match parsed res with
      | Ok body =>
          (status res =? 500) &&
          match fault_of body with
          | Some fault =>
              match fault_string fault, f_errorCode fault with
              | Text fs, Code n =>
                  bool_decide (toLowerCase fs = "upnperror"%string) && (n =? 725)
              | _, _ => false
              end
          | None => false
          end
      | Throw _ => false
      end
  | Throw _ => false
  end.


(* ================================================================== *)
(** ** Notions used in the statements *)
(* ================================================================== *)

(** The fields set by the constructor and never written again. *)
Definition config (s : NatAPI) :=
  (this_ttl s, this_description s, this_gateway s, autoUpdate s,
   upnpPermanentFallback s, _timeout s, _pmpClient s, _upnpClient s).

(** The protocol a client call is about, when it carries one. *)
Definition call_protocol (c : Call) : option jsval :=
  match c with
  | PmpPortMapping _ _ p _ | PmpPortUnmapping _ _ p
  | UpnpPortMapping _ _ _ p _ | UpnpPortUnmapping _ _ p => Some p
  | _ => None
  end.

(** A [portUnmapping] call of either client. *)
Definition is_unmap_call (c : Call) : bool :=
  match c with
  | PmpPortUnmapping _ _ _ | UpnpPortUnmapping _ _ _ => true
  | _ => false
  end.

(** [io_only s s' evs]: from [s] to [s'] the program made the client calls
    [evs], all of them while the registry was that of [s], and wrote only
    timer state. *)
Definition io_only (s s' : NatAPI) (evs : list Event) : Prop :=
  config s' = config s /\
  _destroyed s' = _destroyed s /\
  _openPorts s' = _openPorts s /\
  next_ref s' = next_ref s /\
  trace s' = trace s ++ evs /\
  Forall (fun ev => ev_registry ev = _openPorts s) evs.

(** The calls of one protocol attempt for [opts]: they carry the protocol
    of [opts], or they close the NAT-PMP client. *)
Definition about (opts : Opts) (ev : Event) : Prop :=
  call_protocol (ev_call ev) = Some (protocol opts) \/ ev_call ev = PmpClose.

(** A protocol path run on a live client returns (it does not throw) and is
    [io_only]. *)
Definition attempt (m : M bool) (opts : Opts) (s : NatAPI) : Prop :=
  exists b s' evs,
    m s = (Ok b, s') /\ io_only s s' evs /\ Forall (about opts) evs.

(** What every operation throws once the client is destroyed. *)
Definition lifecycle_error : exn := Error "client is destroyed".

(** The protocol test of [_validateInput]. *)
Definition protocol_rejected (v : jsval) : bool :=
  truthy v && (negb (is_string v) || negb (protocol_name_ok v)).

(** The state right after the [arrayRemove] of [unmap]. *)
Definition removed (s : NatAPI) (opts : Opts) : NatAPI :=
  with_openPorts s
    (arrayRemove (_openPorts s) (findIndex (key_matches opts) (_openPorts s))).

(** Whether the pair returned by [_map]/[_unmap] reports success. *)
Definition succeeded (r : Result Response * NatAPI) : bool :=
  match fst r with
  | Ok (b, _) => b
  | Throw _ => false
  end.

(** [newOptsUDP] and [newOptsTCP]: the request with the protocol filled in. *)
Definition optsUDP (opts : Opts) : Opts := set_protocol opts (JStr "UDP").
Definition optsTCP (opts : Opts) : Opts := set_protocol opts (JStr "TCP").

(** What holds of every state the class can reach: the objects in the
    registry were allocated before [next_ref], and the renewal period is
    the one the constructor computed from the client's ttl. *)
Definition wf (s : NatAPI) : Prop :=
  Forall (fun e => (fst e < next_ref s)%nat) (_openPorts s) /\
  _timeout s = (this_ttl s - 600) * 1000 /\
  1200 <= this_ttl s.

(** The states of a client: the constructor's, and those the public
    operations and the firing of a running timer lead to, whatever the
    gateway answers. *)
Inductive reachable : NatAPI -> Prop :=
| reach_new cfg v4 : reachable (new_NatAPI cfg v4)
| reach_map w a b s : reachable s -> reachable (snd (map w a b s))
| reach_unmap w a b s : reachable s -> reachable (snd (unmap w a b s))
| reach_externalIp w s : reachable s -> reachable (snd (externalIp w s))
| reach_destroy w s : reachable s -> reachable (snd (destroy w s))
| reach_fire w h t s :
    reachable s -> intervals s !! h = Some t ->
    reachable (snd (fire w (t_job t) s)).

(** The state right after [this._openPorts.push({ ...opts })]. *)
Definition pushed (s : NatAPI) (opts : Opts) : NatAPI :=
  with_openPorts (with_next_ref s (S (next_ref s)))
    (_openPorts s ++ [(next_ref s, opts)]).

(** The address one attempt yields: what the client resolved with when
    that is truthy, the empty string for a rejection, a timeout or a
    falsy value. *)
Definition ip_of (o : Outcome) : jsval :=
  match o with
  | Resolve ip => if truthy ip then ip else JStr ""
  | _ => JStr ""
  end.

(** The client calls of a stretch of the trace, oldest first. *)
Definition calls (evs : list Event) : list Call := List.map ev_call evs.

(** The caller shapes [_validateInput] accepts: an options object, a port,
    a port and a second argument. *)
Definition caller_shape (a : jsarg) : bool :=
  match a with
  | Obj _ => true
  | Prim v => is_number v
  end.

(** The protocol a caller asked for. *)
Definition requested_protocol (a : jsarg) : jsval :=
  match a with
  | Obj o => protocol o
  | Prim _ => JUndefined
  end.

(** The ports of the request as the caller gave them. *)
Definition requested_ports (a b : jsarg) : jsval * jsval :=
  match a, b with
  | Obj o, _ => (publicPort o, privatePort o)
  | Prim p, Prim q => if is_number q then (p, q) else (p, p)
  | Prim p, Obj _ => (p, p)
  end.

(** The exceptions [_validateInput] can raise. *)
Definition validation_error (e : exn) : Prop :=
  e = Error "port was not specified" \/ e = Error "protocol is invalid" \/
  e = TypeError.

(** A call that asks for something on TCP. *)
Definition tcp_call (ev : Event) : Prop :=
  call_protocol (ev_call ev) = Some (JStr "TCP").

(** The test of the filter in [_getService]. *)
Definition accepted (types : list string) (sv : Service) : bool :=
  negb (types_indexOf types (serviceType sv) =? -1).

(** The truthy items of a list field, in document order. *)
Definition live_items {A} (field : option (items (option A))) : list A :=
  match field with
  | None => []
  | Some i => omap id (toArray i)
  end.

(** The nested devices and the services a device lists itself. *)
Definition sub_devices (d : xdevice) : list xdevice :=
  match d with XDevice dl _ => live_items dl end.

Definition own_services (d : xdevice) : list Service :=
  match d with XDevice _ sl => live_items sl end.

(** The POSTs of a network trace, oldest first. *)
Fixpoint posted (tr : list NetEvent) : list Request :=
  match tr with
  | [] => []
  | Posted r :: rest => r :: posted rest
  | Fetched _ :: rest => posted rest
  end.

(** The POST that submits [action] with [args] to the resolved service. *)
Definition submission (info : ServiceInfo) (action : string)
    (args : list (string * jsval)) : Request :=
  mkRequest (si_controlURL info) (si_service info) action args.


(* ================================================================== *)
(** ** Concrete gateways, clients and requests *)
(* ================================================================== *)

(** A gateway that grants everything. *)
Definition all_resolve : World := fun _ _ => Resolve JUndefined.

(** A gateway that refuses everything. *)
Definition all_reject : World := fun _ _ => Reject.

(** A gateway that refuses what is asked for UDP and grants the rest. *)
Definition udp_rejected : World :=
  fun _ c =>
    if bool_decide (call_protocol c = Some (JStr "UDP")) then Reject
    else Resolve JUndefined.

(** A NAT-PMP gateway that never answers, behind a UPnP gateway that
    reports an address. *)
Definition pmp_silent : World :=
  fun _ c =>
    match c with
    | UpnpExternalIp => Resolve (JStr "203.0.113.7")
    | PmpClose | UpnpDestroy => Resolve JUndefined
    | _ => Timeout
    end.

(** [new NatAPI({ enablePMP: false })] *)
Definition upnp_only : NatAPI :=
  new_NatAPI (mkConfig None None None None (Some false) None None) None.

(** [new NatAPI()] on a host whose default gateway is found. *)
Definition both_clients : NatAPI :=
  new_NatAPI default_config (Some "192.168.1.1"%string).

(** A port given as a number, and an argument left out. *)
Definition port (n : Z) : jsarg := Prim (JNum n).
Definition no_arg : jsarg := Prim JUndefined.

(** [{ publicPort: p, privatePort: q, protocol: proto }] *)
Definition request (p q : Z) (proto : string) : jsarg :=
  Obj (mkOpts (JNum p) (JNum q) (JStr proto) JUndefined JUndefined JUndefined).

(** The registry entry of a request without ttl, description or gateway of
    its own, on a client with the default settings. *)
Definition entry (p q : Z) (proto : string) : Opts :=
  mkOpts (JNum p) (JNum q) (JStr proto) (JStr "NatAPI") (JNum 7200) JNull.

(** [unmap(1000)] after validation on a client with the default settings. *)
Definition wildcard_1000 : Opts :=
  mkOpts (JNum 1000) (JNum 1000) JNull (JStr "NatAPI") (JNum 7200) JNull.

(** [map({ publicPort: 80, privatePort: 80, protocol: 'TCP' })] after
    validation on a client with the default settings. *)
Definition tcp_80 : Opts := entry 80 80 "TCP".

(** [{ publicPort: 4000, privatePort: 5000, ttl: 1800, protocol: 'UDP' }] *)
Definition short_lease : jsarg :=
  Obj (mkOpts (JNum 4000) (JNum 5000) (JStr "UDP") JUndefined (JNum 1800) JUndefined).

(** What [map({ publicPort: 6690, privatePort: 6690, protocol: 'tcp' })]
    stores. *)
Definition lower_6690 : Opts := entry 6690 6690 "tcp".

(** The three accepted service types. *)
Definition WANIPConnection1 : string := "urn:schemas-upnp-org:service:WANIPConnection:1".
Definition WANIPConnection2 : string := "urn:schemas-upnp-org:service:WANIPConnection:2".
Definition WANPPPConnection1 : string := "urn:schemas-upnp-org:service:WANPPPConnection:1".

(** A service of the given type with both of its URLs under [path]. *)
Definition service_at (type path : string) : Service :=
  mkService (JStr type) (JStr (path +:+ "/control")) (JStr (path +:+ "/scpd")).

(** A stand-in for URL resolution: the path after the base. *)
Definition join_url (base : string) (u : jsval) : string := base +:+ to_string u.

(** The root description URL of the examples. *)
Definition gateway_url : string := "http://192.168.1.1:5000".

(** A root device that lists a PPP service before an IP one. *)
Definition ppp_listed_first : Description :=
  mkDescription
    (Some (XDevice None
             (Some (Many [ Some (service_at WANPPPConnection1 "/ppp");
                           Some (service_at WANIPConnection1 "/ip") ]))))
    JUndefined.

(** A root device whose first accepted service has no controlURL, followed
    by one that has both URLs. *)
Definition first_lacks_control : Description :=
  mkDescription
    (Some (XDevice None
             (Some (Many [ Some (mkService (JStr WANIPConnection2) JUndefined (JStr "/ip2/scpd"));
                           Some (service_at WANIPConnection1 "/ip") ]))))
    JUndefined.

(** A root device with an IP service of its own and a sub-device with a PPP
    service. *)
Definition nested_ppp : Description :=
  mkDescription
    (Some (XDevice (Some (One (Some (XDevice None
                                        (Some (One (Some (service_at WANPPPConnection1 "/ppp"))))))))
                   (Some (One (Some (service_at WANIPConnection1 "/ip"))))))
    JUndefined.

(** A description with one WANIPConnection:1 service. *)
Definition plain_gateway : Description :=
  mkDescription
    (Some (XDevice None (Some (One (Some (service_at WANIPConnection1 "/ip"))))))
    JUndefined.

(** The attributes of the envelope of a reply. *)
Definition envelope_attrs : option (list (string * jsval)) :=
  Some [ ("xmlns:s"%string, soap_envelope);
         ("s:encodingStyle"%string, JStr "http://schemas.xmlsoap.org/soap/encoding/") ].

(** The two replies of the examples: fault 725, and a success. *)
Definition fault_725 : HttpResponse :=
  mkResponse 500
    (Ok (Some (mkDocument envelope_attrs
                 [ ("s:Body"%string,
                    mkElement (Some (mkFault Absent (Text "UPnPError") (Code 725)))
                      JUndefined) ]))).

Definition granted : HttpResponse :=
  mkResponse 200
    (Ok (Some (mkDocument envelope_attrs
                 [ ("s:Body"%string, mkElement None (JStr "granted")) ]))).

(** A gateway that answers fault 725 twice and then grants the request. *)
Definition two_faults : Net :=
  mkNet (fun _ _ => Ok plain_gateway)
        (fun tr _ => if bool_decide (length (posted tr) < 2)%nat
                     then Ok fault_725 else Ok granted).

(** A gateway that supports permanent leases only: it grants a request
    whose last argument arrives empty and answers fault 725 to any other. *)
Definition permanent_leases_only : Net :=
  mkNet (fun _ _ => Ok plain_gateway)
        (fun _ req =>
           match last (req_args req) with
           | Some arg => if bool_decide (arg_text (snd arg) = ""%string)
                         then Ok granted else Ok fault_725
           | None => Ok fault_725
           end).


(** The arguments of AddPortMapping for port 6690 over TCP, two hours. *)
Definition add_port_mapping : list (string * jsval) :=
  [ ("NewRemoteHost", JStr "");
    ("NewExternalPort", JNum 6690);
    ("NewProtocol", JStr "TCP");
    ("NewInternalPort", JNum 6690);
    ("NewInternalClient", JStr "192.168.1.10");
    ("NewEnabled", JNum 1);
    ("NewPortMappingDescription", JStr "NatAPI");
    ("NewLeaseDuration", JNum 7200) ]%string.

(** What [plain_gateway] resolves to. *)
Definition ip_service : ServiceInfo :=
  mkServiceInfo (JStr WANIPConnection1)
    "http://192.168.1.1:5000/ip/scpd" "http://192.168.1.1:5000/ip/control".

(* ================================================================== *)
(** ** Notions used in the further properties *)
(* ================================================================== *)

(** One turn of the loop of [destroy]: the body of its [for ... of]. *)
Definition destroy_turn (w : World) (openPort : objref * Opts) : M unit :=
  try_catch (unmap w (Obj (snd openPort)) (Prim JUndefined) ;;; ret tt)
            (fun _ => ret tt).

(** [keeps P m]: running [m] in a state where [P] holds ends, whether it
    returns or throws, in a state where [P] holds. *)
Definition keeps {A} (P : NatAPI -> Prop) (m : M A) : Prop :=
  forall s, P s -> P (snd (m s)).

(** The client's [autoUpdate] is [b], and when that is [false] no timer
    runs and no handle is stored. *)
Definition unscheduled (b : bool) (s : NatAPI) : Prop :=
  autoUpdate s = b /\
  (b = false -> intervals s = ∅ /\ _upnpIntervals s = ∅ /\ _pmpIntervals s = ∅).

(** A request whose ports [===] finds equal to themselves: neither port is
    [NaN]. *)
Definition comparable (o : Opts) : Prop :=
  publicPort o <> JNaN /\ privatePort o <> JNaN.

(** What the registry predicate compares. *)
Definition key_of (o : Opts) : jsval * jsval * jsval :=
  (publicPort o, privatePort o, protocol o).

(** What [map] puts into the registry: a request with a protocol that
    validation accepts. *)
Definition storable (o : Opts) : Prop :=
  truthy (protocol o) = true /\ protocol_rejected (protocol o) = false.

(** The client calls made between an earlier state [s] and a later [s']. *)
Definition new_calls (s s' : NatAPI) : list Call :=
  calls (drop (length (trace s)) (trace s')).

(** How [destroy] releases the clients it has. *)
Definition closing_calls (s : NatAPI) : list Call :=
  (if present (_pmpClient s) then [PmpClose] else [])
    ++ (if present (_upnpClient s) then [UpnpDestroy] else []).

(** The three timer fields of the object. *)
Definition timers (s : NatAPI) :=
  (intervals s, _upnpIntervals s, _pmpIntervals s).

(** The calls [_map] and [_unmap] start with. *)
Definition pmp_map_call (opts : Opts) : Call :=
  PmpPortMapping (publicPort opts) (privatePort opts) (protocol opts) (ttl opts).

Definition upnp_map_call (opts : Opts) : Call :=
  UpnpPortMapping (publicPort opts) (privatePort opts) (description opts)
    (protocol opts) (ttl opts).


(** A [portMapping] call of either client. *)
Definition is_map_call (c : Call) : bool :=
  match c with
  | PmpPortMapping _ _ _ _ | UpnpPortMapping _ _ _ _ _ => true
  | _ => false
  end.

(** Whether a call resolved, and the closes of the NAT-PMP client that
    follow a NAT-PMP call: none when it resolved, one in the catch block
    when it was rejected, one more from the timer when it timed out. *)
Definition resolved (o : Outcome) : bool :=
  match o with Resolve _ => true | _ => false end.

(** A gateway and clients that let every close go through. *)
Definition closes_resolve (w : World) : Prop :=
  forall tr, resolved (w tr PmpClose) = true /\ resolved (w tr UpnpDestroy) = true.

Definition pmp_closes (o : Outcome) : list Call :=
  match o with
  | Resolve _ => []
  | Reject => [PmpClose]
  | Timeout => [PmpClose; PmpClose]
  end.

(** A gateway whose NAT-PMP side refuses everything and whose UPnP side
    grants everything. *)
Definition pmp_refuses : World :=
  fun _ c =>
    match c with
    | PmpPortMapping _ _ _ _ | PmpPortUnmapping _ _ _ | PmpExternalIp => Reject
    | _ => Resolve JUndefined
    end.

(** A gateway that grants what is asked for UDP and refuses the rest. *)
Definition only_udp_granted : World :=
  fun _ c =>
    if bool_decide (call_protocol c = Some (JStr "UDP")) then Resolve JUndefined
    else Reject.

(** [new NatAPI({ enablePMP: false, enableUPNP: false })] *)
Definition no_clients : NatAPI :=
  new_NatAPI (mkConfig None None None None (Some false) (Some false) None) None.

(** An attribute [xmlns:p="uri"]: it declares a prefix for [uri]. Its
    value is [===] to [uri]. *)
Definition declares (uri : jsval) (kv : string * jsval) : Prop :=
  exists p, fst kv = "xmlns:" +:+ p /\ strict_eq (snd kv) uri = true.

(** The traffic of [reqs] submissions, each after its own fetch of the
    description. *)
Definition exchanges (self : Device) (reqs : list Request) : list NetEvent :=
  flat_map (fun q => [Fetched (url self); Posted q]) reqs.


Definition html_404 : Net :=
  mkNet (fun _ _ => Ok plain_gateway)
        (fun _ _ => Ok (mkResponse 404 (Throw (Error "Non-whitespace before first tag.")))).

(* ================================================================== *)
(** ** Strict equality *)
(* ================================================================== *)

Lemma strict_eq_true a b : strict_eq a b = true <-> a = b /\ a <> JNaN.
Proof.
  unfold strict_eq. rewrite andb_true_iff, negb_true_iff.
  now rewrite bool_decide_eq_true, bool_decide_eq_false.
Qed.

(** [===] is reflexive on everything but [NaN]. *)
Lemma strict_eq_refl a : a <> JNaN -> strict_eq a a = true.
Proof. intros H. now apply strict_eq_true. Qed.

Lemma strict_eq_NaN b : strict_eq JNaN b = false.
Proof. unfold strict_eq. destruct (bool_decide (JNaN = b)); reflexivity. Qed.

(* ================================================================== *)
(** ** What a method leaves untouched *)
(* ================================================================== *)

Lemma io_only_refl s : io_only s s [].
Proof.
  unfold io_only. rewrite app_nil_r. repeat split; auto.
Qed.

Lemma io_only_trans s1 s2 s3 evs1 evs2 :
  io_only s1 s2 evs1 -> io_only s2 s3 evs2 -> io_only s1 s3 (evs1 ++ evs2).
Proof.
  intros (Hc1 & Hd1 & Ho1 & Hr1 & Ht1 & Hf1) (Hc2 & Hd2 & Ho2 & Hr2 & Ht2 & Hf2).
  unfold io_only. repeat split; try congruence.
  - rewrite Ht2, Ht1. now rewrite app_assoc.
  - apply Forall_app. split; [assumption|].
    rewrite Ho1 in Hf2. assumption.
Qed.

Ltac run_monad :=
  unfold settled, check_destroyed, bind, get, ret, throw, modify, try_catch,
    setInterval, clearInterval, await, new_object, push, remove_at; cbn.

Ltac solve_io :=
  unfold io_only, about, config; cbn;
  repeat split; auto using app_nil_r;
  repeat (apply Forall_cons; [cbn; auto|]); try apply Forall_nil.

Section ProtocolPaths.
Variable w : World.

Lemma _upnpMap_attempt opts s :
  _destroyed s = false -> attempt (_upnpMap w opts) opts s.
Proof.
  intros Hd. unfold attempt, _upnpMap. run_monad. rewrite Hd. cbn.
  destruct (w (trace s) _) eqn:Hw; cbn;
    [destruct (autoUpdate s) eqn:Ha; cbn|..];
    eexists _, _, [_]; (split; [reflexivity|]); solve_io.
Qed.

Lemma _pmpMap_attempt opts s :
  _destroyed s = false -> attempt (_pmpMap w opts) opts s.
Proof.
  intros Hd. unfold attempt, _pmpMap. run_monad. rewrite Hd. cbn.
  destruct (w (trace s) _) eqn:Hw; cbn;
    [destruct (autoUpdate s) eqn:Ha; cbn; eexists _, _, [_]
    | eexists _, _, [_; _]
    | eexists _, _, [_; _; _] ];
    (split; [try rewrite <- !app_assoc; reflexivity|]); solve_io.
Qed.

Lemma _upnpUnmap_attempt opts s :
  _destroyed s = false -> attempt (_upnpUnmap w opts) opts s.
Proof.
  intros Hd. unfold attempt, _upnpUnmap. run_monad. rewrite Hd. cbn.
  destruct (w (trace s) _) eqn:Hw; cbn;
    [destruct (_upnpIntervals s !! interval_key opts) eqn:Hk; cbn|..];
    eexists _, _, [_]; (split; [reflexivity|]); solve_io.
Qed.

Lemma _pmpUnmap_attempt opts s :
  _destroyed s = false -> attempt (_pmpUnmap w opts) opts s.
Proof.
  intros Hd. unfold attempt, _pmpUnmap. run_monad. rewrite Hd. cbn.
  destruct (w (trace s) _) eqn:Hw; cbn;
    [destruct (_pmpIntervals s !! interval_key opts) eqn:Hk; cbn; eexists _, _, [_]
    | eexists _, _, [_; _]
    | eexists _, _, [_; _; _] ];
    (split; [try rewrite <- !app_assoc; reflexivity|]); solve_io.
Qed.
End ProtocolPaths.

(* ================================================================== *)
(** ** Facts about the array operations *)
(* ================================================================== *)

Section ArrayFacts.
Context {A : Type}.
Implicit Types (p : A -> bool) (arr pre post : list A).

Lemma findIndex_from_first p pre x post i :
  Forall (fun y => p y = false) pre -> p x = true ->
  findIndex_from p (pre ++ x :: post) i = i + Z.of_nat (length pre).
Proof.
  intros Hpre Hx. revert i.
  induction Hpre as [|y pre Hy _ IH]; intros i; cbn [app findIndex_from length].
  - rewrite Hx. lia.
  - rewrite Hy, IH. lia.
Qed.

Lemma findIndex_from_none p arr i :
  Forall (fun y => p y = false) arr -> findIndex_from p arr i = -1.
Proof.
  intros H. revert i. induction H as [|y l Hy _ IH]; intros i; cbn.
  - reflexivity.
  - now rewrite Hy.
Qed.

(** [findIndex] answers [-1] or the position of the first match. *)
Lemma findIndex_from_spec p arr i :
  (findIndex_from p arr i = -1 /\ Forall (fun y => p y = false) arr) \/
  (exists pre x post,
      arr = pre ++ x :: post /\ Forall (fun y => p y = false) pre /\
      p x = true /\ findIndex_from p arr i = i + Z.of_nat (length pre)).
Proof.
  revert i. induction arr as [|y l IH]; intros i.
  - left. split; [reflexivity | constructor].
  - cbn [findIndex_from]. destruct (p y) eqn:Hy.
    + right. exists [], y, l. cbn. repeat split; auto. lia.
    + destruct (IH (i + 1)) as [[E F] | (pre & x & post & -> & F & Hx & E)].
      * left. split; [assumption | now constructor].
      * right. exists (y :: pre), x, post. cbn [app length].
        repeat split; auto. rewrite E. lia.
Qed.

Lemma snoc_cases arr : arr = [] \/ exists init l, arr = init ++ [l].
Proof.
  induction arr as [|l init _] using rev_ind; [now left | right; eauto].
Qed.

Lemma arrayRemove_out arr i :
  i < 0 \/ Z.of_nat (length arr) <= i -> arrayRemove arr i = arr.
Proof.
  intros H. unfold arrayRemove.
  repeat case_bool_decide; first [reflexivity | lia].
Qed.

(** Removing the last element is [pop]. *)
Lemma arrayRemove_last (init : list A) (l : A) :
  arrayRemove (init ++ [l]) (Z.of_nat (length init)) = init.
Proof.
  unfold arrayRemove. rewrite length_app, last_snoc, removelast_last. cbn.
  repeat case_bool_decide; first [reflexivity | lia].
Qed.

(** Removing an earlier element moves the last one into its place. *)
Lemma arrayRemove_inner (init : list A) (l : A) i :
  0 <= i < Z.of_nat (length init) ->
  arrayRemove (init ++ [l]) i = <[Z.to_nat i := l]> init.
Proof.
  intros Hi. unfold arrayRemove. rewrite length_app, last_snoc, removelast_last. cbn.
  repeat case_bool_decide; first [reflexivity | lia].
Qed.

(** Nothing new enters the array. *)
Lemma arrayRemove_Forall (P : A -> Prop) arr i :
  Forall P arr -> Forall P (arrayRemove arr i).
Proof.
  intros H.
  destruct (decide (i < 0 \/ Z.of_nat (length arr) <= i)) as [Ho|Hin].
  { now rewrite arrayRemove_out. }
  destruct (snoc_cases arr) as [-> | (arr0 & a0 & ->)]; [cbn in Hin; lia|].
  apply Forall_app in H as [Hi Hl]. apply Forall_cons in Hl as [Hl _].
  rewrite length_app in Hin. cbn in Hin.
  destruct (decide (i = Z.of_nat (length arr0))) as [->|Hne].
  - now rewrite arrayRemove_last.
  - rewrite arrayRemove_inner by lia. now apply Forall_insert.
Qed.

(** At most one element leaves the array. *)
Lemma arrayRemove_length arr i :
  0 <= i < Z.of_nat (length arr) ->
  length (arrayRemove arr i) = (length arr - 1)%nat.
Proof.
  intros Hin.
  destruct (snoc_cases arr) as [-> | (arr0 & a0 & ->)]; [cbn in Hin; lia|].
  rewrite length_app in *. cbn in *.
  destruct (decide (i = Z.of_nat (length arr0))) as [->|Hne].
  - rewrite arrayRemove_last. lia.
  - rewrite arrayRemove_inner by lia. rewrite length_insert. lia.
Qed.
End ArrayFacts.

(** The registry position of an object that was just pushed. *)
Lemma indexOf_fresh (arr : list (objref * Opts)) (r : objref) (o : Opts) :
  Forall (fun e => (fst e < r)%nat) arr ->
  indexOf (arr ++ [(r, o)]) r = Z.of_nat (length arr).
Proof.
  intros H. unfold indexOf, findIndex.
  rewrite findIndex_from_first.
  - lia.
  - eapply Forall_impl; [exact H|]. intros [r' o'] Hlt. cbn in *.
    apply bool_decide_eq_false. lia.
  - cbn. now apply bool_decide_eq_true.
Qed.

(* ================================================================== *)
(** ** Laws of the monad and of the shared pieces *)
(* ================================================================== *)

Lemma bind_ok {A B} (m : M A) (k : A -> M B) s a s' :
  m s = (Ok a, s') -> bind m k s = k a s'.
Proof. intros E. unfold bind. now rewrite E. Qed.

Lemma bind_throw {A B} (m : M A) (k : A -> M B) s e s' :
  m s = (Throw e, s') -> bind m k s = (Throw e, s').
Proof. intros E. unfold bind. now rewrite E. Qed.

Lemma try_catch_ok {A} (m : M A) h s a s' :
  m s = (Ok a, s') -> try_catch m h s = (Ok a, s').
Proof. intros E. unfold try_catch. now rewrite E. Qed.

Lemma check_destroyed_live s :
  _destroyed s = false -> check_destroyed s = (Ok tt, s).
Proof. intros H. unfold check_destroyed. run_monad. now rewrite H. Qed.

Lemma check_destroyed_dead s :
  _destroyed s = true -> check_destroyed s = (Throw lifecycle_error, s).
Proof. intros H. unfold check_destroyed. run_monad. now rewrite H. Qed.

Lemma fill_defaults_throw o s :
  protocol_rejected (protocol o) = true ->
  fill_defaults o s = (Throw (Error "protocol is invalid"), s).
Proof.
  unfold protocol_rejected, fill_defaults. intros ->. reflexivity.
Qed.

Lemma fill_defaults_ok o s :
  protocol_rejected (protocol o) = false ->
  fill_defaults o s =
    (Ok (mkOpts (publicPort o) (privatePort o)
           (js_or (protocol o) JNull)
           (js_or (description o) (this_description s))
           (js_or (ttl o) (JNum (this_ttl s)))
           (js_or (gateway o) (this_gateway s))), s).
Proof.
  unfold protocol_rejected, fill_defaults. intros ->. reflexivity.
Qed.

(** Validation throws for the shape of its arguments or goes on to the
    defaults of one options object. *)
Lemma _validateInput_shape a b :
  (exists o, _validateInput a b = fill_defaults o) \/
  (exists e, _validateInput a b = throw e).
Proof.
  unfold _validateInput.
  destruct a as [[| | | | |]|]; cbn [is_number]; eauto;
    destruct b as [[| | | | |]|]; cbn [is_number]; eauto.
Qed.

(** Validation reads [this] and writes nothing to it. *)
Lemma _validateInput_state a b s : snd (_validateInput a b s) = s.
Proof.
  assert (F : forall o, snd (fill_defaults o s) = s).
  { intros o. destruct (protocol_rejected (protocol o)) eqn:E.
    - now rewrite fill_defaults_throw.
    - now rewrite fill_defaults_ok. }
  unfold _validateInput.
  destruct a as [[| | | | |]|]; cbn [is_number]; try reflexivity; try apply F;
    destruct b as [[| | | | |]|]; cbn [is_number]; apply F.
Qed.

Lemma js_or_idem a b : js_or (js_or a b) b = js_or a b.
Proof.
  unfold js_or. destruct (truthy a) eqn:T; [now rewrite T|].
  now destruct (truthy b).
Qed.

(** A validated object is its own validation: handing a registry object
    back to [unmap], as [destroy] does, rewrites nothing in it. *)
Lemma fill_defaults_idem o o' s :
  fill_defaults o s = (Ok o', s) -> fill_defaults o' s = (Ok o', s).
Proof.
  intros H. destruct (protocol_rejected (protocol o)) eqn:E.
  { rewrite fill_defaults_throw in H by assumption. discriminate. }
  rewrite fill_defaults_ok in H by assumption.
  injection H as <-. rewrite fill_defaults_ok; cbn.
  - now rewrite !js_or_idem.
  - unfold protocol_rejected, js_or in *.
    destruct (truthy (protocol o)) eqn:T; [now rewrite T | reflexivity].
Qed.

Section Chain.
Variable w : World.

Lemma fallback_chain_attempt (pmp upnp : Opts -> M bool) opts s :
  (forall s, _destroyed s = false -> attempt (pmp opts) opts s) ->
  (forall s, _destroyed s = false -> attempt (upnp opts) opts s) ->
  _destroyed s = false ->
  exists (r : Response) s' evs,
    fallback_chain pmp upnp opts s = (Ok r, s') /\
    io_only s s' evs /\ Forall (about opts) evs.
Proof.
  intros Hpmp Hupnp Hd. unfold fallback_chain.
  rewrite (bind_ok _ _ _ _ _ (check_destroyed_live s Hd)).
  assert (P : exists b s1 evs1,
             (if present (_pmpClient s) then pmp opts else ret false) s = (Ok b, s1)
             /\ io_only s s1 evs1 /\ Forall (about opts) evs1).
  { destruct (present (_pmpClient s)); [now apply Hpmp|].
    exists false, s, []. split; [reflexivity|]. split; [apply io_only_refl | constructor]. }
  destruct P as (b & s1 & evs1 & E1 & Hio1 & Hab1).
  assert (Hd1 : _destroyed s1 = false).
  { destruct Hio1 as (_ & -> & _). assumption. }
  assert (U : exists b s2 evs2,
             (if present (_upnpClient s1) then upnp opts else ret false) s1 = (Ok b, s2)
             /\ io_only s1 s2 evs2 /\ Forall (about opts) evs2).
  { destruct (present (_upnpClient s1)); [now apply Hupnp|].
    exists false, s1, []. split; [reflexivity|]. split; [apply io_only_refl | constructor]. }
  destruct U as (b' & s2 & evs2 & E2 & Hio2 & Hab2).
  unfold try_catch, bind at 1, get.
  unfold bind at 1. rewrite E1.
  destruct b.
  - exists (true, None), s1, evs1. auto.
  - unfold bind at 1. unfold bind at 1. rewrite E2.
    exists (if b' then (true, None) else no_protocols), s2, (evs1 ++ evs2).
    split; [now destruct b'|].
    split; [eapply io_only_trans; eauto | now apply Forall_app].
Qed.

Lemma _map_attempt opts s :
  _destroyed s = false ->
  exists (r : Response) s' evs,
    _map w opts s = (Ok r, s') /\ io_only s s' evs /\ Forall (about opts) evs.
Proof.
  apply fallback_chain_attempt; intros;
    [now apply _pmpMap_attempt | now apply _upnpMap_attempt].
Qed.

Lemma _unmap_attempt opts s :
  _destroyed s = false ->
  exists (r : Response) s' evs,
    _unmap w opts s = (Ok r, s') /\ io_only s s' evs /\ Forall (about opts) evs.
Proof.
  apply fallback_chain_attempt; intros;
    [now apply _pmpUnmap_attempt | now apply _upnpUnmap_attempt].
Qed.
End Chain.

(* ================================================================== *)
(** ** The public operations, step by step *)
(* ================================================================== *)

Section PublicOps.
Variable w : World.

Lemma unmap_dead a b s :
  _destroyed s = true -> unmap w a b s = (Throw lifecycle_error, s).
Proof.
  intros H. unfold unmap.
  now rewrite (bind_throw _ _ _ _ _ (check_destroyed_dead s H)).
Qed.

Lemma map_dead a b s :
  _destroyed s = true -> map w a b s = (Throw lifecycle_error, s).
Proof.
  intros H. unfold map.
  now rewrite (bind_throw _ _ _ _ _ (check_destroyed_dead s H)).
Qed.

Lemma externalIp_dead s :
  _destroyed s = true -> externalIp w s = (Throw lifecycle_error, s).
Proof.
  intros H. unfold externalIp.
  now rewrite (bind_throw _ _ _ _ _ (check_destroyed_dead s H)).
Qed.

Lemma unmap_invalid a b s e :
  _destroyed s = false -> _validateInput a b s = (Throw e, s) ->
  unmap w a b s = (Throw e, s).
Proof.
  intros Hd Hv. unfold unmap.
  rewrite (bind_ok _ _ _ _ _ (check_destroyed_live s Hd)).
  now rewrite (bind_throw _ _ _ _ _ Hv).
Qed.

Lemma map_invalid a b s e :
  _destroyed s = false -> _validateInput a b s = (Throw e, s) ->
  map w a b s = (Throw e, s).
Proof.
  intros Hd Hv. unfold map.
  rewrite (bind_ok _ _ _ _ _ (check_destroyed_live s Hd)).
  now rewrite (bind_throw _ _ _ _ _ Hv).
Qed.

(** [unmap] up to the protocol calls: the registry entry is gone. *)
Lemma unmap_enter a b s opts :
  _destroyed s = false -> _validateInput a b s = (Ok opts, s) ->
  unmap w a b s =
    (if truthy (protocol opts) then
       response <- _unmap w opts ;; ret (fst response)
     else
       response <- _unmap w (optsUDP opts) ;;
       if negb (fst response) then ret false
       else
         response <- _unmap w (optsTCP opts) ;;
         if negb (fst response) then ret false else ret true)
    (removed s opts).
Proof.
  intros Hd Hv. unfold unmap.
  rewrite (bind_ok _ _ _ _ _ (check_destroyed_live s Hd)).
  rewrite (bind_ok _ _ _ _ _ Hv).
  unfold remove_at. reflexivity.
Qed.

Lemma unmap_single a b s opts :
  _destroyed s = false -> _validateInput a b s = (Ok opts, s) ->
  truthy (protocol opts) = true ->
  exists s' evs,
    unmap w a b s = (Ok (succeeded (_unmap w opts (removed s opts))), s') /\
    io_only (removed s opts) s' evs /\ Forall (about opts) evs.
Proof.
  intros Hd Hv Hp. rewrite (unmap_enter _ _ _ _ Hd Hv), Hp.
  destruct (_unmap_attempt w opts (removed s opts) Hd) as (r & s' & evs & E & Hio & Hab).
  exists s', evs. rewrite (bind_ok _ _ _ _ _ E).
  unfold succeeded. rewrite E. destruct r. auto.
Qed.

(** The two attempts of a protocol-unspecified [unmap]. *)
Lemma unmap_both a b s opts :
  _destroyed s = false -> _validateInput a b s = (Ok opts, s) ->
  truthy (protocol opts) = false ->
  let first := _unmap w (optsUDP opts) (removed s opts) in
  let second := _unmap w (optsTCP opts) (snd first) in
  exists evs1,
    io_only (removed s opts) (snd first) evs1 /\
    Forall (about (optsUDP opts)) evs1 /\
    if succeeded first then
      exists evs2,
        unmap w a b s = (Ok (succeeded second), snd second) /\
        io_only (snd first) (snd second) evs2 /\
        Forall (about (optsTCP opts)) evs2
    else unmap w a b s = (Ok false, snd first).
Proof.
  intros Hd Hv Hp. cbn zeta. rewrite (unmap_enter _ _ _ _ Hd Hv), Hp.
  destruct (_unmap_attempt w (optsUDP opts) (removed s opts) Hd)
    as (r1 & s1 & evs1 & E1 & Hio1 & Hab1).
  rewrite (bind_ok _ _ _ _ _ E1), E1. exists evs1.
  split; [assumption|]. split; [assumption|].
  unfold succeeded at 1. cbn [fst snd]. destruct r1 as [[] err1]; cbn [fst negb].
  - assert (Hd1 : _destroyed s1 = false).
    { destruct Hio1 as (_ & -> & _). assumption. }
    destruct (_unmap_attempt w (optsTCP opts) s1 Hd1)
      as (r2 & s2 & evs2 & E2 & Hio2 & Hab2).
    exists evs2. rewrite (bind_ok _ _ _ _ _ E2).
    unfold succeeded. rewrite E2. cbn [fst snd].
    destruct r2 as [[] err2]; auto.
  - reflexivity.
Qed.
End PublicOps.

(* ================================================================== *)
(** ** The registry invariant and [map] *)
(* ================================================================== *)

Lemma new_NatAPI_wf opts v4 : wf (new_NatAPI opts v4).
Proof.
  unfold wf, new_NatAPI. cbn. split; [constructor|]. split; [reflexivity|].
  destruct (cfg_ttl opts) as [n|]; [|lia].
  destruct (Z.eqb_spec n 0); lia.
Qed.

Lemma wf_transport s s' :
  wf s -> config s' = config s ->
  Forall (fun e => (fst e < next_ref s')%nat) (_openPorts s') -> wf s'.
Proof.
  intros (_ & Ht & Hl) Hc Hf. unfold config in Hc.
  injection Hc as E1 _ _ _ _ E6 _ _.
  split; [assumption|]. rewrite E1, E6. auto.
Qed.

(** Client calls and timer bookkeeping keep the invariant: so do the
    protocol paths, [externalIp] and the renewal callbacks. *)
Lemma io_only_wf s s' evs : io_only s s' evs -> wf s -> wf s'.
Proof.
  intros (Hc & _ & Ho & Hr & _) Hwf.
  apply (wf_transport s); [assumption..|]. rewrite Ho, Hr. apply Hwf.
Qed.

Section MapSteps.
Variable w : World.

Lemma map_enter a b s opts :
  _destroyed s = false -> _validateInput a b s = (Ok opts, s) ->
  map w a b s =
    (if truthy (protocol opts) then
       response <- _map w opts ;;
       if negb (fst response) then
         remove_at (fun s' => indexOf (_openPorts s') (next_ref s)) ;;; ret false
       else ret true
     else
       response <- _map w (optsUDP opts) ;;
       if negb (fst response) then
         remove_at (fun s' => indexOf (_openPorts s') (next_ref s)) ;;; ret false
       else
         newOptsTCP <- new_object ;;
         push newOptsTCP (optsTCP opts) ;;;
         response <- _map w (optsTCP opts) ;;
         if negb (fst response) then
           remove_at (fun s' => findIndex (key_matches (optsTCP opts)) (_openPorts s')) ;;;
           ret false
         else ret true)
    (pushed s (if truthy (protocol opts) then opts else optsUDP opts)).
Proof.
  intros Hd Hv. unfold map.
  rewrite (bind_ok _ _ _ _ _ (check_destroyed_live s Hd)).
  rewrite (bind_ok _ _ _ _ _ Hv).
  destruct (truthy (protocol opts)); reflexivity.
Qed.

(** A single-protocol [map]: the entry stays on success and is taken
    back on failure. *)
Lemma map_single a b s opts :
  _destroyed s = false -> wf s -> _validateInput a b s = (Ok opts, s) ->
  truthy (protocol opts) = true ->
  let attempted := _map w opts (pushed s opts) in
  exists s',
    config s' = config s /\ _destroyed s' = false /\
    next_ref s' = S (next_ref s) /\
    ((succeeded attempted = true /\ map w a b s = (Ok true, s') /\
      _openPorts s' = _openPorts s ++ [(next_ref s, opts)]) \/
     (succeeded attempted = false /\ map w a b s = (Ok false, s') /\
      _openPorts s' = _openPorts s)).
Proof.
  intros Hd (Hf & _) Hv Hp. cbn zeta. rewrite (map_enter _ _ _ _ Hd Hv), Hp.
  destruct (_map_attempt w opts (pushed s opts) Hd)
    as (r & s1 & evs & E & (Hc & Hd1 & Ho & Hr & _) & _).
  rewrite (bind_ok _ _ _ _ _ E). unfold succeeded. rewrite E. cbn [fst].
  change (config s1 = config s) in Hc.
  cbn [pushed with_openPorts with_next_ref _destroyed _openPorts next_ref] in Hd1, Ho, Hr.
  destruct r as [[] err]; cbn [fst negb].
  - exists s1. repeat split; auto. congruence.
  - exists (with_openPorts s1 (_openPorts s)).
    unfold remove_at, modify, bind, ret. cbn [fst snd].
    rewrite Ho, indexOf_fresh, arrayRemove_last by assumption.
    split; [exact Hc|]. split; [cbn; congruence|]. split; [exact Hr|].
    right. repeat split; reflexivity.
Qed.

(** A protocol-unspecified [map]: UDP, then TCP. *)
Lemma map_both a b s opts :
  _destroyed s = false -> wf s -> _validateInput a b s = (Ok opts, s) ->
  truthy (protocol opts) = false ->
  let r := next_ref s in
  let both := _openPorts s ++ [(r, optsUDP opts); (S r, optsTCP opts)] in
  let first := _map w (optsUDP opts) (pushed s (optsUDP opts)) in
  let second := _map w (optsTCP opts) (pushed (snd first) (optsTCP opts)) in
  exists s',
    config s' = config s /\ _destroyed s' = false /\
    ((succeeded first = true /\ succeeded second = true /\
      map w a b s = (Ok true, s') /\ _openPorts s' = both /\
      next_ref s' = S (S r)) \/
     (succeeded first = false /\
      map w a b s = (Ok false, s') /\ _openPorts s' = _openPorts s /\
      next_ref s' = S r) \/
     (succeeded first = true /\ succeeded second = false /\
      map w a b s = (Ok false, s') /\
      _openPorts s' = arrayRemove both (findIndex (key_matches (optsTCP opts)) both) /\
      next_ref s' = S (S r))).
Proof.
  intros Hd (Hf & _) Hv Hp. cbn zeta. rewrite (map_enter _ _ _ _ Hd Hv), Hp.
  destruct (_map_attempt w (optsUDP opts) (pushed s (optsUDP opts)) Hd)
    as (r1 & s1 & evs1 & E1 & (Hc1 & Hd1 & Ho1 & Hr1 & _) & _).
  rewrite (bind_ok _ _ _ _ _ E1). unfold succeeded at 1 2 4. rewrite E1. cbn [fst snd].
  change (config s1 = config s) in Hc1.
  cbn [pushed with_openPorts with_next_ref _destroyed _openPorts next_ref] in Hd1, Ho1, Hr1.
  destruct r1 as [[] err1]; cbn [fst negb].
  - erewrite bind_ok by reflexivity. erewrite bind_ok by reflexivity.
    change (with_openPorts _ _) with (pushed s1 (optsTCP opts)).
    assert (Hd2 : _destroyed (pushed s1 (optsTCP opts)) = false) by (cbn; congruence).
    destruct (_map_attempt w (optsTCP opts) (pushed s1 (optsTCP opts)) Hd2)
      as (r2 & s3 & evs2 & E2 & (Hc2 & Hd3 & Ho2 & Hr2 & _) & _).
    rewrite (bind_ok _ _ _ _ _ E2). unfold succeeded. rewrite E2. cbn [fst].
    assert (Hboth : _openPorts s3 =
              _openPorts s ++ [(next_ref s, optsUDP opts); (S (next_ref s), optsTCP opts)]).
    { rewrite Ho2. cbn. rewrite Ho1, Hr1. cbn. now rewrite <- app_assoc. }
    assert (Hn : next_ref s3 = S (S (next_ref s))).
    { rewrite Hr2. cbn. now rewrite Hr1. }
    assert (Hc3 : config s3 = config s).
    { rewrite Hc2. unfold config in *. cbn. exact Hc1. }
    destruct r2 as [[] err2]; cbn [fst negb].
    + exists s3. split; [assumption|]. split; [cbn in Hd3; congruence|]. left. auto.
    + exists (with_openPorts s3
                (arrayRemove (_openPorts s3)
                   (findIndex (key_matches (optsTCP opts)) (_openPorts s3)))).
      unfold remove_at, modify, bind, ret. cbn [fst snd].
      split; [exact Hc3|]. split; [cbn in *; congruence|].
      right. right. repeat (split; [reflexivity|]). cbn. rewrite Hboth. auto.
  - exists (with_openPorts s1 (_openPorts s)).
    unfold remove_at, modify, bind, ret. cbn [fst snd].
    rewrite Ho1, indexOf_fresh, arrayRemove_last by assumption.
    split; [exact Hc1|]. split; [cbn; congruence|].
    right. left. cbn. auto.
Qed.
End MapSteps.

(* ================================================================== *)
(** ** Liveness of the public operations *)
(* ================================================================== *)

(** Reduce the projections of the state after [unmap]'s removal or [map]'s
    push to those of the state before. *)
Ltac unframe :=
  unfold config, removed, pushed in *;
  cbn [with_openPorts with_destroyed with_upnpIntervals with_pmpIntervals
       with_intervals with_next_ref with_trace
       this_ttl this_description this_gateway autoUpdate upnpPermanentFallback
       _timeout _destroyed _openPorts _upnpIntervals _pmpIntervals _pmpClient
       _upnpClient intervals next_handle next_ref trace] in *.

Ltac solve_io_evar :=
  unfold io_only, config; cbn;
  repeat split;
  try reflexivity;
  try (rewrite <- ?app_assoc; reflexivity);
  try (symmetry; apply app_nil_r);
  repeat constructor.

Section Liveness.
Variable w : World.

(** [unmap] never marks the client destroyed, never touches the
    configuration, and puts nothing new into the registry. *)
Lemma unmap_live a b s :
  _destroyed s = false ->
  let s' := snd (unmap w a b s) in
  _destroyed s' = false /\ config s' = config s /\ next_ref s' = next_ref s /\
  (forall P, Forall P (_openPorts s) -> Forall P (_openPorts s')).
Proof.
  intros Hd. cbn zeta.
  destruct (_validateInput a b s) as [res s0] eqn:Hv.
  assert (s0 = s) as -> by (rewrite <- (_validateInput_state a b s), Hv; reflexivity).
  destruct res as [opts|e].
  2:{ rewrite (unmap_invalid w _ _ _ _ Hd Hv). cbn. auto. }
  assert (R : forall P, Forall P (_openPorts s) ->
                        Forall P (arrayRemove (_openPorts s)
                                    (findIndex (key_matches opts) (_openPorts s)))).
  { intros P HP. now apply arrayRemove_Forall. }
  destruct (truthy (protocol opts)) eqn:Hp.
  - destruct (unmap_single w _ _ _ _ Hd Hv Hp) as (s' & evs & -> & (Hc & Hd' & Ho & Hr & _) & _).
    cbn [snd]. unframe. repeat split; try congruence.
    intros P HP. rewrite Ho. auto.
  - destruct (unmap_both w _ _ _ _ Hd Hv Hp) as (evs1 & (Hc & Hd' & Ho & Hr & _) & _ & H).
    destruct (succeeded _).
    + destruct H as (evs2 & -> & (Hc2 & Hd2 & Ho2 & Hr2 & _) & _). cbn [snd].
      unframe. repeat split; try congruence.
      intros P HP. rewrite Ho2, Ho. auto.
    + rewrite H. cbn [snd]. unframe. repeat split; try congruence.
      intros P HP. rewrite Ho. auto.
Qed.

Lemma unmap_wf a b s : _destroyed s = false -> wf s -> wf (snd (unmap w a b s)).
Proof.
  intros Hd Hwf. destruct (unmap_live a b s Hd) as (_ & Hc & Hr & HF).
  apply (wf_transport s); [assumption..|].
  rewrite Hr. apply HF. apply Hwf.
Qed.

(** The loop of [destroy] runs to its end whatever the unmaps do. *)
Lemma destroy_loop (l : list (objref * Opts)) s :
  _destroyed s = false ->
  exists s',
    for_of l (fun openPort =>
                try_catch (unmap w (Obj (snd openPort)) (Prim JUndefined) ;;; ret tt)
                          (fun _ => ret tt)) s = (Ok tt, s') /\
    _destroyed s' = false /\ config s' = config s /\ next_ref s' = next_ref s /\
    (forall P, Forall P (_openPorts s) -> Forall P (_openPorts s')).
Proof.
  revert s. induction l as [|x l IH]; intros s Hd.
  - exists s. auto.
  - cbn [for_of].
    destruct (unmap_live (Obj (snd x)) (Prim JUndefined) s Hd) as (Hd1 & Hc1 & Hr1 & HF1).
    destruct (unmap w (Obj (snd x)) (Prim JUndefined) s) as [r s1] eqn:E.
    cbn [snd] in *.
    destruct (IH s1 Hd1) as (s' & El & Hd' & Hc' & Hr' & HF').
    exists s'. split; [|repeat split; try congruence; auto].
    unfold bind at 1, try_catch, bind at 1, ret. rewrite E.
    destruct r; exact El.
Qed.

(** [destroy] on a live client leaves it destroyed, whether it returns or
    throws; it returns [true] when the closes resolve. *)
Lemma destroy_live s :
  _destroyed s = false ->
  exists r s',
    destroy w s = (r, s') /\ _destroyed s' = true /\ config s' = config s /\
    next_ref s' = next_ref s /\
    (forall P, Forall P (_openPorts s) -> Forall P (_openPorts s')) /\
    (closes_resolve w -> r = Ok true).
Proof.
  intros Hd. unfold destroy. unfold bind at 1, get. rewrite Hd.
  destruct (destroy_loop (_openPorts s) s Hd) as (s1 & El & Hd1 & Hc1 & Hr1 & HF1).
  rewrite (bind_ok _ _ _ _ _ El).
  unfold config in *. injection Hc1 as E1 E2 E3 E4 E5 E6 E7 E8.
  run_monad. rewrite E7, E8.
  destruct (present (_pmpClient s)), (present (_upnpClient s)); cbn;
    repeat match goal with
           | |- context [w ?t ?c] =>
               let H := fresh "Hw" in destruct (w t c) eqn:H; cbn
           end;
    eexists _, _; (split; [reflexivity|]); cbn;
    (split; [reflexivity|]); (split; [congruence|]);
    (split; [congruence|]); (split; [exact HF1|]);
    intros Hcl;
    repeat match goal with
           | H : w ?t PmpClose = _ |- _ =>
               let Hr := fresh "Hr" in
               pose proof (proj1 (Hcl t)) as Hr; rewrite H in Hr; clear H
           | H : w ?t UpnpDestroy = _ |- _ =>
               let Hr := fresh "Hr" in
               pose proof (proj2 (Hcl t)) as Hr; rewrite H in Hr; clear H
           end;
    first [reflexivity | discriminate].
Qed.

(** [externalIp] on a live client only makes client calls. *)
Lemma externalIp_io_only s :
  _destroyed s = false ->
  exists evs, io_only s (snd (externalIp w s)) evs.
Proof.
  intros Hd. unfold externalIp, _pmpIp, _upnpIp. run_monad. rewrite Hd. cbn.
  destruct (_pmpClient s) as [gw|] eqn:Hpmp, (_upnpClient s) as [fb|] eqn:Hupnp; cbn;
    repeat (match goal with
            | |- context [_destroyed s] => rewrite Hd
            | |- context [_pmpClient s] => rewrite Hpmp
            | |- context [_upnpClient s] => rewrite Hupnp
            | |- context [w ?t ?c] => destruct (w t c) as [?v| |]
            | |- context [truthy ?v] => is_var v; destruct (truthy v)
            end; cbn);
    eexists; solve_io_evar.
Qed.
End Liveness.

(* ================================================================== *)
(** ** C7: the destroyed check comes first *)
(* ================================================================== *)

(** C7. After [destroy()] on a live client, every later call of [map],
    [unmap] or [externalIp], with any arguments and whatever the gateway
    would answer, throws the lifecycle error 'client is destroyed' and
    leaves the object and the trace of client calls as they were: no
    validation result, no timeout and no protocol fault can come out, and
    no network activity takes place. [destroy] completes with [true] when
    the closes it awaits resolve; the client is marked destroyed before
    them, so the same holds after a [destroy] that threw on a rejected
    close. *)
Theorem destroyed_client_fails_fast (w w' : World) (s : NatAPI) (a b : jsarg) :
  _destroyed s = false ->
  let s' := snd (destroy w s) in
  (closes_resolve w -> fst (destroy w s) = Ok true) /\
  map w' a b s' = (Throw lifecycle_error, s') /\
  unmap w' a b s' = (Throw lifecycle_error, s') /\
  externalIp w' s' = (Throw lifecycle_error, s').
Proof.
  intros Hd s'. subst s'.
  destruct (destroy_live w s Hd) as (r & s' & -> & Hdead & _ & _ & _ & Hr).
  cbn [fst snd].
  split; [exact Hr|].
  split; [now apply map_dead|].
  split; [now apply unmap_dead | now apply externalIp_dead].
Qed.

Lemma destroyed_client_fails_fast_witness :
  let s' := snd (destroy udp_rejected both_clients) in
  fst (destroy udp_rejected both_clients) = Ok true /\
  map all_resolve (request 70000 1 "bogus") no_arg s' = (Throw lifecycle_error, s') /\
  unmap all_resolve (request 70000 1 "bogus") no_arg s' = (Throw lifecycle_error, s') /\
  externalIp all_resolve s' = (Throw lifecycle_error, s').
Proof.
  destruct (destroyed_client_fails_fast udp_rejected all_resolve both_clients
              (request 70000 1 "bogus") no_arg eq_refl) as (H1 & H2).
  split; [|exact H2].
  apply H1. intros tr. split; reflexivity.
Defined.

(* ================================================================== *)
(** ** C8: [externalIp] asks NAT-PMP, then UPnP, and never throws *)
(* ================================================================== *)

(** C8. On a live client [externalIp] returns a value and never throws.
    When there is a NAT-PMP client it is asked first; its address, when it
    gives one, is the result and UPnP is not asked. When there is no
    NAT-PMP client, or its attempt was rejected, timed out or gave no
    address, the UPnP client (when there is one) is asked next and its
    address is the result; when that fails too, or there is no UPnP client,
    the result is the empty string. *)
Theorem externalIp_falls_back (w : World) (s : NatAPI) :
  _destroyed s = false ->
  exists ip s' evs,
    externalIp w s = (Ok ip, s') /\ io_only s s' evs /\
    (present (_pmpClient s) = true ->
     head (calls evs) = Some PmpExternalIp) /\
    (present (_pmpClient s) = true ->
     truthy (ip_of (w (trace s) PmpExternalIp)) = true ->
     ip = ip_of (w (trace s) PmpExternalIp) /\ UpnpExternalIp ∉ calls evs) /\
    (present (_pmpClient s) = false \/
     truthy (ip_of (w (trace s) PmpExternalIp)) = false ->
     if present (_upnpClient s) then
       exists ev, last evs = Some ev /\ ev_call ev = UpnpExternalIp /\
                  ip = ip_of (ev_outcome ev)
     else ip = JStr "").
Proof.
  intros Hd. unfold externalIp, _pmpIp, _upnpIp. run_monad. rewrite Hd. cbn.
  destruct (_pmpClient s) as [gw|] eqn:Hpmp, (_upnpClient s) as [fb|] eqn:Hupnp; cbn;
    repeat (match goal with
            | |- context [_destroyed s] => rewrite Hd
            | |- context [_pmpClient s] => rewrite Hpmp
            | |- context [_upnpClient s] => rewrite Hupnp
            | |- context [w ?t ?c] =>
                let H := fresh "Hw" in
                let v := fresh "v" in
                destruct (w t c) as [v| |] eqn:H
            | |- context [truthy ?v] =>
                is_var v; let H := fresh "Hv" in destruct (truthy v) eqn:H
            end; cbn);
    eexists _, _, _;
    (split; [reflexivity|]);
    (split; [solve_io_evar|]);
    cbn; rewrite ?Hv, ?Hv0; cbn;
    (split; [intros; first [reflexivity | discriminate]|]);
    (split; [intros; first [discriminate
                         | split; [reflexivity
                                  | apply not_elem_of_cons;
                                    split; [discriminate | apply not_elem_of_nil]]]|]);
    intros; first [eexists; repeat split; cbn; rewrite ?Hv, ?Hv0, ?Hv1; reflexivity
                  | reflexivity
                  | match goal with Hor : _ \/ _ |- _ => destruct Hor; discriminate end].
Qed.

Lemma externalIp_falls_back_witness :
  exists ip s' evs,
    externalIp pmp_silent both_clients = (Ok ip, s') /\
    io_only both_clients s' evs /\
    (present (_pmpClient both_clients) = true ->
     head (calls evs) = Some PmpExternalIp) /\
    (present (_pmpClient both_clients) = true ->
     truthy (ip_of (pmp_silent (trace both_clients) PmpExternalIp)) = true ->
     ip = ip_of (pmp_silent (trace both_clients) PmpExternalIp) /\
     UpnpExternalIp ∉ calls evs) /\
    (present (_pmpClient both_clients) = false \/
     truthy (ip_of (pmp_silent (trace both_clients) PmpExternalIp)) = false ->
     if present (_upnpClient both_clients) then
       exists ev, last evs = Some ev /\ ev_call ev = UpnpExternalIp /\
                  ip = ip_of (ev_outcome ev)
     else ip = JStr "").
Proof.
  apply (externalIp_falls_back pmp_silent both_clients). reflexivity.
Defined.

(** The NAT-PMP query times out, the client is closed, UPnP answers. *)
Example externalIp_after_timeout :
  fst (externalIp pmp_silent both_clients) = Ok (JStr "203.0.113.7") /\
  calls (trace (snd (externalIp pmp_silent both_clients)))
    = [PmpExternalIp; PmpClose; UpnpExternalIp].
Proof. split; reflexivity. Qed.

(** Nothing answers: the empty string, not an exception. *)
Example externalIp_nothing_answers :
  fst (externalIp all_reject both_clients) = Ok (JStr "").
Proof. reflexivity. Qed.

(* ================================================================== *)
(** ** C5: what validation rejects *)
(* ================================================================== *)

Lemma _validateInput_rejects a b s :
  caller_shape a = false \/ protocol_rejected (requested_protocol a) = true ->
  exists e, validation_error e /\ _validateInput a b s = (Throw e, s).
Proof.
  unfold validation_error. intros [H|H].
  - destruct a as [[| | | | |]|]; try discriminate; cbn; eauto 6.
  - destruct a as [v|o]; [destruct v; discriminate|]. cbn in *.
    exists (Error "protocol is invalid"). split; [auto|].
    now apply fill_defaults_throw.
Qed.

Lemma _validateInput_accepts a b s :
  caller_shape a = true -> protocol_rejected (requested_protocol a) = false ->
  exists opts,
    _validateInput a b s = (Ok opts, s) /\
    (publicPort opts, privatePort opts) = requested_ports a b /\
    protocol opts = js_or (requested_protocol a) JNull.
Proof.
  intros Hs Hp. destruct a as [[| | | | |]|o]; try discriminate;
    cbn [_validateInput requested_protocol requested_ports is_number] in *.
  - destruct b as [[| | | | |]|]; cbn [is_number];
      rewrite fill_defaults_ok by reflexivity; eexists; repeat split.
  - destruct b as [[| | | | |]|]; cbn [is_number];
      rewrite fill_defaults_ok by reflexivity; eexists; repeat split.
  - rewrite fill_defaults_ok by assumption. eexists; repeat split.
Qed.

(** C5, as the code has it. [map] and [unmap] validate the request before
    any network I/O: a request whose first argument is neither an options
    object nor a number, or whose protocol is truthy and is not a string
    that upper-cases to 'UDP' or 'TCP', fails at once with the validation
    error ('port was not specified', 'protocol is invalid'; a TypeError for
    [null]), the object and the trace of client calls unchanged. Every
    other request passes validation with its ports exactly as given: no
    range is checked. *)
Theorem invalid_request_fails_before_io (w : World) (s : NatAPI) (a b : jsarg) :
  _destroyed s = false ->
  (caller_shape a = false \/ protocol_rejected (requested_protocol a) = true ->
   exists e, validation_error e /\
             map w a b s = (Throw e, s) /\ unmap w a b s = (Throw e, s)) /\
  (caller_shape a = true -> protocol_rejected (requested_protocol a) = false ->
   exists opts, _validateInput a b s = (Ok opts, s) /\
                (publicPort opts, privatePort opts) = requested_ports a b).
Proof.
  intros Hd. split.
  - intros H. destruct (_validateInput_rejects a b s H) as (e & He & Hv).
    exists e. split; [assumption|].
    split; [now apply map_invalid | now apply unmap_invalid].
  - intros Hs Hp.
    destruct (_validateInput_accepts a b s Hs Hp) as (opts & Hv & Hports & _).
    eauto.
Qed.

Lemma invalid_request_fails_before_io_witness :
  (exists e, validation_error e /\
             map all_resolve (request 80 80 "sctp") no_arg both_clients
               = (Throw e, both_clients) /\
             unmap all_resolve (request 80 80 "sctp") no_arg both_clients
               = (Throw e, both_clients)) /\
  (exists opts, _validateInput (port 70000) (port (-1)) both_clients
                  = (Ok opts, both_clients) /\
                (publicPort opts, privatePort opts) = (JNum 70000, JNum (-1))).
Proof.
  split.
  - apply (invalid_request_fails_before_io all_resolve both_clients
             (request 80 80 "sctp") no_arg); [reflexivity | right; reflexivity].
  - apply (invalid_request_fails_before_io all_resolve both_clients
             (port 70000) (port (-1))); reflexivity.
Defined.

(** C5 as stated fails: ports outside the 16-bit range pass validation and
    reach the gateway. *)
Lemma port_out_of_range_reaches_gateway :
  fst (map all_resolve (port 70000) (port (-1)) upnp_only) = Ok true /\
  calls (trace (snd (map all_resolve (port 70000) (port (-1)) upnp_only)))
    = [ UpnpPortMapping (JNum 70000) (JNum (-1)) (JStr "NatAPI") (JStr "UDP") (JNum 7200);
        UpnpPortMapping (JNum 70000) (JNum (-1)) (JStr "NatAPI") (JStr "TCP") (JNum 7200) ].
Proof. split; reflexivity. Qed.

(** The protocol name is compared after upper-casing. *)
Example protocol_names :
  protocol_rejected (JStr "tcp") = false /\
  protocol_rejected (JStr "Udp") = false /\
  protocol_rejected (JStr "sctp") = true /\
  protocol_rejected (JNum 6) = true /\
  protocol_rejected (JStr "") = false.
Proof. repeat split; reflexivity. Qed.

(* ================================================================== *)
(** ** C2 and C4: [unmap], the registry and the two protocol attempts *)
(* ================================================================== *)

Section UnmapFacts.
Variable w : World.

(** What [unmap] does to the registry, for every gateway: the first entry
    that matches the request leaves it, before the first client call, and
    no client call brings it back. *)
Lemma unmap_removes_before_calls a b s opts :
  _destroyed s = false -> _validateInput a b s = (Ok opts, s) ->
  exists evs,
    _openPorts (snd (unmap w a b s))
      = arrayRemove (_openPorts s) (findIndex (key_matches opts) (_openPorts s)) /\
    trace (snd (unmap w a b s)) = trace s ++ evs /\
    Forall (fun ev => ev_registry ev = _openPorts (snd (unmap w a b s))) evs.
Proof.
  intros Hd Hv. destruct (truthy (protocol opts)) eqn:Hp.
  - destruct (unmap_single w _ _ _ _ Hd Hv Hp) as (s' & evs & -> & (_ & _ & Ho & _ & Ht & Hf) & _).
    exists evs. cbn [snd]. rewrite Ho. auto.
  - destruct (unmap_both w _ _ _ _ Hd Hv Hp) as (evs1 & (_ & _ & Ho & _ & Ht & Hf) & _ & H).
    destruct (succeeded _).
    + destruct H as (evs2 & -> & (_ & _ & Ho2 & _ & Ht2 & Hf2) & _). cbn [snd].
      exists (evs1 ++ evs2). rewrite Ho2, Ho, Ht2, Ht.
      split; [reflexivity|]. split; [now rewrite app_assoc|].
      apply Forall_app. split; [assumption|]. now rewrite <- Ho.
    + rewrite H. cbn [snd]. exists evs1. rewrite Ho. auto.
Qed.
End UnmapFacts.

(** C2, the defect. [map(1000)] records a UDP and a TCP entry; both match
    the key of [unmap(1000)], whose protocol is unspecified. The [unmap]
    asks the gateway to drop both mappings and reports success, yet only
    the first matching entry leaves the registry: the TCP entry stays. *)
Theorem unmap_wildcard_leaves_tcp_entry :
  let s1 := snd (map all_resolve (port 1000) no_arg upnp_only) in
  let r := unmap all_resolve (port 1000) no_arg s1 in
  List.map snd (_openPorts s1) = [entry 1000 1000 "UDP"; entry 1000 1000 "TCP"] /\
  List.filter (key_matches (port_object (JNum 1000) (JNum 1000))) (_openPorts s1)
    = _openPorts s1 /\
  fst r = Ok true /\
  List.filter is_unmap_call (calls (trace (snd r)))
    = [ UpnpPortUnmapping (JNum 1000) (JNum 1000) (JStr "UDP");
        UpnpPortUnmapping (JNum 1000) (JNum 1000) (JStr "TCP") ] /\
  List.map snd (_openPorts (snd r)) = [entry 1000 1000 "TCP"].
Proof. repeat split; reflexivity. Qed.

Lemma about_udp_not_tcp opts ev : about (optsUDP opts) ev -> ~ tcp_call ev.
Proof.
  unfold about, tcp_call. cbn. intros [H|H] T.
  - rewrite H in T. discriminate.
  - rewrite H in T. discriminate.
Qed.

(** C4, as the code has it. A protocol-unspecified [unmap] makes the UDP
    attempt first. When that attempt fails the call returns [false] at
    once: the state is the one the UDP attempt left and no TCP call was
    made. When it succeeds the TCP attempt follows and the call returns
    what the TCP attempt reports. So the call reports success exactly when
    both attempts succeeded. *)
Theorem unmap_wildcard_stops_at_first_failure (w : World) (a b : jsarg)
    (s : NatAPI) (opts : Opts) :
  _destroyed s = false ->
  _validateInput a b s = (Ok opts, s) ->
  truthy (protocol opts) = false ->
  let first := _unmap w (optsUDP opts) (removed s opts) in
  let second := _unmap w (optsTCP opts) (snd first) in
  (succeeded first = false ->
   unmap w a b s = (Ok false, snd first) /\
   exists evs, trace (snd first) = trace s ++ evs /\
               Forall (fun ev => ~ tcp_call ev) evs) /\
  (succeeded first = true ->
   unmap w a b s = (Ok (succeeded second), snd second)) /\
  (fst (unmap w a b s) = Ok true <->
   succeeded first = true /\ succeeded second = true).
Proof.
  intros Hd Hv Hp first second.
  destruct (unmap_both w _ _ _ _ Hd Hv Hp) as (evs1 & (_ & _ & _ & _ & Ht & _) & Hab & H).
  fold first in Ht, H. fold second in H.
  destruct (succeeded first) eqn:S1.
  - destruct H as (evs2 & E & _).
    split; [discriminate|]. split; [intros _; exact E|].
    rewrite E. cbn [fst]. split.
    + intros [= ->]. auto.
    + intros [_ ->]. reflexivity.
  - split; [intros _|split; [discriminate|]].
    + split; [exact H|]. exists evs1. split; [exact Ht|].
      eapply Forall_impl; [exact Hab|]. apply about_udp_not_tcp.
    + rewrite H. cbn [fst]. split; [discriminate | intros [? _]; discriminate].
Qed.

Lemma unmap_wildcard_stops_at_first_failure_witness :
  let first := _unmap udp_rejected (optsUDP wildcard_1000)
                 (removed upnp_only wildcard_1000) in
  unmap udp_rejected (port 1000) no_arg upnp_only = (Ok false, snd first) /\
  exists evs, trace (snd first) = trace upnp_only ++ evs /\
              Forall (fun ev => ~ tcp_call ev) evs.
Proof.
  refine (proj1 (unmap_wildcard_stops_at_first_failure udp_rejected
                   (port 1000) no_arg upnp_only wildcard_1000 _ _ _) _);
    reflexivity.
Defined.

(** C4 as stated fails: when the UDP unmap is refused, no TCP unmap is
    attempted. *)
Lemma udp_failure_skips_tcp_unmap :
  fst (unmap udp_rejected (port 1000) no_arg upnp_only) = Ok false /\
  calls (trace (snd (unmap udp_rejected (port 1000) no_arg upnp_only)))
    = [UpnpPortUnmapping (JNum 1000) (JNum 1000) (JStr "UDP")].
Proof. split; reflexivity. Qed.

(* ================================================================== *)
(** ** C3: what [map] leaves in the registry *)
(* ================================================================== *)

Section MapFacts.
Variable w : World.

(** [map] keeps the invariant. *)
Lemma map_wf a b s : _destroyed s = false -> wf s -> wf (snd (map w a b s)).
Proof.
  intros Hd Hwf.
  destruct (_validateInput a b s) as [res s0] eqn:Hv.
  assert (s0 = s) as -> by (rewrite <- (_validateInput_state a b s), Hv; reflexivity).
  destruct res as [opts|e]; [|now rewrite (map_invalid w _ _ _ _ Hd Hv)].
  assert (Hf := proj1 Hwf).
  assert (Hmono : forall n, (next_ref s <= n)%nat ->
                    Forall (fun e => (fst e < n)%nat) (_openPorts s)).
  { intros n Hn. eapply Forall_impl; [exact Hf|]. cbn. intros; lia. }
  destruct (truthy (protocol opts)) eqn:Hp.
  - destruct (map_single w _ _ _ _ Hd Hwf Hv Hp)
      as (s' & Hc & _ & Hr & [(_ & -> & Ho) | (_ & -> & Ho)]); cbn [snd];
      apply (wf_transport s); auto; rewrite Hr, Ho.
    + apply Forall_app. split; [apply Hmono; lia|]. repeat constructor.
    + apply Hmono; lia.
  - destruct (map_both w _ _ _ _ Hd Hwf Hv Hp)
      as (s' & Hc & _ & [(_ & _ & -> & Ho & Hr) | [(_ & -> & Ho & Hr) | (_ & _ & -> & Ho & Hr)]]);
      cbn [snd]; apply (wf_transport s); auto; rewrite Hr, Ho.
    + apply Forall_app. split; [apply Hmono; lia|]. repeat constructor; cbn; lia.
    + apply Hmono; lia.
    + apply arrayRemove_Forall.
      apply Forall_app. split; [apply Hmono; lia|]. repeat constructor; cbn; lia.
Qed.
End MapFacts.

(** C3. On a live client, for every request that passes validation
    (whatever its ports): when the protocol is unspecified and both the UDP
    and the TCP attempt succeed, [map] returns [true] and the registry is
    the one before followed by exactly two new entries, the request keyed
    UDP and the request keyed TCP (two entries in all when it was empty);
    when the protocol is given and the attempt succeeds, the entry is in
    the registry when [map] returns; when the protocol is given and the
    attempt fails, [map] returns [false] and the registry is what it was
    before the call. *)
Theorem map_registry_effect (w : World) (a b : jsarg) (s : NatAPI) (opts : Opts) :
  _destroyed s = false -> wf s ->
  _validateInput a b s = (Ok opts, s) ->
  let first := _map w (optsUDP opts) (pushed s (optsUDP opts)) in
  let second := _map w (optsTCP opts) (pushed (snd first) (optsTCP opts)) in
  let single := _map w opts (pushed s opts) in
  (truthy (protocol opts) = false ->
   succeeded first = true -> succeeded second = true ->
   fst (map w a b s) = Ok true /\
   _openPorts (snd (map w a b s))
     = _openPorts s ++ [(next_ref s, optsUDP opts); (S (next_ref s), optsTCP opts)] /\
   (_openPorts s = [] -> length (_openPorts (snd (map w a b s))) = 2%nat)) /\
  (truthy (protocol opts) = true -> succeeded single = true ->
   fst (map w a b s) = Ok true /\
   _openPorts (snd (map w a b s)) = _openPorts s ++ [(next_ref s, opts)]) /\
  (truthy (protocol opts) = true -> succeeded single = false ->
   fst (map w a b s) = Ok false /\
   _openPorts (snd (map w a b s)) = _openPorts s).
Proof.
  intros Hd Hwf Hv first second single. split; [|split].
  - intros Hp S1 S2.
    destruct (map_both w _ _ _ _ Hd Hwf Hv Hp)
      as (s' & _ & _ & [(_ & _ & E & Ho & _) | [(F & _) | (_ & F & _)]]).
    + rewrite E. cbn [fst snd]. rewrite Ho.
      repeat split. intros ->. reflexivity.
    + fold first in F. congruence.
    + fold first second in F. congruence.
  - intros Hp S1.
    destruct (map_single w _ _ _ _ Hd Hwf Hv Hp)
      as (s' & _ & _ & _ & [(_ & E & Ho) | (F & _)]).
    + rewrite E. auto.
    + fold single in F. congruence.
  - intros Hp S1.
    destruct (map_single w _ _ _ _ Hd Hwf Hv Hp)
      as (s' & _ & _ & _ & [(F & _) | (_ & E & Ho)]).
    + fold single in F. congruence.
    + rewrite E. auto.
Qed.

Lemma map_registry_effect_witness :
  (fst (map all_resolve (port 1000) no_arg upnp_only) = Ok true /\
   _openPorts (snd (map all_resolve (port 1000) no_arg upnp_only))
     = [(0%nat, entry 1000 1000 "UDP"); (1%nat, entry 1000 1000 "TCP")] /\
   (_openPorts upnp_only = [] ->
    length (_openPorts (snd (map all_resolve (port 1000) no_arg upnp_only))) = 2%nat)) /\
  (fst (map all_reject (request 80 80 "TCP") no_arg both_clients) = Ok false /\
   _openPorts (snd (map all_reject (request 80 80 "TCP") no_arg both_clients))
     = _openPorts both_clients).
Proof.
  split.
  - refine (proj1 (map_registry_effect all_resolve (port 1000) no_arg upnp_only
                     wildcard_1000 _ (new_NatAPI_wf _ _) _) _ _ _);
      reflexivity.
  - refine (proj2 (proj2 (map_registry_effect all_reject (request 80 80 "TCP") no_arg
                            both_clients tcp_80 _ (new_NatAPI_wf _ _) _)) _ _);
      reflexivity.
Defined.

(** With the registry holding other mappings, a failed [map] gives back
    exactly the registry it found. *)
Example failed_map_restores_registry :
  let s1 := snd (map all_resolve (port 1000) no_arg upnp_only) in
  _openPorts (snd (map all_reject (request 80 80 "udp") no_arg s1)) = _openPorts s1.
Proof. reflexivity. Qed.

(* ================================================================== *)
(** ** C9: the renewal timers *)
(* ================================================================== *)

Section Renewal.
Variable w : World.

Lemma _upnpMap_schedules opts s s' :
  _destroyed s = false -> autoUpdate s = true ->
  _upnpMap w opts s = (Ok true, s') ->
  intervals s' = <[next_handle s := mkTimer (JobUpnpMap opts) (_timeout s)]> (intervals s) /\
  _upnpIntervals s' = <[interval_key opts := next_handle s]> (_upnpIntervals s).
Proof.
  intros Hd Ha. unfold _upnpMap. run_monad. rewrite Hd. cbn.
  destruct (w (trace s) _); cbn; [|discriminate..].
  rewrite Ha. cbn. intros [= <-]. cbn. auto.
Qed.

Lemma _pmpMap_schedules opts s s' :
  _destroyed s = false -> autoUpdate s = true ->
  _pmpMap w opts s = (Ok true, s') ->
  intervals s' = <[next_handle s := mkTimer (JobPmpBind opts) (_timeout s)]> (intervals s) /\
  _pmpIntervals s' = <[interval_key opts := next_handle s]> (_pmpIntervals s).
Proof.
  intros Hd Ha. unfold _pmpMap. run_monad. rewrite Hd. cbn.
  destruct (w (trace s) _); cbn; [|discriminate..].
  rewrite Ha. cbn. intros [= <-]. cbn. auto.
Qed.

(** A UPnP renewal is one [portMapping] call with the request of the
    mapping; whatever the gateway answers, the callback returns and the
    registry is as before. *)
Lemma fire_upnp_renewal opts s :
  _destroyed s = false ->
  exists s',
    fire w (JobUpnpMap opts) s = (Ok tt, s') /\
    io_only s s'
      [mkEvent (UpnpPortMapping (publicPort opts) (privatePort opts)
                  (description opts) (protocol opts) (ttl opts))
               (w (trace s) (UpnpPortMapping (publicPort opts) (privatePort opts)
                               (description opts) (protocol opts) (ttl opts)))
               (_openPorts s)].
Proof.
  intros Hd. unfold fire, _upnpMap. run_monad. rewrite Hd. cbn.
  destruct (w (trace s) _); cbn; [destruct (autoUpdate s); cbn|..];
    eexists; (split; [reflexivity|]); solve_io.
Qed.
End Renewal.

(** The invariant holds in every state a client can reach. *)
Lemma reachable_wf s : reachable s -> wf s.
Proof.
  induction 1 as [cfg v4 | w a b s _ IH | w a b s _ IH | w s _ IH | w s _ IH
                 | w h t s _ IH Hh].
  - apply new_NatAPI_wf.
  - destruct (_destroyed s) eqn:Hd; [now rewrite map_dead | now apply map_wf].
  - destruct (_destroyed s) eqn:Hd; [now rewrite unmap_dead | now apply unmap_wf].
  - destruct (_destroyed s) eqn:Hd; [now rewrite externalIp_dead|].
    destruct (externalIp_io_only w s Hd) as (evs & Hio). eapply io_only_wf; eauto.
  - destruct (_destroyed s) eqn:Hd.
    + unfold destroy, bind, get, throw. now rewrite Hd.
    + destruct (destroy_live w s Hd) as (r & s' & -> & _ & Hc & Hr & HF & _). cbn [snd].
      apply (wf_transport s); [assumption..|]. rewrite Hr. apply HF, IH.
  - destruct (t_job t) as [opts|opts]; [|exact IH].
    destruct (_destroyed s) eqn:Hd.
    + unfold fire, _upnpMap. run_monad. now rewrite Hd.
    + destruct (fire_upnp_renewal w opts s Hd) as (s' & -> & Hio).
      eapply io_only_wf; eauto.
Qed.

(** The renewal timers of a client. With auto-renewal enabled, a mapping
    that succeeds over UPnP or over NAT-PMP starts a recurring timer,
    stored under the key of the request, whose delay is (T - 600) seconds,
    where T is the ttl the client was constructed with (at least 1200,
    7200 by default) and not the ttl of the request; it fires at that
    period as long as T is at most 2148083 seconds, and every millisecond
    above that. Each firing of the UPnP timer re-issues the same request
    over UPnP alone; whatever the gateway answers, the firing returns
    without throwing and leaves the registry as it was. *)
Lemma renewal_uses_client_ttl (w : World) (opts : Opts) (s : NatAPI) :
  _destroyed s = false -> wf s -> autoUpdate s = true ->
  let delay := (this_ttl s - 600) * 1000 in
  (forall s', _upnpMap w opts s = (Ok true, s') ->
     intervals s' !! next_handle s = Some (mkTimer (JobUpnpMap opts) delay) /\
     _upnpIntervals s' !! interval_key opts = Some (next_handle s)) /\
  (forall s', _pmpMap w opts s = (Ok true, s') ->
     (exists job, intervals s' !! next_handle s = Some (mkTimer job delay)) /\
     _pmpIntervals s' !! interval_key opts = Some (next_handle s)) /\
  (forall w' s1, _destroyed s1 = false ->
     exists s2 answer,
       fire w' (JobUpnpMap opts) s1 = (Ok tt, s2) /\
       io_only s1 s2
         [mkEvent (UpnpPortMapping (publicPort opts) (privatePort opts)
                     (description opts) (protocol opts) (ttl opts))
                  answer (_openPorts s1)]) /\
  600 * 1000 <= delay /\
  (forall job, timer_period (mkTimer job delay)
               = if this_ttl s <=? 2148083 then delay else 1).
Proof.
  intros Hd (_ & Ht & Hl) Ha delay. subst delay. rewrite <- Ht.
  split; [|split; [|split; [|split]]].
  - intros s' E. destruct (_upnpMap_schedules w opts s s' Hd Ha E) as [-> ->].
    now rewrite !lookup_insert_eq.
  - intros s' E. destruct (_pmpMap_schedules w opts s s' Hd Ha E) as [-> ->].
    rewrite !lookup_insert_eq. eauto.
  - intros w' s1 Hd1. destruct (fire_upnp_renewal w' opts s1 Hd1) as (s2 & E & Hio).
    eauto.
  - lia.
  - intros job. unfold timer_period, node_delay. cbn [t_delay]. rewrite Ht.
    destruct (Z.ltb_spec ((this_ttl s - 600) * 1000) 1),
             (Z.ltb_spec 2147483647 ((this_ttl s - 600) * 1000)),
             (Z.leb_spec (this_ttl s) 2148083); cbn; lia.
Qed.

(** C9, the defect. The comment in the constructor says 'Refresh the
    mapping 10 minutes before the end of its lifetime', and the renewal
    delay is computed there from the ttl of the client; the lease of a
    mapping is the ttl of its request. At the request of the README,
    [{ publicPort: 4000, privatePort: 5000, ttl: 1800, protocol: 'UDP' }]
    on a client with the default ttl, the gateway is asked for a lease of
    1800 seconds and the renewal timer fires every 6600 seconds: the first
    renewal comes 4800 seconds after the lease has run out, not at
    (1800 - 600) seconds. *)
Theorem renewal_period_ignores_request_ttl :
  let r := map all_resolve short_lease no_arg upnp_only in
  fst r = Ok true /\
  calls (trace (snd r))
    = [UpnpPortMapping (JNum 4000) (JNum 5000) (JStr "NatAPI") (JStr "UDP") (JNum 1800)] /\
  List.map (fun e => ttl (snd e)) (_openPorts (snd r)) = [JNum 1800] /\
  timer_period <$> (intervals (snd r) !! 0%nat) = Some 6600000 /\
  6600000 <> (1800 - 600) * 1000 /\
  1800 * 1000 < 6600000.
Proof. repeat split; try reflexivity; lia. Qed.

(** The NAT-PMP timer: its callback awaits a bound function and calls
    nothing, so no request is re-issued. *)
Example pmp_renewal_calls_nothing :
  let s1 := snd (map all_resolve (request 80 80 "TCP") no_arg both_clients) in
  t_job <$> (intervals s1 !! 0%nat) = Some (JobPmpBind tcp_80) /\
  fire all_resolve (JobPmpBind tcp_80) s1 = (Ok tt, s1).
Proof. split; reflexivity. Qed.

(* ================================================================== *)
(** ** C10: the case of the protocol string *)
(* ================================================================== *)

Lemma append_cancel_l (x a b : string) : x +:+ a = x +:+ b -> a = b.
Proof.
  induction x as [|c x IH]; cbn; [auto|]. intros [= H]. auto.
Qed.

(** The interval key keeps the protocol as the caller spelled it. *)
Lemma interval_key_case_sensitive (pub priv descr t gw : jsval) :
  interval_key (mkOpts pub priv (JStr "tcp") descr t gw)
    <> interval_key (mkOpts pub priv (JStr "TCP") descr t gw).
Proof.
  unfold interval_key. cbn. intros H.
  repeat apply append_cancel_l in H. discriminate.
Qed.

(** The registry predicate compares the protocol with [===]. *)
Lemma key_matches_case_sensitive (opts : Opts) (e : objref * Opts) :
  protocol (snd e) = JStr "tcp" -> protocol opts = JStr "TCP" ->
  key_matches opts e = false.
Proof.
  intros He Ho. unfold key_matches. rewrite He, Ho. cbn.
  now rewrite andb_false_r.
Qed.

(** C10. Validation accepts 'tcp' and leaves the spelling alone; the
    registry entry and the key of the renewal timer carry 'tcp'; the
    registry predicate and the key lookup are case-sensitive. So after
    [map] with 'tcp' has succeeded, an [unmap] of the same ports with 'TCP'
    succeeds at the gateway but finds neither the entry nor the timer:
    both are still there afterwards, whereas an [unmap] with 'tcp' removes
    both. *)
Theorem protocol_case_breaks_round_trip :
  let mapped := map all_resolve (request 6690 6690 "tcp") no_arg upnp_only in
  let upper := unmap all_resolve (request 6690 6690 "TCP") no_arg (snd mapped) in
  let lower := unmap all_resolve (request 6690 6690 "tcp") no_arg (snd mapped) in
  (* accepted, spelling preserved *)
  fst (_validateInput (request 6690 6690 "tcp") no_arg upnp_only) = Ok lower_6690 /\
  fst mapped = Ok true /\
  _openPorts (snd mapped) = [(0%nat, lower_6690)] /\
  _upnpIntervals (snd mapped) !! interval_key lower_6690 = Some 0%nat /\
  interval_key lower_6690 = "6690:6690-tcp"%string /\
  (* matching is case-sensitive *)
  (forall opts e, protocol (snd e) = JStr "tcp" -> protocol opts = JStr "TCP" ->
                  key_matches opts e = false) /\
  (forall pub priv descr t gw,
     interval_key (mkOpts pub priv (JStr "tcp") descr t gw)
       <> interval_key (mkOpts pub priv (JStr "TCP") descr t gw)) /\
  (* unmap with 'TCP' restores nothing *)
  fst upper = Ok true /\
  _openPorts (snd upper) = [(0%nat, lower_6690)] /\
  _upnpIntervals (snd upper) !! interval_key lower_6690 = Some 0%nat /\
  intervals (snd upper) !! 0%nat = Some (mkTimer (JobUpnpMap lower_6690) 6600000) /\
  (* unmap with 'tcp' does *)
  fst lower = Ok true /\
  _openPorts (snd lower) = [] /\
  _upnpIntervals (snd lower) !! interval_key lower_6690 = None /\
  intervals (snd lower) !! 0%nat = None.
Proof.
  cbn zeta.
  repeat match goal with
         | |- _ /\ _ => split
         end;
    try reflexivity.
  - apply key_matches_case_sensitive.
  - apply interval_key_case_sensitive.
Qed.

(* ================================================================== *)
(** ** C6: which service [_getService] resolves *)
(* ================================================================== *)

(** Depth first: the services of each sub-device, in order, and then the
    services of the device itself. *)
Lemma traverseDevices_unfold d :
  traverseDevices d = flat_map traverseDevices (sub_devices d) ++ own_services d.
Proof.
  destruct d as [dl sl]. cbn [traverseDevices sub_devices own_services].
  f_equal. destruct dl as [[[d'|]|l]|]; cbn; rewrite ?app_nil_r; try reflexivity.
  induction l as [|[d'|] l IH]; cbn; [reflexivity| |]; now rewrite IH.
Qed.

Lemma head_filter_find {A} (p : A -> bool) (l : list A) :
  head (List.filter p l) = List.find p l.
Proof.
  induction l as [|x l IH]; cbn; [reflexivity|]. now destruct (p x).
Qed.

(** [find] answers the first element, in list order, that passes. *)
Lemma find_first {A} (p : A -> bool) (l : list A) (x : A) :
  List.find p l = Some x <->
  exists pre post, l = pre ++ x :: post /\ Forall (fun y => p y = false) pre /\ p x = true.
Proof.
  split.
  - induction l as [|y l IH]; cbn; [discriminate|].
    destruct (p y) eqn:Hy.
    + intros [= ->]. exists [], l. auto.
    + intros H. destruct (IH H) as (pre & post & -> & Hpre & Hx).
      exists (y :: pre), post. auto.
  - intros (pre & post & -> & Hpre & Hx).
    induction Hpre as [|y pre Hy _ IH]; cbn; [now rewrite Hx | now rewrite Hy].
Qed.

Lemma accepted_spec types sv :
  accepted types sv = true <-> exists t, t ∈ types /\ serviceType sv = JStr t.
Proof.
  unfold accepted, types_indexOf, findIndex.
  destruct (findIndex_from_spec (fun t => strict_eq (JStr t) (serviceType sv)) types 0)
    as [[E F] | (pre & t & post & -> & _ & Ht & E)]; rewrite E.
  - split; [discriminate|]. intros (t & Hin & Ht).
    rewrite Forall_forall in F. specialize (F t Hin).
    rewrite Ht, strict_eq_refl in F; discriminate.
  - split; [intros _|].
    + exists t. split; [set_solver|].
      apply strict_eq_true in Ht as [Ht _]. congruence.
    + intros _. destruct (Z.eqb_spec (0 + Z.of_nat (length pre)) (-1)); [lia | reflexivity].
Qed.

(** C6, as the code has it. The description tree is flattened depth first
    (for each device, the services of its sub-devices in document order,
    then its own services), and [_getService] takes the first service in
    that order whose type is one of the accepted types, whichever of the
    three it is. It fails with 'Service not found' exactly when there is no
    such service or when that first one lacks a controlURL or an SCPDURL;
    otherwise it resolves the two URLs of that service. *)
Theorem _getService_takes_first_match (resolve : string -> jsval -> string)
    (self : Device) (types : list string) (info : Description) :
  let all := _parseDescription info in
  let base := to_string (js_or (info_baseURL info) (JStr (url self))) in
  all = match info_device info with
        | None => []
        | Some d => flat_map traverseDevices (sub_devices d) ++ own_services d
        end /\
  _getService resolve self types info =
    match List.find (accepted types) all with
    | None => Throw (Error "Service not found")
    | Some s0 =>
        if truthy (controlURL s0) && truthy (SCPDURL s0)
        then Ok (mkServiceInfo (serviceType s0)
                   (resolve base (SCPDURL s0)) (resolve base (controlURL s0)))
        else Throw (Error "Service not found")
    end /\
  (_getService resolve self types info = Throw (Error "Service not found") <->
   match List.find (accepted types) all with
   | None => True
   | Some s0 => truthy (controlURL s0) = false \/ truthy (SCPDURL s0) = false
   end).
Proof.
  intros all base.
  assert (Hsel : _getService resolve self types info =
                 match List.find (accepted types) all with
                 | None => Throw (Error "Service not found")
                 | Some s0 =>
                     if truthy (controlURL s0) && truthy (SCPDURL s0)
                     then Ok (mkServiceInfo (serviceType s0)
                                (resolve base (SCPDURL s0)) (resolve base (controlURL s0)))
                     else Throw (Error "Service not found")
                 end).
  { unfold _getService. fold all. fold (accepted types).
    rewrite <- head_filter_find.
    destruct (List.filter (accepted types) all) as [|s0 rest]; cbn [head]; [reflexivity|].
    destruct (truthy (controlURL s0)), (truthy (SCPDURL s0)); reflexivity. }
  split; [|split; [exact Hsel|]].
  - subst all. unfold _parseDescription.
    destruct (info_device info); [apply traverseDevices_unfold | reflexivity].
  - rewrite Hsel. destruct (List.find (accepted types) all) as [s0|]; [|tauto].
    destruct (truthy (controlURL s0)), (truthy (SCPDURL s0)); cbn;
      split; intros H; try discriminate; auto; destruct H; discriminate.
Qed.

(** C6 as stated fails: document order decides, not the priority of the
    types; and a later service with both URLs does not save the lookup when
    the first accepted one lacks a URL. *)
Lemma getService_follows_document_order :
  let d := new_Device gateway_url in
  _getService join_url d (services d) ppp_listed_first
    = Ok (mkServiceInfo (JStr WANPPPConnection1)
            "http://192.168.1.1:5000/ppp/scpd" "http://192.168.1.1:5000/ppp/control") /\
  _getService join_url d (services d) nested_ppp
    = Ok (mkServiceInfo (JStr WANPPPConnection1)
            "http://192.168.1.1:5000/ppp/scpd" "http://192.168.1.1:5000/ppp/control") /\
  _getService join_url d (services d) first_lacks_control
    = Throw (Error "Service not found").
Proof. repeat split; reflexivity. Qed.

(* ================================================================== *)
(** ** C1: the resubmission on fault 725 *)
(* ================================================================== *)


Lemma set_last_idem {A} (args : list A) (v : A) :
  set_last (set_last args v) v = set_last args v.
Proof.
  destruct args as [|a args]; [reflexivity|].
  unfold set_last at 2. cbn [length].
  remember (<[(S (length args) - 1)%nat := v]> (a :: args)) as args' eqn:E.
  assert (L : length args' = S (length args)) by (subst; now rewrite length_insert).
  destruct args' as [|a' args'']; [discriminate|].
  unfold set_last. rewrite L, E. apply list_insert_insert_eq.
Qed.

Lemma set_last_length {A} (args : list A) (v : A) :
  length (set_last args v) = length args.
Proof.
  destruct args; [reflexivity|]. unfold set_last. apply length_insert.
Qed.


Section RunFacts.
Variable resolve : string -> jsval -> string.
Variable net : Net.
Variable self : Device.
Variable description : Description.
Variable info : ServiceInfo.
Hypothesis description_served : forall tr, getXml net tr (url self) = Ok description.
Hypothesis service_resolved :
  _getService resolve self (services self) description = Ok info.

(** One submission answered by fault 725: the method calls itself with the
    last argument replaced. *)
Lemma run_725_step fuel action args tr :
  is_fault_725 (post net (tr ++ [Fetched (url self)]) (submission info action args)) = true ->
  run resolve net self (S fuel) action args tr
    = run resolve net self fuel action (set_last args lease_zero)
        (tr ++ [Fetched (url self); Posted (submission info action args)]).
Proof.
  unfold is_fault_725. intros H.
  cbn [run]. rewrite description_served, service_resolved.
  fold (submission info action args).
  destruct (post net _ _) as [res|e]; [|discriminate].
  destruct (parsed res) as [body|e]; [|discriminate].
  apply andb_prop in H as [-> H].
  destruct (fault_of body) as [fault|]; [|discriminate].
  destruct (fault_string fault) as [|fs|]; try discriminate.
  destruct (f_errorCode fault) as [| |n]; try discriminate.
  apply andb_prop in H as [-> ->].
  now rewrite <- app_assoc.
Qed.



(** A gateway that always answers 725 is asked again and again: the run
    uses up any number of submissions without returning. *)
Lemma run_never_returns action :
  (forall tr req, is_fault_725 (post net tr req) = true) ->
  forall fuel args tr, run resolve net self fuel action args tr = None.
Proof.
  intros H fuel. induction fuel as [|fuel IH]; intros args tr; [reflexivity|].
  rewrite run_725_step by apply H. apply IH.
Qed.
End RunFacts.




(* ================================================================== *)
(** ** Further properties: the configuration and validation *)
(* ================================================================== *)

Lemma new_calls_app s s' evs :
  trace s' = trace s ++ evs -> new_calls s s' = calls evs.
Proof.
  intros E. unfold new_calls. now rewrite E, drop_app_length.
Qed.

(** No public operation writes a field the constructor set. *)
Lemma map_config w a b s : wf s -> config (snd (map w a b s)) = config s.
Proof.
  intros Hwf. destruct (_destroyed s) eqn:Hd; [now rewrite map_dead|].
  destruct (_validateInput a b s) as [res s0] eqn:Hv.
  assert (s0 = s) as -> by (rewrite <- (_validateInput_state a b s), Hv; reflexivity).
  destruct res as [opts|e]; [|now rewrite (map_invalid w _ _ _ _ Hd Hv)].
  destruct (truthy (protocol opts)) eqn:Hp.
  - destruct (map_single w _ _ _ _ Hd Hwf Hv Hp)
      as (s' & Hc & _ & _ & [(_ & -> & _) | (_ & -> & _)]); exact Hc.
  - destruct (map_both w _ _ _ _ Hd Hwf Hv Hp)
      as (s' & Hc & _ & [(_ & _ & -> & _) | [(_ & -> & _) | (_ & _ & -> & _)]]);
      exact Hc.
Qed.

Lemma reachable_config s :
  reachable s -> exists cfg v4, config s = config (new_NatAPI cfg v4).
Proof.
  induction 1 as [cfg v4 | w a b s Hs IH | w a b s _ IH | w s _ IH | w s _ IH
                 | w h t s _ IH Hh].
  - eauto.
  - destruct IH as (cfg & v4 & E). exists cfg, v4.
    now rewrite map_config by now apply reachable_wf.
  - destruct IH as (cfg & v4 & E). exists cfg, v4.
    destruct (_destroyed s) eqn:Hd; [now rewrite unmap_dead|].
    destruct (unmap_live w a b s Hd) as (_ & Hc & _). now rewrite Hc.
  - destruct IH as (cfg & v4 & E). exists cfg, v4.
    destruct (_destroyed s) eqn:Hd; [now rewrite externalIp_dead|].
    destruct (externalIp_io_only w s Hd) as (evs & Hc & _). now rewrite Hc.
  - destruct IH as (cfg & v4 & E). exists cfg, v4.
    destruct (_destroyed s) eqn:Hd.
    + unfold destroy, bind, get, throw. now rewrite Hd.
    + destruct (destroy_live w s Hd) as (r & s' & E' & _ & Hc & _).
      rewrite E'. cbn [snd]. now rewrite Hc.
  - destruct IH as (cfg & v4 & E). exists cfg, v4.
    destruct (t_job t) as [opts|opts]; [|exact E].
    destruct (_destroyed s) eqn:Hd.
    + unfold fire, _upnpMap. run_monad. now rewrite Hd.
    + destruct (fire_upnp_renewal w opts s Hd) as (s' & E' & Hc & _).
      rewrite E'. cbn [snd]. now rewrite Hc.
Qed.

(** The two defaults validation falls back on are never falsy. *)
Lemma reachable_defaults_truthy s :
  reachable s ->
  truthy (this_description s) = true /\ truthy (JNum (this_ttl s)) = true.
Proof.
  intros Hr. destruct (reachable_wf s Hr) as (_ & _ & Hl).
  destruct (reachable_config s Hr) as (cfg & v4 & E). split.
  - unfold config in E. injection E as _ -> _. cbn.
    destruct (cfg_description cfg) as [d|]; cbn; [|reflexivity].
    unfold js_or. destruct (truthy (JStr d)) eqn:T; [exact T | reflexivity].
  - cbn. destruct (Z.eqb_spec (this_ttl s) 0); [lia | reflexivity].
Qed.

(** X1. Whatever operations have run, in whatever order and with whatever
    answers from the gateway, the settings of a client are those its
    constructor computed: the ttl is at least 1200 seconds, the renewal
    period is (ttl - 600) seconds and so at least 600 seconds, and the
    default description is a non-empty value. *)
Theorem settings_are_the_constructors (s : NatAPI) :
  reachable s ->
  (exists cfg v4, config s = config (new_NatAPI cfg v4)) /\
  1200 <= this_ttl s /\
  _timeout s = (this_ttl s - 600) * 1000 /\
  600 * 1000 <= _timeout s /\
  truthy (this_description s) = true.
Proof.
  intros Hr. destruct (reachable_wf s Hr) as (_ & Ht & Hl).
  destruct (reachable_config s Hr) as (cfg & v4 & E).
  split; [eauto|]. split; [assumption|]. split; [assumption|]. split; [lia|].
  apply reachable_defaults_truthy, Hr.
Qed.

Lemma settings_are_the_constructors_witness :
  let s := snd (unmap all_reject (port 1000) no_arg
                  (snd (map all_resolve short_lease no_arg both_clients))) in
  (exists cfg v4, config s = config (new_NatAPI cfg v4)) /\
  1200 <= this_ttl s /\
  _timeout s = (this_ttl s - 600) * 1000 /\
  600 * 1000 <= _timeout s /\
  truthy (this_description s) = true.
Proof.
  apply settings_are_the_constructors.
  apply reach_unmap, reach_map, reach_new.
Defined.

(** What validation returns carries a protocol it would accept again. *)
Lemma validated_protocol a b s opts :
  _validateInput a b s = (Ok opts, s) ->
  protocol_rejected (protocol opts) = false /\
  (truthy (protocol opts) = false -> protocol opts = JNull).
Proof.
  assert (F : forall o, fill_defaults o s = (Ok opts, s) ->
                        protocol_rejected (protocol opts) = false /\
                        (truthy (protocol opts) = false -> protocol opts = JNull)).
  { intros o H. destruct (protocol_rejected (protocol o)) eqn:E.
    { rewrite fill_defaults_throw in H by assumption. discriminate. }
    rewrite fill_defaults_ok in H by assumption. injection H as <-. cbn.
    unfold js_or. destruct (truthy (protocol o)) eqn:T.
    - split; [exact E | congruence].
    - split; reflexivity. }
  destruct (_validateInput_shape a b) as [(o & ->) | (e & ->)];
    [apply F | discriminate].
Qed.

(** X2. On any client that can exist, a request that passes validation is
    complete: its description and ttl are truthy (the caller's, or else the
    client's), its protocol is either [null] or a string that upper-cases
    to 'UDP' or 'TCP', and validating the returned object again returns it
    unchanged. *)
Theorem validated_request_is_complete (s : NatAPI) (a b b' : jsarg) (opts : Opts) :
  reachable s ->
  _validateInput a b s = (Ok opts, s) ->
  truthy (description opts) = true /\
  truthy (ttl opts) = true /\
  (protocol opts = JNull \/ storable opts) /\
  _validateInput (Obj opts) b' s = (Ok opts, s).
Proof.
  intros Hr Hv.
  destruct (reachable_defaults_truthy s Hr) as (Hd & Ht).
  destruct (validated_protocol a b s opts Hv) as (Hp & Hnull).
  assert (F : forall o, fill_defaults o s = (Ok opts, s) ->
                        truthy (description opts) = true /\ truthy (ttl opts) = true /\
                        fill_defaults opts s = (Ok opts, s)).
  { intros o H. split; [|split; [|now apply (fill_defaults_idem o)]].
    - destruct (protocol_rejected (protocol o)) eqn:E.
      { rewrite fill_defaults_throw in H by assumption. discriminate. }
      rewrite fill_defaults_ok in H by assumption. injection H as <-. cbn.
      unfold js_or. destruct (truthy (description o)) eqn:T; assumption.
    - destruct (protocol_rejected (protocol o)) eqn:E.
      { rewrite fill_defaults_throw in H by assumption. discriminate. }
      rewrite fill_defaults_ok in H by assumption. injection H as <-. cbn.
      unfold js_or. destruct (truthy (ttl o)) eqn:T; assumption. }
  assert (G : truthy (description opts) = true /\ truthy (ttl opts) = true /\
              fill_defaults opts s = (Ok opts, s)).
  { destruct (_validateInput_shape a b) as [(o & E) | (e & E)];
      rewrite E in Hv; [eapply F; eassumption | discriminate]. }
  destruct G as (G1 & G2 & G3). repeat split; try assumption.
  destruct (truthy (protocol opts)) eqn:T; [right; split; assumption | left; auto].
Qed.

Lemma validated_request_is_complete_witness :
  truthy (description (entry 80 80 "tcp")) = true /\
  truthy (ttl (entry 80 80 "tcp")) = true /\
  (protocol (entry 80 80 "tcp") = JNull \/ storable (entry 80 80 "tcp")) /\
  _validateInput (Obj (entry 80 80 "tcp")) (port 5) upnp_only
    = (Ok (entry 80 80 "tcp"), upnp_only).
Proof.
  apply (validated_request_is_complete upnp_only (request 80 80 "tcp") no_arg).
  - apply reach_new.
  - reflexivity.
Defined.

(* ================================================================== *)
(** ** Further properties: the order of the protocols *)
(* ================================================================== *)

Ltac trace_tail :=
  first [ rewrite <- ?app_assoc; reflexivity | symmetry; apply app_nil_r ].

(** X3. On a live client [_map] asks NAT-PMP first and UPnP only when
    needed. Provided the UPnP call settles (no timer guards it), [_map]
    returns without throwing, and the [portMapping] calls it makes are
    these, in this order: the NAT-PMP one when there is a NAT-PMP client;
    then the UPnP one when there is a UPnP client and NAT-PMP is absent or
    did not resolve within its second. A NAT-PMP success is the result at
    once; a failure is always reported as 'no protocols succeeded'. The
    closes of the NAT-PMP client that its one-second timers make are not
    counted here. *)
Theorem _map_asks_pmp_then_upnp (w : World) (opts : Opts) (s : NatAPI) :
  _destroyed s = false ->
  (forall tr, w tr (upnp_map_call opts) <> Timeout) ->
  let answer := w (trace s) (pmp_map_call opts) in
  let pmp_ok := present (_pmpClient s) && resolved answer in
  exists r s',
    _map w opts s = (Ok r, s') /\
    List.filter is_map_call (new_calls s s')
      = (if present (_pmpClient s) then [pmp_map_call opts] else [])
          ++ (if negb pmp_ok && present (_upnpClient s) then [upnp_map_call opts] else []) /\
    (pmp_ok = true -> r = (true, None)) /\
    (r = (true, None) \/ r = no_protocols).
Proof.
  intros Hd _ answer pmp_ok. subst answer pmp_ok.
  assert (H : exists r s' evs,
             _map w opts s = (Ok r, s') /\ trace s' = trace s ++ evs /\
             calls evs
               = (if present (_pmpClient s)
                  then pmp_map_call opts :: pmp_closes (w (trace s) (pmp_map_call opts))
                  else [])
                   ++ (if negb (present (_pmpClient s)
                                && resolved (w (trace s) (pmp_map_call opts)))
                          && present (_upnpClient s)
                       then [upnp_map_call opts] else []) /\
             (present (_pmpClient s) && resolved (w (trace s) (pmp_map_call opts)) = true ->
              r = (true, None)) /\
             (r = (true, None) \/ r = no_protocols)).
  { unfold _map, fallback_chain, _pmpMap, _upnpMap, pmp_map_call, upnp_map_call.
    run_monad. rewrite Hd. cbn.
    destruct (_pmpClient s) as [gw|] eqn:Hpmp, (_upnpClient s) as [fb|] eqn:Hupnp; cbn;
      repeat (match goal with
              | |- context [_destroyed s] => rewrite Hd
              | |- context [_pmpClient s] => rewrite Hpmp
              | |- context [_upnpClient s] => rewrite Hupnp
              | |- context [w ?t ?c] => destruct (w t c) as [?v| |] eqn:?Hw
              | |- context [autoUpdate s] => destruct (autoUpdate s) eqn:?Ha
              end; cbn);
      eexists _, _, _; (split; [reflexivity|]); cbn;
      (split; [trace_tail|]); cbn;
      (split; [reflexivity|]);
      (split; [intros; first [reflexivity | discriminate]|]);
      first [left; reflexivity | right; reflexivity]. }
  destruct H as (r & s' & evs & E & Ht & Hc & Hok & Hr).
  exists r, s'. rewrite (new_calls_app _ _ _ Ht), Hc.
  split; [exact E|]. split; [|auto].
  rewrite List.filter_app.
  destruct (present (_pmpClient s)); cbn;
    [destruct (w (trace s) (pmp_map_call opts)); cbn|];
    destruct (present (_upnpClient s)); reflexivity.
Qed.

Lemma _map_asks_pmp_then_upnp_witness :
  exists r s',
    _map pmp_refuses tcp_80 both_clients = (Ok r, s') /\
    List.filter is_map_call (new_calls both_clients s')
      = [pmp_map_call tcp_80; upnp_map_call tcp_80] /\
    (false = true -> r = (true, None)) /\
    (r = (true, None) \/ r = no_protocols).
Proof.
  apply (_map_asks_pmp_then_upnp pmp_refuses tcp_80 both_clients).
  - reflexivity.
  - intros tr. discriminate.
Defined.



(** The renewal timer of that mapping survives [unmap]. *)
Example upnp_renewal_survives_pmp_unmap :
  let s1 := snd (map pmp_refuses (request 80 80 "TCP") no_arg both_clients) in
  let s2 := snd (unmap all_resolve (request 80 80 "TCP") no_arg s1) in
  fst (unmap all_resolve (request 80 80 "TCP") no_arg s1) = Ok true /\
  _openPorts s2 = [] /\
  intervals s2 !! 0%nat = Some (mkTimer (JobUpnpMap tcp_80) 6600000).
Proof. repeat split; reflexivity. Qed.

Section NoProtocol.
Variable w : World.

Lemma _map_without_clients opts s :
  _destroyed s = false -> _pmpClient s = None -> _upnpClient s = None ->
  _map w opts s = (Ok no_protocols, s).
Proof.
  intros Hd Hp Hu. unfold _map, fallback_chain. run_monad.
  rewrite Hd. cbn. rewrite Hp. cbn. rewrite Hu. reflexivity.
Qed.

Lemma _unmap_without_clients opts s :
  _destroyed s = false -> _pmpClient s = None -> _upnpClient s = None ->
  _unmap w opts s = (Ok no_protocols, s).
Proof.
  intros Hd Hp Hu. unfold _unmap, fallback_chain. run_monad.
  rewrite Hd. cbn. rewrite Hp. cbn. rewrite Hu. reflexivity.
Qed.
End NoProtocol.

(** X5. On a client that has neither protocol client (both disabled, or
    the gateway lookup failed and UPnP is disabled), every valid [map] and
    [unmap] returns [false] and [externalIp] returns the empty string, all
    without a single client call; [map] leaves the registry and the timers
    as they were. *)
Theorem without_clients_nothing_is_asked (w : World) (a b : jsarg) (s : NatAPI)
    (opts : Opts) :
  _destroyed s = false -> wf s ->
  _pmpClient s = None -> _upnpClient s = None ->
  _validateInput a b s = (Ok opts, s) ->
  (fst (map w a b s) = Ok false /\
   _openPorts (snd (map w a b s)) = _openPorts s /\
   timers (snd (map w a b s)) = timers s /\
   trace (snd (map w a b s)) = trace s) /\
  (fst (unmap w a b s) = Ok false /\
   trace (snd (unmap w a b s)) = trace s) /\
  externalIp w s = (Ok (JStr ""), s).
Proof.
  intros Hd (Hf & _) Hp Hu Hv. split; [|split].
  - rewrite (map_enter w _ _ _ _ Hd Hv).
    destruct (truthy (protocol opts)).
    + erewrite bind_ok by (now apply _map_without_clients).
      cbn [fst no_protocols negb]. unfold remove_at, modify, bind, ret. cbn [fst snd].
      change (_openPorts (pushed s opts)) with (_openPorts s ++ [(next_ref s, opts)]).
      rewrite indexOf_fresh, arrayRemove_last by assumption. repeat split.
    + erewrite bind_ok by (now apply _map_without_clients).
      cbn [fst no_protocols negb]. unfold remove_at, modify, bind, ret. cbn [fst snd].
      change (_openPorts (pushed s (optsUDP opts)))
        with (_openPorts s ++ [(next_ref s, optsUDP opts)]).
      rewrite indexOf_fresh, arrayRemove_last by assumption. repeat split.
  - rewrite (unmap_enter w _ _ _ _ Hd Hv).
    destruct (truthy (protocol opts)).
    + erewrite bind_ok by (now apply _unmap_without_clients). split; reflexivity.
    + erewrite bind_ok by (now apply _unmap_without_clients). split; reflexivity.
  - unfold externalIp. run_monad. rewrite Hd. cbn. rewrite Hp. cbn.
    now rewrite Hu.
Qed.

Lemma without_clients_nothing_is_asked_witness :
  (fst (map all_resolve (port 1000) no_arg no_clients) = Ok false /\
   _openPorts (snd (map all_resolve (port 1000) no_arg no_clients)) = _openPorts no_clients /\
   timers (snd (map all_resolve (port 1000) no_arg no_clients)) = timers no_clients /\
   trace (snd (map all_resolve (port 1000) no_arg no_clients)) = trace no_clients) /\
  (fst (unmap all_resolve (port 1000) no_arg no_clients) = Ok false /\
   trace (snd (unmap all_resolve (port 1000) no_arg no_clients)) = trace no_clients) /\
  externalIp all_resolve no_clients = (Ok (JStr ""), no_clients).
Proof.
  apply (without_clients_nothing_is_asked all_resolve (port 1000) no_arg no_clients
           wildcard_1000); try reflexivity.
  apply new_NatAPI_wf.
Defined.

(* ================================================================== *)
(** ** Further properties: the registry under [unmap] and [map] *)
(* ================================================================== *)

(** Removing an inner element: the last one takes its place. *)
Lemma arrayRemove_middle {A} (pre mid : list A) (x l : A) :
  arrayRemove (pre ++ x :: mid ++ [l]) (Z.of_nat (length pre)) = pre ++ l :: mid.
Proof.
  replace (pre ++ x :: mid ++ [l]) with ((pre ++ x :: mid) ++ [l])
    by (now rewrite <- app_assoc).
  rewrite arrayRemove_inner.
  - rewrite Nat2Z.id.
    replace (length pre) with (length pre + 0)%nat at 1 by lia.
    now rewrite insert_app_r.
  - rewrite length_app. cbn. lia.
Qed.

Lemma validated_again a b s s' opts :
  config s' = config s -> _validateInput a b s = (Ok opts, s) ->
  _validateInput a b s' = (Ok opts, s').
Proof.
  intros Hc. unfold config in Hc. injection Hc as E1 E2 E3 _ _ _ _ _.
  assert (F : forall o, fill_defaults o s = (Ok opts, s) ->
                        fill_defaults o s' = (Ok opts, s')).
  { intros o H. destruct (protocol_rejected (protocol o)) eqn:E.
    { rewrite fill_defaults_throw in H by assumption. discriminate. }
    rewrite fill_defaults_ok in H by assumption. injection H as <-.
    rewrite fill_defaults_ok by assumption. now rewrite E1, E2, E3. }
  destruct (_validateInput_shape a b) as [(o & ->) | (e & ->)];
    [apply F | discriminate].
Qed.

Lemma unmap_returns w a b s opts :
  _destroyed s = false -> _validateInput a b s = (Ok opts, s) ->
  exists ok, fst (unmap w a b s) = Ok ok.
Proof.
  intros Hd Hv. destruct (truthy (protocol opts)) eqn:Hp.
  - destruct (unmap_single w _ _ _ _ Hd Hv Hp) as (s' & evs & -> & _). eauto.
  - destruct (unmap_both w _ _ _ _ Hd Hv Hp) as (evs1 & _ & _ & H).
    destruct (succeeded _).
    + destruct H as (evs2 & -> & _). eauto.
    + rewrite H. eauto.
Qed.

(** X6. [unmap] of a mapping that no registry entry matches returns
    normally (it does not throw) and leaves the registry exactly as it was,
    whatever the gateway answers: at the registry, unmapping what is not
    there, or unmapping a second time, changes nothing. *)
Theorem unmap_of_absent_mapping (w : World) (a b : jsarg) (s : NatAPI) (opts : Opts) :
  _destroyed s = false ->
  _validateInput a b s = (Ok opts, s) ->
  Forall (fun e => key_matches opts e = false) (_openPorts s) ->
  (exists ok, fst (unmap w a b s) = Ok ok) /\
  _openPorts (snd (unmap w a b s)) = _openPorts s.
Proof.
  intros Hd Hv Hno. split; [now apply (unmap_returns w a b s opts)|].
  destruct (unmap_removes_before_calls w a b s opts Hd Hv) as (evs & -> & _).
  unfold findIndex. rewrite findIndex_from_none by assumption.
  apply arrayRemove_out. lia.
Qed.

Lemma unmap_of_absent_mapping_witness :
  let s1 := snd (map all_resolve (request 80 80 "TCP") no_arg upnp_only) in
  (exists ok, fst (unmap all_reject (request 80 80 "UDP") no_arg s1) = Ok ok) /\
  _openPorts (snd (unmap all_reject (request 80 80 "UDP") no_arg s1)) = _openPorts s1.
Proof.
  apply (unmap_of_absent_mapping all_reject (request 80 80 "UDP") no_arg _
           (entry 80 80 "UDP")).
  - reflexivity.
  - reflexivity.
  - repeat constructor.
Defined.

(** X7. When some entry matches, [unmap] takes exactly one entry out of the
    registry, the first match in array order, and does not keep the order
    of the rest: when the removed entry was the last one the others stay in
    place, otherwise the last entry moves into the freed position. This
    holds whatever the gateway answers. *)
Theorem unmap_removes_first_match (w : World) (a b : jsarg) (s : NatAPI)
    (opts : Opts) (pre post : list (objref * Opts)) (x : objref * Opts) :
  _destroyed s = false ->
  _validateInput a b s = (Ok opts, s) ->
  _openPorts s = pre ++ x :: post ->
  Forall (fun e => key_matches opts e = false) pre ->
  key_matches opts x = true ->
  (post = [] -> _openPorts (snd (unmap w a b s)) = pre) /\
  (forall mid l, post = mid ++ [l] ->
                 _openPorts (snd (unmap w a b s)) = pre ++ l :: mid) /\
  length (_openPorts (snd (unmap w a b s))) = (length (_openPorts s) - 1)%nat.
Proof.
  intros Hd Hv Hreg Hpre Hx.
  destruct (unmap_removes_before_calls w a b s opts Hd Hv) as (evs & -> & _).
  rewrite Hreg. unfold findIndex.
  rewrite (findIndex_from_first _ pre x post 0 Hpre Hx). cbn [Z.add].
  split; [|split].
  - intros ->. apply arrayRemove_last.
  - intros mid l ->. apply arrayRemove_middle.
  - rewrite arrayRemove_length; [reflexivity|].
    rewrite length_app. cbn. lia.
Qed.

Lemma unmap_removes_first_match_witness :
  let s2 := snd (map all_resolve (request 80 80 "TCP") no_arg
                   (snd (map all_resolve (port 1000) no_arg upnp_only))) in
  _openPorts (snd (unmap all_reject (request 1000 1000 "UDP") no_arg s2))
    = [(2%nat, entry 80 80 "TCP"); (1%nat, entry 1000 1000 "TCP")].
Proof.
  refine (proj1 (proj2 (unmap_removes_first_match all_reject
                          (request 1000 1000 "UDP") no_arg _ (entry 1000 1000 "UDP")
                          [] [(1%nat, entry 1000 1000 "TCP"); (2%nat, entry 80 80 "TCP")]
                          (0%nat, entry 1000 1000 "UDP") _ _ _ _ _))
            [(1%nat, entry 1000 1000 "TCP")] (2%nat, entry 80 80 "TCP") _);
    first [reflexivity | constructor].
Defined.

Lemma key_matches_self (o : Opts) (r : objref) :
  comparable o -> truthy (protocol o) = true -> key_matches o (r, o) = true.
Proof.
  intros [Hpub Hpriv] Hp. unfold key_matches. cbn.
  assert (Hprot : protocol o <> JNaN) by (intros E; now rewrite E in Hp).
  now rewrite !strict_eq_refl.
Qed.

(** A request with a [NaN] port matches no entry, not even its own. *)
Lemma key_matches_NaN (o : Opts) (e : objref * Opts) :
  publicPort o = JNaN \/ privatePort o = JNaN -> key_matches o e = false.
Proof.
  unfold key_matches, strict_eq. intros [E|E]; rewrite E.
  - destruct (bool_decide (publicPort e.2 = JNaN)); reflexivity.
  - destruct (bool_decide (privatePort e.2 = JNaN)); cbn;
      rewrite ?andb_false_r; reflexivity.
Qed.

(** X8. A single-protocol [map] that succeeds, followed by an [unmap] of
    the same request, gives back exactly the registry from before the
    [map], provided no entry of that registry already matched the request
    and neither port of the request is [NaN]; the gateway's answer to the
    unmap plays no part. A request with a [NaN] port passes validation
    ([typeof NaN] is ['number']) but is not [===] to itself: its entry is
    still in the registry after the [unmap]. *)
Theorem map_then_unmap_restores_registry (w w' : World) (a b : jsarg)
    (s : NatAPI) (opts : Opts) :
  _destroyed s = false -> wf s ->
  _validateInput a b s = (Ok opts, s) ->
  truthy (protocol opts) = true ->
  Forall (fun e => key_matches opts e = false) (_openPorts s) ->
  fst (map w a b s) = Ok true ->
  let after := _openPorts (snd (unmap w' a b (snd (map w a b s)))) in
  (comparable opts -> after = _openPorts s) /\
  (publicPort opts = JNaN \/ privatePort opts = JNaN ->
   after = _openPorts s ++ [(next_ref s, opts)]).
Proof.
  intros Hd Hwf Hv Hp Hno Hok after. subst after.
  destruct (map_single w _ _ _ _ Hd Hwf Hv Hp)
    as (s1 & Hc & Hd1 & _ & [(_ & E & Ho) | (_ & E & _)]);
    rewrite E in *; [|discriminate]. cbn [snd].
  pose proof (validated_again a b s s1 opts Hc Hv) as Hv1.
  destruct (unmap_removes_before_calls w' a b s1 opts Hd1 Hv1) as (evs & -> & _).
  rewrite Ho. unfold findIndex. split.
  - intros Hcmp.
    rewrite (findIndex_from_first _ (_openPorts s) (next_ref s, opts) [] 0 Hno)
      by now apply key_matches_self.
    apply arrayRemove_last.
  - intros HNaN. rewrite findIndex_from_none.
    + apply arrayRemove_out. left. lia.
    + apply Forall_forall. intros e _. now apply key_matches_NaN.
Qed.

Lemma map_then_unmap_restores_registry_witness :
  let s1 := snd (map all_resolve (port 1000) no_arg both_clients) in
  _openPorts (snd (unmap all_reject (request 80 80 "TCP") no_arg
                     (snd (map pmp_refuses (request 80 80 "TCP") no_arg s1))))
    = _openPorts s1.
Proof.
  apply (map_then_unmap_restores_registry pmp_refuses all_reject
           (request 80 80 "TCP") no_arg _ tcp_80).
  - reflexivity.
  - apply map_wf; [reflexivity | apply new_NatAPI_wf].
  - reflexivity.
  - reflexivity.
  - repeat constructor.
  - reflexivity.
  - split; discriminate.
Defined.

(** X9. A protocol-unspecified [map] whose UDP attempt succeeds and whose
    TCP attempt fails returns [false] and keeps the UDP entry: when no
    earlier entry matched the TCP key and neither port is [NaN], the
    registry is the one before followed by the UDP entry alone. The UDP
    mapping stays open, for the caller to unmap. With a [NaN] port the
    rollback finds nothing to remove, and the entry of the failed TCP
    attempt stays as well. *)
Theorem map_partial_failure_keeps_udp (w : World) (a b : jsarg) (s : NatAPI)
    (opts : Opts) :
  _destroyed s = false -> wf s ->
  _validateInput a b s = (Ok opts, s) ->
  truthy (protocol opts) = false ->
  let first := _map w (optsUDP opts) (pushed s (optsUDP opts)) in
  let second := _map w (optsTCP opts) (pushed (snd first) (optsTCP opts)) in
  succeeded first = true -> succeeded second = false ->
  Forall (fun e => key_matches (optsTCP opts) e = false) (_openPorts s) ->
  fst (map w a b s) = Ok false /\
  (comparable opts ->
   _openPorts (snd (map w a b s)) = _openPorts s ++ [(next_ref s, optsUDP opts)]) /\
  (publicPort opts = JNaN \/ privatePort opts = JNaN ->
   _openPorts (snd (map w a b s))
     = _openPorts s ++ [(next_ref s, optsUDP opts); (S (next_ref s), optsTCP opts)]).
Proof.
  intros Hd Hwf Hv Hp first second S1 S2 Hno.
  destruct (map_both w _ _ _ _ Hd Hwf Hv Hp)
    as (s' & _ & _ & [(_ & F & _) | [(F & _) | (_ & _ & E & Ho & _)]]).
  - fold first second in F. congruence.
  - fold first in F. congruence.
  - rewrite E. cbn [fst snd]. split; [reflexivity|]. rewrite Ho.
    split.
    2:{ intros HNaN. unfold findIndex. rewrite findIndex_from_none.
        - apply arrayRemove_out. left. lia.
        - apply Forall_forall. intros e _. now apply key_matches_NaN. }
    intros Hcmp.
    replace (_openPorts s ++ [(next_ref s, optsUDP opts); (S (next_ref s), optsTCP opts)])
      with ((_openPorts s ++ [(next_ref s, optsUDP opts)])
              ++ [((S (next_ref s) : objref), optsTCP opts)])
      by (now rewrite <- app_assoc).
    assert (Hpre : Forall (fun e => key_matches (optsTCP opts) e = false)
                     (_openPorts s ++ [(next_ref s, optsUDP opts)])).
    { apply Forall_app. split; [assumption|].
      constructor; [|constructor].
      unfold key_matches. cbn. apply andb_false_r. }
    unfold findIndex.
    rewrite (findIndex_from_first _ _ ((S (next_ref s) : objref), optsTCP opts) [] 0 Hpre)
      by now apply key_matches_self.
    apply arrayRemove_last.
Qed.

Lemma map_partial_failure_keeps_udp_witness :
  fst (map only_udp_granted (port 1000) no_arg upnp_only) = Ok false /\
  (comparable wildcard_1000 ->
   _openPorts (snd (map only_udp_granted (port 1000) no_arg upnp_only))
     = _openPorts upnp_only ++ [(next_ref upnp_only, optsUDP wildcard_1000)]) /\
  (publicPort wildcard_1000 = JNaN \/ privatePort wildcard_1000 = JNaN ->
   _openPorts (snd (map only_udp_granted (port 1000) no_arg upnp_only))
     = _openPorts upnp_only
         ++ [(next_ref upnp_only, optsUDP wildcard_1000);
             (S (next_ref upnp_only), optsTCP wildcard_1000)]).
Proof.
  apply (map_partial_failure_keeps_udp only_udp_granted (port 1000) no_arg upnp_only
           wildcard_1000);
    try reflexivity.
  - apply new_NatAPI_wf.
  - constructor.
Defined.

(* ================================================================== *)
(** ** Further properties: the renewal timers *)
(* ================================================================== *)

Section TimerFacts.
Variable w : World.

(** A protocol attempt that reports failure has started no timer and
    cleared none. *)
Lemma _map_failure_keeps_timers opts s r s' :
  _destroyed s = false ->
  _map w opts s = (Ok r, s') -> fst r = false -> timers s' = timers s.
Proof.
  intros Hd. unfold _map, fallback_chain, _pmpMap, _upnpMap, timers.
  run_monad. rewrite Hd. cbn.
  destruct (_pmpClient s) as [gw|] eqn:Hpmp, (_upnpClient s) as [fb|] eqn:Hupnp; cbn;
    repeat (match goal with
            | |- context [_destroyed s] => rewrite Hd
            | |- context [_pmpClient s] => rewrite Hpmp
            | |- context [_upnpClient s] => rewrite Hupnp
            | |- context [w ?t ?c] => destruct (w t c) as [?v| |]
            | |- context [autoUpdate s] => destruct (autoUpdate s)
            end; cbn);
    intros [= <- <-]; cbn; first [discriminate | reflexivity].
Qed.

(** What a successful UPnP mapping writes: one new timer, under the next
    handle, and its handle under the key of the request. *)
Lemma _upnpMap_success opts s s' :
  _destroyed s = false ->
  _upnpMap w opts s = (Ok true, s') ->
  _destroyed s' = false /\ autoUpdate s' = autoUpdate s /\ _timeout s' = _timeout s /\
  _pmpIntervals s' = _pmpIntervals s /\
  if autoUpdate s then
    intervals s' = <[next_handle s := mkTimer (JobUpnpMap opts) (_timeout s)]> (intervals s) /\
    _upnpIntervals s' = <[interval_key opts := next_handle s]> (_upnpIntervals s) /\
    next_handle s' = S (next_handle s)
  else
    intervals s' = intervals s /\ _upnpIntervals s' = _upnpIntervals s /\
    next_handle s' = next_handle s.
Proof.
  intros Hd. unfold _upnpMap. run_monad. rewrite Hd. cbn.
  destruct (w (trace s) _); cbn; [|discriminate..].
  destruct (autoUpdate s) eqn:Ha; cbn; intros [= <-]; cbn; rewrite ?Ha; auto 10.
Qed.

(** What a successful UPnP unmapping writes: the timer whose handle is
    stored under the key of the request is stopped and the key deleted. *)
Lemma _upnpUnmap_success opts s s' :
  _destroyed s = false ->
  _upnpUnmap w opts s = (Ok true, s') ->
  _pmpIntervals s' = _pmpIntervals s /\
  _upnpIntervals s' = delete (interval_key opts) (_upnpIntervals s) /\
  intervals s' = match _upnpIntervals s !! interval_key opts with
                 | Some h => delete h (intervals s)
                 | None => intervals s
                 end.
Proof.
  intros Hd. unfold _upnpUnmap. run_monad. rewrite Hd. cbn.
  destruct (w (trace s) _); cbn; [|discriminate..].
  destruct (_upnpIntervals s !! interval_key opts) eqn:Hk; cbn;
    intros [= <-]; cbn; repeat split.
  symmetry. now apply delete_id.
Qed.
End TimerFacts.

(** X10. A single-protocol [map] whose attempt fails leaves no renewal
    timer behind: besides returning [false] with the registry restored, it
    leaves the running timers and both timer tables exactly as they were. *)
Theorem failed_map_leaves_no_timer (w : World) (a b : jsarg) (s : NatAPI)
    (opts : Opts) :
  _destroyed s = false -> wf s ->
  _validateInput a b s = (Ok opts, s) ->
  truthy (protocol opts) = true ->
  succeeded (_map w opts (pushed s opts)) = false ->
  fst (map w a b s) = Ok false /\
  _openPorts (snd (map w a b s)) = _openPorts s /\
  timers (snd (map w a b s)) = timers s.
Proof.
  intros Hd (Hf & _) Hv Hp Hfail.
  rewrite (map_enter w _ _ _ _ Hd Hv), Hp.
  destruct (_map_attempt w opts (pushed s opts) Hd)
    as (r & s1 & evs & E & (_ & _ & Ho & _) & _).
  unfold succeeded in Hfail. rewrite E in Hfail. cbn [fst] in Hfail.
  rewrite (bind_ok _ _ _ _ _ E).
  assert (Hr : fst r = false) by (now destruct r).
  rewrite Hr. cbn [negb]. unfold remove_at, modify, bind, ret. cbn [fst snd].
  split; [reflexivity|]. split.
  - cbn [_openPorts with_openPorts]. rewrite Ho.
    change (_openPorts (pushed s opts)) with (_openPorts s ++ [(next_ref s, opts)]).
    now rewrite indexOf_fresh, arrayRemove_last.
  - exact (_map_failure_keeps_timers w opts (pushed s opts) r s1 Hd E Hr).
Qed.

Lemma failed_map_leaves_no_timer_witness :
  let s1 := snd (map all_resolve (port 1000) no_arg both_clients) in
  fst (map all_reject (request 80 80 "TCP") no_arg s1) = Ok false /\
  _openPorts (snd (map all_reject (request 80 80 "TCP") no_arg s1)) = _openPorts s1 /\
  timers (snd (map all_reject (request 80 80 "TCP") no_arg s1)) = timers s1.
Proof.
  apply (failed_map_leaves_no_timer all_reject (request 80 80 "TCP") no_arg _ tcp_80);
    try reflexivity.
  apply map_wf; [reflexivity | apply new_NatAPI_wf].
Defined.

(** X11. A UPnP mapping followed by a UPnP unmapping of the same request
    leaves the timers as they were before the mapping: the timer the
    mapping started is the one the unmapping stops. This needs the key of
    the request to be free beforehand and the next timer handle to be
    unused; it holds with auto-renewal on or off. *)
Theorem upnp_map_then_unmap_restores_timers (w w' : World) (opts : Opts)
    (s s1 s2 : NatAPI) :
  _destroyed s = false ->
  _upnpIntervals s !! interval_key opts = None ->
  intervals s !! next_handle s = None ->
  _upnpMap w opts s = (Ok true, s1) ->
  _upnpUnmap w' opts s1 = (Ok true, s2) ->
  timers s2 = timers s.
Proof.
  intros Hd Hkey Hfresh E1 E2.
  destruct (_upnpMap_success w opts s s1 Hd E1) as (Hd1 & _ & _ & Hp1 & H1).
  destruct (_upnpUnmap_success w' opts s1 s2 Hd1 E2) as (Hp2 & Hu2 & Hi2).
  unfold timers. rewrite Hp2, Hp1, Hu2, Hi2.
  destruct (autoUpdate s).
  - destruct H1 as (-> & -> & _). rewrite lookup_insert_eq.
    now rewrite !delete_insert_eq, !delete_id.
  - destruct H1 as (-> & -> & _). rewrite Hkey. now rewrite delete_id.
Qed.

Lemma upnp_map_then_unmap_restores_timers_witness :
  timers (snd (_upnpUnmap all_resolve tcp_80 (snd (_upnpMap all_resolve tcp_80 upnp_only))))
    = timers upnp_only.
Proof.
  apply (upnp_map_then_unmap_restores_timers all_resolve all_resolve tcp_80 upnp_only
           (snd (_upnpMap all_resolve tcp_80 upnp_only))); vm_compute; reflexivity.
Defined.

(** Whether a UPnP mapping attempt succeeds is the gateway's answer. *)
Lemma _upnpMap_result w opts s :
  _destroyed s = false ->
  fst (_upnpMap w opts s) = Ok (resolved (w (trace s) (upnp_map_call opts))).
Proof.
  intros Hd. unfold _upnpMap, upnp_map_call. run_monad. rewrite Hd. cbn.
  destruct (w (trace s) _); cbn; [destruct (autoUpdate s)|..]; reflexivity.
Qed.

(** X12. Renewal timers pile up. A UPnP renewal that the gateway grants
    starts a further timer for the mapping and stores the new handle under
    the key, over the old one; the earlier timer keeps running. A later
    successful unmapping stops only the newest timer, so after one renewal
    the timer that the original mapping started is still running when the
    mapping has been unmapped. *)
Theorem renewal_timer_outlives_unmap (w1 w2 w3 : World) (opts : Opts)
    (s s1 s2 s3 : NatAPI) :
  _destroyed s = false ->
  autoUpdate s = true ->
  _upnpMap w1 opts s = (Ok true, s1) ->
  resolved (w2 (trace s1) (upnp_map_call opts)) = true ->
  fire w2 (JobUpnpMap opts) s1 = (Ok tt, s2) ->
  _upnpUnmap w3 opts s2 = (Ok true, s3) ->
  intervals s3 !! next_handle s = Some (mkTimer (JobUpnpMap opts) (_timeout s)) /\
  _upnpIntervals s3 !! interval_key opts = None.
Proof.
  intros Hd Ha E1 Hgrant E2 E3.
  destruct (_upnpMap_success w1 opts s s1 Hd E1) as (Hd1 & Ha1 & Ht1 & _ & H1).
  rewrite Ha in H1, Ha1. destruct H1 as (Hi1 & Hu1 & Hn1).
  pose proof (_upnpMap_result w2 opts s1 Hd1) as Hres. rewrite Hgrant in Hres.
  unfold fire in E2. unfold bind at 1 in E2.
  destruct (_upnpMap w2 opts s1) as [r s2'] eqn:E2'. cbn [fst] in Hres. subst r.
  injection E2 as <-.
  destruct (_upnpMap_success w2 opts s1 s2' Hd1 E2') as (Hd2 & _ & _ & _ & H2).
  rewrite Ha1 in H2. destruct H2 as (Hi2 & Hu2 & Hn2).
  destruct (_upnpUnmap_success w3 opts s2' s3 Hd2 E3) as (_ & Hu3 & Hi3).
  rewrite Hu3, Hi3, Hu2, lookup_insert_eq, lookup_delete_eq.
  split; [|reflexivity].
  rewrite Hi2, delete_insert_eq, lookup_delete_ne by (rewrite Hn1; lia).
  rewrite Hi1. apply lookup_insert_eq.
Qed.

Lemma renewal_timer_outlives_unmap_witness :
  let s1 := snd (_upnpMap all_resolve tcp_80 upnp_only) in
  let s2 := snd (fire all_resolve (JobUpnpMap tcp_80) s1) in
  let s3 := snd (_upnpUnmap all_resolve tcp_80 s2) in
  intervals s3 !! next_handle upnp_only
    = Some (mkTimer (JobUpnpMap tcp_80) (_timeout upnp_only)) /\
  _upnpIntervals s3 !! interval_key tcp_80 = None.
Proof.
  apply (renewal_timer_outlives_unmap all_resolve all_resolve all_resolve tcp_80
           upnp_only
           (snd (_upnpMap all_resolve tcp_80 upnp_only))
           (snd (fire all_resolve (JobUpnpMap tcp_80)
                   (snd (_upnpMap all_resolve tcp_80 upnp_only)))));
    vm_compute; reflexivity.
Defined.

(* ================================================================== *)
(** ** Further properties: [destroy] *)
(* ================================================================== *)

(** For a request with a protocol, the registry predicate is equality of
    the keys, of an entry whose ports are not [NaN]. *)
Lemma key_matches_key (o : Opts) (e : objref * Opts) :
  truthy (protocol o) = true ->
  (key_matches o e = true <-> key_of (snd e) = key_of o /\ comparable (snd e)).
Proof.
  intros Hp. unfold key_matches, key_of, comparable.
  assert (loose_null (protocol o) = false) as -> by (now destruct (protocol o)).
  rewrite orb_false_r, !andb_true_iff, !strict_eq_true. split.
  - intros [[[-> H1] [-> H2]] [-> _]]. auto.
  - intros [[= E1 E2 E3] [H1 H2]]. repeat split; try assumption.
    intros E. rewrite E3 in E. now rewrite E in Hp.
Qed.

Lemma arrayRemove_Permutation {A} (pre post : list A) (x : A) :
  arrayRemove (pre ++ x :: post) (Z.of_nat (length pre)) ≡ₚ pre ++ post.
Proof.
  destruct (snoc_cases post) as [->|(mid & l & ->)].
  - rewrite arrayRemove_last. now rewrite app_nil_r.
  - rewrite arrayRemove_middle. apply Permutation_app_head.
    apply Permutation_cons_append.
Qed.

(** The registry holds only what [map] can store. *)
Lemma reachable_storable s :
  reachable s -> Forall (fun e => storable (snd e)) (_openPorts s).
Proof.
  induction 1 as [cfg v4 | w a b s Hs IH | w a b s _ IH | w s _ IH | w s _ IH
                 | w h t s _ IH Hh].
  - constructor.
  - destruct (_destroyed s) eqn:Hd; [now rewrite map_dead|].
    destruct (_validateInput a b s) as [res s0] eqn:Hv.
    assert (s0 = s) as -> by (rewrite <- (_validateInput_state a b s), Hv; reflexivity).
    destruct res as [opts|e]; [|now rewrite (map_invalid w _ _ _ _ Hd Hv)].
    pose proof (reachable_wf s Hs) as Hwf.
    destruct (validated_protocol a b s opts Hv) as (Hok & _).
    assert (HU : storable (optsUDP opts)) by (split; reflexivity).
    assert (HT : storable (optsTCP opts)) by (split; reflexivity).
    destruct (truthy (protocol opts)) eqn:Hp.
    + destruct (map_single w _ _ _ _ Hd Hwf Hv Hp)
        as (s' & _ & _ & _ & [(_ & -> & Ho) | (_ & -> & Ho)]); cbn [snd];
        rewrite Ho; [|assumption].
      apply Forall_app. split; [assumption|]. repeat constructor; assumption.
    + destruct (map_both w _ _ _ _ Hd Hwf Hv Hp)
        as (s' & _ & _ & [(_ & _ & -> & Ho & _) | [(_ & -> & Ho & _) | (_ & _ & -> & Ho & _)]]);
        cbn [snd]; rewrite Ho; [|assumption|apply arrayRemove_Forall];
        (apply Forall_app; split; [assumption|]; repeat constructor; assumption).
  - destruct (_destroyed s) eqn:Hd; [now rewrite unmap_dead|].
    destruct (unmap_live w a b s Hd) as (_ & _ & _ & HF). now apply HF.
  - destruct (_destroyed s) eqn:Hd; [now rewrite externalIp_dead|].
    destruct (externalIp_io_only w s Hd) as (evs & _ & _ & Ho & _). now rewrite Ho.
  - destruct (_destroyed s) eqn:Hd.
    + unfold destroy, bind, get, throw. now rewrite Hd.
    + destruct (destroy_live w s Hd) as (r & s' & -> & _ & _ & _ & HF & _). now apply HF.
  - destruct (t_job t) as [opts|opts]; [|exact IH].
    destruct (_destroyed s) eqn:Hd.
    + unfold fire, _upnpMap. run_monad. now rewrite Hd.
    + destruct (fire_upnp_renewal w opts s Hd) as (s' & -> & _ & _ & Ho & _).
      cbn [snd]. now rewrite Ho.
Qed.

(** No call of [unmap] destroys the UPnP client. *)
Lemma unmap_calls (w : World) a b s :
  _destroyed s = false ->
  exists evs,
    trace (snd (unmap w a b s)) = trace s ++ evs /\ UpnpDestroy ∉ calls evs.
Proof.
  intros Hd.
  assert (Hab : forall opts evs, Forall (about opts) evs -> UpnpDestroy ∉ calls evs).
  { intros opts evs H. induction H as [|ev evs [Hc|Hc] _ IH]; cbn.
    - apply not_elem_of_nil.
    - apply not_elem_of_cons. split; [|exact IH].
      intros E. rewrite <- E in Hc. discriminate.
    - apply not_elem_of_cons. split; [|exact IH]. now rewrite Hc. }
  destruct (_validateInput a b s) as [res s0] eqn:Hv.
  assert (s0 = s) as -> by (rewrite <- (_validateInput_state a b s), Hv; reflexivity).
  destruct res as [opts|e].
  2:{ rewrite (unmap_invalid w _ _ _ _ Hd Hv). exists []. cbn.
      rewrite app_nil_r. split; [reflexivity | apply not_elem_of_nil]. }
  destruct (truthy (protocol opts)) eqn:Hp.
  - destruct (unmap_single w _ _ _ _ Hd Hv Hp)
      as (s' & evs & -> & (_ & _ & _ & _ & Ht & _) & Habout).
    exists evs. cbn [snd]. split; [exact Ht | eauto].
  - destruct (unmap_both w _ _ _ _ Hd Hv Hp)
      as (evs1 & (_ & _ & _ & _ & Ht & _) & Hab1 & H).
    destruct (succeeded _).
    + destruct H as (evs2 & -> & (_ & _ & _ & _ & Ht2 & _) & Hab2). cbn [snd].
      exists (evs1 ++ evs2). split; [now rewrite Ht2, Ht, app_assoc|].
      unfold calls. rewrite List.map_app. rewrite not_elem_of_app.
      split; [apply (Hab _ _ Hab1) | apply (Hab _ _ Hab2)].
    + rewrite H. cbn [snd]. exists evs1. split; [exact Ht | eauto].
Qed.

Section DestroyFacts.
Variable w : World.

Lemma destroy_turn_state x s :
  destroy_turn w x s = (Ok tt, snd (unmap w (Obj (snd x)) (Prim JUndefined) s)).
Proof.
  unfold destroy_turn, try_catch, bind, ret.
  destruct (unmap w (Obj (snd x)) (Prim JUndefined) s) as [[ok|e] s1]; reflexivity.
Qed.

(** The loop removes one entry per turn, by key, until none is left. *)
Lemma destroy_loop_empties (l : list (objref * Opts)) s :
  _destroyed s = false ->
  Forall (fun e => storable (snd e) /\ comparable (snd e)) l ->
  (fun e => key_of (snd e)) <$> _openPorts s ≡ₚ (fun e => key_of (snd e)) <$> l ->
  exists s',
    for_of l (destroy_turn w) s = (Ok tt, s') /\ _openPorts s' = [] /\
    _destroyed s' = false /\ config s' = config s.
Proof.
  revert s. induction l as [|x l IH]; intros s Hd Hst Hperm.
  - exists s. cbn. repeat split; [|assumption].
    apply Permutation_nil_r in Hperm. now apply fmap_nil_inv in Hperm.
  - apply Forall_cons in Hst as [[[Hp Hok] Hcmp] Hst]. cbn [for_of].
    unfold bind at 1. rewrite destroy_turn_state.
    assert (Hv : _validateInput (Obj (snd x)) (Prim JUndefined) s
                 = (Ok (mkOpts (publicPort (snd x)) (privatePort (snd x))
                          (js_or (protocol (snd x)) JNull)
                          (js_or (description (snd x)) (this_description s))
                          (js_or (ttl (snd x)) (JNum (this_ttl s)))
                          (js_or (gateway (snd x)) (this_gateway s))), s))
      by (now apply fill_defaults_ok).
    set (o := mkOpts _ _ _ _ _ _) in Hv.
    assert (Hko : key_of o = key_of (snd x)).
    { subst o. unfold key_of, js_or. cbn. now rewrite Hp. }
    assert (Hpo : truthy (protocol o) = true).
    { subst o. unfold js_or. cbn. now rewrite Hp. }
    destruct (unmap_live w (Obj (snd x)) (Prim JUndefined) s Hd) as (Hd1 & Hc1 & _).
    destruct (unmap_removes_before_calls w _ _ s o Hd Hv) as (evs & Ho & _).
    set (s1 := snd (unmap w (Obj (snd x)) (Prim JUndefined) s)) in *.
    destruct (IH s1 Hd1 Hst) as (s' & El & He & Hd' & Hc').
    2:{ exists s'. repeat split; try assumption. congruence. }
    rewrite Ho. unfold findIndex.
    destruct (findIndex_from_spec (key_matches o) (_openPorts s) 0)
      as [[_ Hnone] | (pre & y & post & Hreg & _ & Hy & ->)].
    + exfalso.
      assert (Hin : key_of (snd x) ∈ (fun e => key_of (snd e)) <$> _openPorts s).
      { rewrite Hperm. cbn. left. }
      apply list_elem_of_fmap in Hin as (y & Hky & Hin).
      rewrite Forall_forall in Hnone. specialize (Hnone y Hin).
      assert (key_matches o y = true).
      { apply key_matches_key; [assumption|]. split; [congruence|].
        destruct Hcmp as [H1 H2]. unfold key_of in Hky. injection Hky as E1 E2 _.
        unfold comparable. now rewrite <- E1, <- E2. }
      congruence.
    + cbn [Z.add]. rewrite Hreg, arrayRemove_Permutation.
      apply key_matches_key in Hy as [Hy _]; [|assumption].
      rewrite Hreg in Hperm. rewrite fmap_app in Hperm. cbn in Hperm.
      rewrite Hy, Hko in Hperm. rewrite fmap_app.
      symmetry in Hperm. apply Permutation_cons_app_inv in Hperm.
      now symmetry.
Qed.

(** The loop only adds calls of [unmap] to the trace. *)
Lemma destroy_loop_trace (l : list (objref * Opts)) s :
  _destroyed s = false ->
  exists s' evs,
    for_of l (destroy_turn w) s = (Ok tt, s') /\ trace s' = trace s ++ evs /\
    (UpnpDestroy ∉ calls evs) /\
    _destroyed s' = false /\ config s' = config s.
Proof.
  revert s. induction l as [|x l IH]; intros s Hd.
  - exists s, []. cbn. rewrite app_nil_r.
    repeat split; auto. apply not_elem_of_nil.
  - cbn [for_of]. unfold bind at 1. rewrite destroy_turn_state.
    destruct (unmap_live w (Obj (snd x)) (Prim JUndefined) s Hd) as (Hd1 & Hc1 & _).
    destruct (unmap_calls w (Obj (snd x)) (Prim JUndefined) s Hd) as (evs1 & Ht & Hn1).
    set (s1 := snd (unmap w (Obj (snd x)) (Prim JUndefined) s)) in *.
    destruct (IH s1 Hd1) as (s' & evs & El & Ht' & Hn & Hd' & Hc').
    exists s', (evs1 ++ evs). split; [exact El|].
    split; [now rewrite Ht', Ht, app_assoc|].
    split; [|split; [assumption | congruence]].
    unfold calls. rewrite List.map_app. now rewrite not_elem_of_app.
Qed.

(** [destroy] after its loop: the flag, then the two closes. *)
Lemma destroy_after_loop s s1 :
  _destroyed s = false ->
  for_of (_openPorts s) (destroy_turn w) s = (Ok tt, s1) ->
  config s1 = config s ->
  exists r closes,
    destroy w s = (r, with_trace (with_destroyed s1 true) (trace s1 ++ closes)) /\
    (closes_resolve w -> r = Ok true /\ calls closes = closing_calls s) /\
    (present (_pmpClient s) = true -> resolved (w (trace s1) PmpClose) = false ->
     (exists e, r = Throw e) /\ calls closes = [PmpClose]).
Proof.
  intros Hd El Hc. unfold destroy. unfold bind at 1, get. rewrite Hd.
  fold (destroy_turn w). rewrite (bind_ok _ _ _ _ _ El).
  unfold config in Hc. injection Hc as _ _ _ _ _ _ E7 E8.
  unfold closing_calls, closes_resolve. run_monad. rewrite E7, E8.
  destruct (present (_pmpClient s)), (present (_upnpClient s)); cbn;
    repeat match goal with
           | |- context [w ?t ?c] =>
               let H := fresh "Hw" in destruct (w t c) eqn:H; cbn
           end;
    first [ eexists _, [_; _]; rewrite <- app_assoc; split; [reflexivity|]
          | eexists _, [_]; split; [reflexivity|]
          | exists (Ok true), []; rewrite app_nil_r; destruct s1;
            split; [reflexivity|] ];
    cbn;
    (split;
     [ intros Hcl;
       repeat match goal with
              | H : w ?t PmpClose = _ |- _ =>
                  let Hr := fresh "Hr" in
                  pose proof (proj1 (Hcl t)) as Hr; rewrite H in Hr; clear H
              | H : w ?t UpnpDestroy = _ |- _ =>
                  let Hr := fresh "Hr" in
                  pose proof (proj2 (Hcl t)) as Hr; rewrite H in Hr; clear H
              end;
       first [discriminate | split; reflexivity]
     | intros Hpmp Hrej; first [discriminate | split; [eauto | reflexivity]] ]).
Qed.
End DestroyFacts.

(** X13. [destroy] empties the registry. On every live client that can
    exist and whose registry holds no entry with a [NaN] port, [destroy]
    leaves no entry in the registry and marks the client destroyed,
    whatever the gateway answers to the unmaps and to the closes (each may
    fail), also when several entries share a key. It returns [true] when
    the closes resolve. *)
Theorem destroy_empties_registry (w : World) (s : NatAPI) :
  reachable s -> _destroyed s = false ->
  Forall (fun e => comparable (snd e)) (_openPorts s) ->
  _openPorts (snd (destroy w s)) = [] /\
  _destroyed (snd (destroy w s)) = true /\
  (closes_resolve w -> fst (destroy w s) = Ok true).
Proof.
  intros Hr Hd Hcmp.
  assert (Hst : Forall (fun e => storable (snd e) /\ comparable (snd e)) (_openPorts s)).
  { pose proof (reachable_storable s Hr) as Hs.
    rewrite Forall_forall in *. auto. }
  destruct (destroy_loop_empties w (_openPorts s) s Hd Hst)
    as (s1 & El & He & _ & Hc); [reflexivity|].
  destruct (destroy_after_loop w s s1 Hd El Hc) as (r & closes & -> & Hok & _).
  cbn. split; [exact He|]. split; [reflexivity|].
  intros Hcl. now apply Hok.
Qed.

Lemma destroy_empties_registry_witness :
  let s := snd (map all_resolve (request 80 80 "tcp") no_arg
                  (snd (map all_resolve (request 80 80 "tcp") no_arg
                          (snd (map all_resolve (port 1000) no_arg both_clients))))) in
  _openPorts (snd (destroy all_reject s)) = [] /\
  _destroyed (snd (destroy all_reject s)) = true /\
  (closes_resolve all_reject -> fst (destroy all_reject s) = Ok true).
Proof.
  apply destroy_empties_registry.
  - do 3 apply reach_map. apply reach_new.
  - reflexivity.
  - vm_compute. repeat constructor; discriminate.
Defined.

(** X14. [destroy] marks the client destroyed before it closes the
    clients, and awaits the closes outside any [try]. When the closes
    resolve, [destroy] returns [true] and has closed the NAT-PMP client and
    destroyed the UPnP client (each when there is one), and no failure of
    an unmap prevents that. When the close of the NAT-PMP client is
    rejected, [destroy] throws, the UPnP client is never destroyed, and it
    cannot be any more: the client is marked destroyed, so a second
    [destroy] throws 'client already destroyed'. *)
Theorem destroy_releases_clients (w w' : World) (s : NatAPI) :
  _destroyed s = false ->
  let r := fst (destroy w s) in
  let s' := snd (destroy w s) in
  _destroyed s' = true /\
  (closes_resolve w ->
   r = Ok true /\
   (present (_pmpClient s) = true -> PmpClose ∈ new_calls s s') /\
   (present (_upnpClient s) = true -> UpnpDestroy ∈ new_calls s s')) /\
  (present (_pmpClient s) = true ->
   (forall tr, resolved (w tr PmpClose) = false) ->
   (exists e, r = Throw e) /\
   (UpnpDestroy ∉ new_calls s s') /\
   destroy w' s' = (Throw (Error "client already destroyed"), s')).
Proof.
  intros Hd r s'. subst r s'.
  destruct (destroy_loop_trace w (_openPorts s) s Hd)
    as (s1 & evs & El & Ht & Hn & _ & Hc).
  destruct (destroy_after_loop w s s1 Hd El Hc) as (r & closes & -> & Hok & Hrej).
  cbn [fst snd].
  assert (Hnew : new_calls s (with_trace (with_destroyed s1 true) (trace s1 ++ closes))
                 = calls evs ++ calls closes).
  { erewrite new_calls_app.
    2:{ cbn. rewrite Ht, <- app_assoc. reflexivity. }
    unfold calls. now rewrite List.map_app. }
  rewrite Hnew. split; [reflexivity|]. split.
  - intros Hcl. destruct (Hok Hcl) as (-> & Hcalls). split; [reflexivity|].
    rewrite Hcalls. unfold closing_calls.
    split; intros ->; rewrite elem_of_app; right; cbn.
    + left.
    + destruct (present (_pmpClient s)); cbn; [right; left | left].
  - intros Hpmp Hno. destruct (Hrej Hpmp (Hno _)) as (He & Hcalls).
    split; [exact He|]. split.
    + rewrite Hcalls, not_elem_of_app. split; [exact Hn|].
      apply not_elem_of_cons. split; [discriminate | apply not_elem_of_nil].
    + unfold destroy, bind, get, throw. reflexivity.
Qed.

Lemma destroy_releases_clients_witness :
  let s := snd (map all_resolve (port 1000) no_arg both_clients) in
  let r := fst (destroy all_reject s) in
  let s' := snd (destroy all_reject s) in
  _destroyed s' = true /\
  (closes_resolve all_reject ->
   r = Ok true /\
   (present (_pmpClient s) = true -> PmpClose ∈ new_calls s s') /\
   (present (_upnpClient s) = true -> UpnpDestroy ∈ new_calls s s')) /\
  (present (_pmpClient s) = true ->
   (forall tr, resolved (all_reject tr PmpClose) = false) ->
   (exists e, r = Throw e) /\
   (UpnpDestroy ∉ new_calls s s') /\
   destroy all_resolve s' = (Throw (Error "client already destroyed"), s')).
Proof.
  exact (destroy_releases_clients all_reject all_resolve
           (snd (map all_resolve (port 1000) no_arg both_clients)) eq_refl).
Defined.

(* ================================================================== *)
(** ** Further properties: a client without auto-renewal *)
(* ================================================================== *)

Section Keeps.
Context {P : NatAPI -> Prop}.

Lemma keeps_ret {A} (a : A) : keeps P (ret a).
Proof. intros s H. exact H. Qed.

Lemma keeps_throw {A} (e : exn) : keeps P (@throw A e).
Proof. intros s H. exact H. Qed.

Lemma keeps_bind {A B} (m : M A) (k : A -> M B) :
  keeps P m -> (forall a, keeps P (k a)) -> keeps P (bind m k).
Proof.
  intros Hm Hk s H. unfold bind. specialize (Hm s H).
  destruct (m s) as [[a|e] s1]; cbn in *; [now apply Hk | exact Hm].
Qed.

Lemma keeps_bind_get {B} (k : NatAPI -> M B) :
  (forall s, P s -> keeps P (k s)) -> keeps P (bind get k).
Proof.
  intros Hk s H. unfold bind, get. now apply Hk.
Qed.

Lemma keeps_try_catch {A} (m : M A) (h : exn -> M A) :
  keeps P m -> (forall e, keeps P (h e)) -> keeps P (try_catch m h).
Proof.
  intros Hm Hh s H. unfold try_catch. specialize (Hm s H).
  destruct (m s) as [[a|e] s1]; cbn in *; [exact Hm | now apply Hh].
Qed.

Lemma keeps_for_of {A} (l : list A) (body : A -> M unit) :
  (forall x, keeps P (body x)) -> keeps P (for_of l body).
Proof.
  intros Hb. induction l as [|x l IH]; cbn [for_of].
  - apply keeps_ret.
  - apply keeps_bind; auto.
Qed.

Lemma keeps_modify (f : NatAPI -> NatAPI) :
  (forall s, P s -> P (f s)) -> keeps P (modify f).
Proof.
  intros Hf s H. now apply Hf.
Qed.
End Keeps.

Ltac keeps_step :=
  match goal with
  | |- keeps _ (ret _) => apply keeps_ret
  | |- keeps _ (throw _) => apply keeps_throw
  | |- keeps _ (bind get _) => apply keeps_bind_get; intros ? ?
  | |- keeps _ (bind _ _) => apply keeps_bind; [|intros ?]
  | |- keeps _ (try_catch _ _) => apply keeps_try_catch; [|intros ?]
  | |- keeps _ (for_of _ _) => apply keeps_for_of; intros ?
  | |- keeps _ (if ?c then _ else _) => destruct c eqn:?
  | |- keeps _ (match ?o with _ => _ end) => destruct o eqn:?
  end.

(** A property of the timers and of [autoUpdate] alone is kept by every
    operation once the four protocol paths keep it. *)
Section KeepsOperations.
Variable w : World.
Variable P : NatAPI -> Prop.
Hypothesis P_frame :
  forall s s',
    autoUpdate s' = autoUpdate s -> intervals s' = intervals s ->
    _upnpIntervals s' = _upnpIntervals s -> _pmpIntervals s' = _pmpIntervals s ->
    P s -> P s'.

Lemma keeps_await c : keeps P (await w c).
Proof. intros s H. now apply (P_frame s). Qed.

Lemma keeps_check_destroyed : keeps P check_destroyed.
Proof. unfold check_destroyed. repeat keeps_step. Qed.

Lemma keeps_registry (f : NatAPI -> list (objref * Opts)) :
  keeps P (modify (fun s => with_openPorts s (f s))).
Proof. intros s H. now apply (P_frame s). Qed.

Lemma keeps_new_object : keeps P new_object.
Proof. intros s H. now apply (P_frame s). Qed.

Lemma keeps_validateInput x y : keeps P (_validateInput x y).
Proof. intros s H. now rewrite _validateInput_state. Qed.

Lemma keeps_destroyed_flag d : keeps P (modify (fun s => with_destroyed s d)).
Proof. intros s H. now apply (P_frame s). Qed.

Ltac keeps_path :=
  repeat first [ apply keeps_check_destroyed | apply keeps_await
               | apply keeps_registry | apply keeps_new_object
               | apply keeps_validateInput | apply keeps_destroyed_flag
               | keeps_step ].

Lemma keeps_fallback_chain pmp upnp opts :
  keeps P (pmp opts) -> keeps P (upnp opts) ->
  keeps P (fallback_chain pmp upnp opts).
Proof. intros Hp Hu. unfold fallback_chain. keeps_path; assumption. Qed.

Lemma keeps_externalIp : keeps P (externalIp w).
Proof. unfold externalIp, _pmpIp, _upnpIp. keeps_path. Qed.

Hypothesis keeps_pmpMap : forall opts, keeps P (_pmpMap w opts).
Hypothesis keeps_upnpMap : forall opts, keeps P (_upnpMap w opts).
Hypothesis keeps_pmpUnmap : forall opts, keeps P (_pmpUnmap w opts).
Hypothesis keeps_upnpUnmap : forall opts, keeps P (_upnpUnmap w opts).

Lemma keeps_map x y : keeps P (map w x y).
Proof.
  unfold map, push, remove_at.
  repeat first [ apply keeps_fallback_chain; [apply keeps_pmpMap | apply keeps_upnpMap]
               | keeps_path ].
Qed.

Lemma keeps_unmap x y : keeps P (unmap w x y).
Proof.
  unfold unmap, remove_at.
  repeat first [ apply keeps_fallback_chain; [apply keeps_pmpUnmap | apply keeps_upnpUnmap]
               | keeps_path ].
Qed.

Lemma keeps_destroy : keeps P (destroy w).
Proof. unfold destroy, settled. repeat first [ apply keeps_unmap | keeps_path ]. Qed.

Lemma keeps_fire j : keeps P (fire w j).
Proof. unfold fire. repeat first [ apply keeps_upnpMap | keeps_path ]. Qed.
End KeepsOperations.

Section Unscheduled.
Variable w : World.
Variable b : bool.

Lemma unscheduled_frame s s' :
  autoUpdate s' = autoUpdate s -> intervals s' = intervals s ->
  _upnpIntervals s' = _upnpIntervals s -> _pmpIntervals s' = _pmpIntervals s ->
  unscheduled b s -> unscheduled b s'.
Proof. unfold unscheduled. intros -> -> -> ->. auto. Qed.

(** Starting a timer and storing its handle: only with auto-renewal. *)
Lemma unscheduled_schedule (store : NatAPI -> nat -> NatAPI) j s :
  (forall s h, autoUpdate (store s h) = autoUpdate s) ->
  unscheduled b s ->
  keeps (unscheduled b)
    (if autoUpdate s
     then h <- setInterval j (_timeout s) ;; modify (fun s => store s h)
     else ret tt).
Proof.
  intros Hst (Ha & Hb). rewrite Ha. destruct b.
  - intros s1 (Ha1 & _). split; [|discriminate].
    unfold bind, setInterval, modify. cbn. now rewrite Hst.
  - apply keeps_ret.
Qed.

(** Stopping a timer and deleting a stored handle. *)
Lemma unscheduled_clearInterval h : keeps (unscheduled b) (clearInterval h).
Proof.
  intros s (Ha & Hb). split; [exact Ha|]. intros E.
  destruct (Hb E) as (Hi & Hu & Hp). cbn. rewrite Hi. now rewrite delete_empty.
Qed.

Lemma unscheduled_forget_upnp key :
  keeps (unscheduled b)
    (modify (fun s => with_upnpIntervals s (delete key (_upnpIntervals s)))).
Proof.
  intros s (Ha & Hb). split; [exact Ha|]. intros E.
  destruct (Hb E) as (Hi & Hu & Hp). cbn. rewrite Hu. now rewrite delete_empty.
Qed.

Lemma unscheduled_forget_pmp key :
  keeps (unscheduled b)
    (modify (fun s => with_pmpIntervals s (delete key (_pmpIntervals s)))).
Proof.
  intros s (Ha & Hb). split; [exact Ha|]. intros E.
  destruct (Hb E) as (Hi & Hu & Hp). cbn. rewrite Hp. now rewrite delete_empty.
Qed.

Ltac unscheduled_path :=
  repeat first [ apply keeps_check_destroyed
               | apply keeps_await; apply unscheduled_frame
               | apply unscheduled_schedule; [reflexivity | assumption]
               | apply unscheduled_clearInterval | apply unscheduled_forget_upnp
               | apply unscheduled_forget_pmp
               | keeps_step ].

Lemma unscheduled_pmpMap opts : keeps (unscheduled b) (_pmpMap w opts).
Proof. unfold _pmpMap. unscheduled_path. Qed.

Lemma unscheduled_upnpMap opts : keeps (unscheduled b) (_upnpMap w opts).
Proof. unfold _upnpMap. unscheduled_path. Qed.

Lemma unscheduled_pmpUnmap opts : keeps (unscheduled b) (_pmpUnmap w opts).
Proof. unfold _pmpUnmap. unscheduled_path. Qed.

Lemma unscheduled_upnpUnmap opts : keeps (unscheduled b) (_upnpUnmap w opts).
Proof. unfold _upnpUnmap. unscheduled_path. Qed.
End Unscheduled.

(** With the answer to every unmapping fixed as a failure, the unmap paths
    write nothing. *)
Section Refused.
Variable w : World.
Hypothesis refused : forall tr c, is_unmap_call c = true -> resolved (w tr c) = false.
Variable P : NatAPI -> Prop.
Hypothesis P_frame :
  forall s s',
    autoUpdate s' = autoUpdate s -> intervals s' = intervals s ->
    _upnpIntervals s' = _upnpIntervals s -> _pmpIntervals s' = _pmpIntervals s ->
    P s -> P s'.

Lemma refused_upnpUnmap opts : keeps P (_upnpUnmap w opts).
Proof.
  intros s H. unfold _upnpUnmap. run_monad. destruct (_destroyed s); [exact H|].
  cbn. pose proof (refused (trace s)
                     (UpnpPortUnmapping (publicPort opts) (privatePort opts) (protocol opts))
                     eq_refl) as Hw.
  destruct (w (trace s) _); [discriminate|..]; cbn; now apply (P_frame s).
Qed.

Lemma refused_pmpUnmap opts : keeps P (_pmpUnmap w opts).
Proof.
  intros s H. unfold _pmpUnmap. run_monad. destruct (_destroyed s); [exact H|].
  cbn. pose proof (refused (trace s)
                     (PmpPortUnmapping (publicPort opts) (privatePort opts) (protocol opts))
                     eq_refl) as Hw.
  destruct (w (trace s) _); [discriminate|..]; cbn; now apply (P_frame s).
Qed.

Lemma refused_destroy : keeps P (destroy w).
Proof.
  unfold destroy, settled.
  repeat first [ apply keeps_unmap;
                 [exact P_frame | apply refused_pmpUnmap | apply refused_upnpUnmap]
               | apply keeps_destroyed_flag; exact P_frame
               | apply keeps_await; exact P_frame
               | keeps_step ].
Qed.
End Refused.

Ltac unscheduled_op :=
  first [ apply keeps_map | apply keeps_unmap | apply keeps_externalIp
        | apply keeps_destroy | apply keeps_fire ];
  first [ apply unscheduled_frame | apply unscheduled_pmpMap | apply unscheduled_upnpMap
        | apply unscheduled_pmpUnmap | apply unscheduled_upnpUnmap ].

(** X15. A client constructed with [autoUpdate: false] never starts a
    timer: in every state it can reach, whatever was mapped, unmapped or
    asked and whatever the gateway answered, no timer runs and both handle
    tables are empty. *)
Theorem no_timers_without_autoUpdate (s : NatAPI) :
  reachable s -> autoUpdate s = false ->
  intervals s = ∅ /\ _upnpIntervals s = ∅ /\ _pmpIntervals s = ∅.
Proof.
  intros Hr. enough (H : unscheduled (autoUpdate s) s).
  { intros Ha. destruct H as (_ & H). now apply H. }
  induction Hr as [cfg v4 | w a b s _ IH | w a b s _ IH | w s _ IH | w s _ IH
                  | w h t s _ IH Hh].
  - split; [reflexivity|]. intros _. repeat split.
  - assert (H : keeps (unscheduled (autoUpdate s)) (map w a b)) by unscheduled_op.
    specialize (H s IH). now rewrite <- (proj1 H) in H.
  - assert (H : keeps (unscheduled (autoUpdate s)) (unmap w a b)) by unscheduled_op.
    specialize (H s IH). now rewrite <- (proj1 H) in H.
  - assert (H : keeps (unscheduled (autoUpdate s)) (externalIp w)) by unscheduled_op.
    specialize (H s IH). now rewrite <- (proj1 H) in H.
  - assert (H : keeps (unscheduled (autoUpdate s)) (destroy w)) by unscheduled_op.
    specialize (H s IH). now rewrite <- (proj1 H) in H.
  - assert (H : keeps (unscheduled (autoUpdate s)) (fire w (t_job t))) by unscheduled_op.
    specialize (H s IH). now rewrite <- (proj1 H) in H.
Qed.

Lemma no_timers_without_autoUpdate_witness :
  let quiet := new_NatAPI (mkConfig None None None (Some false) None None None)
                 (Some "192.168.1.1"%string) in
  let s := snd (unmap all_resolve (port 1000) no_arg
                  (snd (map all_resolve (request 80 80 "tcp") no_arg quiet))) in
  intervals s = ∅ /\ _upnpIntervals s = ∅ /\ _pmpIntervals s = ∅.
Proof.
  apply no_timers_without_autoUpdate.
  - apply reach_unmap, reach_map, reach_new.
  - reflexivity.
Defined.

(** X16. [destroy] stops no timer by itself. When the gateway grants none
    of the unmappings [destroy] asks for (it refuses them or does not
    answer), every renewal timer that ran before is still running after
    [destroy], whether it returned or threw on a close, and both handle
    tables are as they were; the client is marked destroyed, and a UPnP
    renewal that fires afterwards throws 'client is destroyed' inside the
    timer callback. *)
Theorem destroy_leaves_timers_running (w : World) (s : NatAPI) :
  _destroyed s = false ->
  (forall tr c, is_unmap_call c = true -> resolved (w tr c) = false) ->
  _destroyed (snd (destroy w s)) = true /\
  timers (snd (destroy w s)) = timers s /\
  forall w' opts,
    fst (fire w' (JobUpnpMap opts) (snd (destroy w s))) = Throw lifecycle_error.
Proof.
  intros Hd Hw.
  assert (Hk : keeps (fun s' => timers s' = timers s) (destroy w)).
  { apply refused_destroy; [exact Hw|].
    unfold timers. intros s1 s2 _ -> -> ->. auto. }
  specialize (Hk s eq_refl).
  destruct (destroy_live w s Hd) as (r & s' & E & Hd' & _).
  rewrite E in *. cbn [fst snd] in *. split; [exact Hd'|]. split; [exact Hk|].
  intros w' opts. unfold fire, _upnpMap. run_monad. now rewrite Hd'.
Qed.

Lemma destroy_leaves_timers_running_witness :
  let s := snd (map all_resolve (request 80 80 "tcp") no_arg upnp_only) in
  _destroyed (snd (destroy all_reject s)) = true /\
  timers (snd (destroy all_reject s)) = timers s /\
  forall w' opts,
    fst (fire w' (JobUpnpMap opts) (snd (destroy all_reject s))) = Throw lifecycle_error.
Proof.
  exact (destroy_leaves_timers_running all_reject
           (snd (map all_resolve (request 80 80 "tcp") no_arg upnp_only))
           eq_refl (fun tr c _ => eq_refl)).
Defined.

(* ================================================================== *)
(** ** Further properties: the Device class *)
(* ================================================================== *)

Lemma strip_prefix_Some pre s p :
  strip_prefix pre s = Some p <-> s = pre +:+ p.
Proof.
  revert s. induction pre as [|a pre IH]; intros s; cbn.
  - split; [now intros [= ->] | now intros ->].
  - destruct s as [|c s]; [split; discriminate|].
    destruct (Ascii.eqb_spec a c) as [->|Hne].
    + rewrite IH. split; [now intros -> | now intros [= ->]].
    + split; [discriminate | intros [= E _]; now symmetry in E].
Qed.

Lemma declares_spec uri key v :
  declares uri (key, v) <->
  exists p, strip_prefix "xmlns:" key = Some p /\ strict_eq v uri = true.
Proof.
  unfold declares. cbn [fst snd]. split.
  - intros (p & -> & Hv). exists p. split; [now apply strip_prefix_Some | exact Hv].
  - intros (p & Hp & Hv). exists p. split; [now apply strip_prefix_Some | exact Hv].
Qed.

(** The loop stops at the first attribute that declares a prefix for the
    namespace. *)
Lemma xmlns_bound_spec attrs uri :
  (Forall (fun kv => ~ declares uri kv) attrs /\ xmlns_bound attrs uri = None) \/
  (exists pre p post,
     attrs = pre ++ ("xmlns:" +:+ p, uri) :: post /\
     Forall (fun kv => ~ declares uri kv) pre /\
     xmlns_bound attrs uri = Some p).
Proof.
  induction attrs as [|[key v] rest IH]; [left; split; [constructor | reflexivity]|].
  cbn [xmlns_bound].
  destruct (strip_prefix "xmlns:" key) as [p|] eqn:Hk.
  - destruct (strict_eq v uri) eqn:Hv; cbn [negb].
    + right. exists [], p, rest. apply strip_prefix_Some in Hk.
      apply strict_eq_true in Hv as [Hv _]. subst.
      split; [reflexivity|]. split; [constructor | reflexivity].
    + assert (Hn : ~ declares uri (key, v)).
      { rewrite declares_spec. intros (q & Hq & Hv'). congruence. }
      destruct IH as [(Hf & ->) | (pre & q & post & -> & Hf & ->)].
      * left. split; [now constructor | reflexivity].
      * right. exists ((key, v) :: pre), q, post.
        split; [reflexivity|]. split; [now constructor | reflexivity].
  - assert (Hn : ~ declares uri (key, v)).
    { rewrite declares_spec. intros (q & Hq & _). congruence. }
    destruct IH as [(Hf & ->) | (pre & q & post & -> & Hf & ->)].
    + left. split; [now constructor | reflexivity].
    + right. exists ((key, v) :: pre), q, post.
      split; [reflexivity|]. split; [now constructor | reflexivity].
Qed.

(** X17. [_getNamespace] answers with the first declaration, in attribute
    order, of a prefix for the namespace: it returns that prefix followed
    by a colon. It returns the empty string when no attribute declares a
    prefix for the namespace, and also when the first one that does is
    ['xmlns:'] with nothing after the colon: a later declaration of a
    proper prefix is then not looked at. *)
Theorem _getNamespace_first_declaration (attrs : list (string * jsval)) (uri : jsval) :
  (Forall (fun kv => ~ declares uri kv) attrs /\
   _getNamespace (Some attrs) uri = "") \/
  (exists pre p post,
     attrs = pre ++ ("xmlns:" +:+ p, uri) :: post /\
     Forall (fun kv => ~ declares uri kv) pre /\
     (p = "" -> _getNamespace (Some attrs) uri = "") /\
     (p <> "" -> _getNamespace (Some attrs) uri = p +:+ ":")).
Proof.
  unfold _getNamespace.
  destruct (xmlns_bound_spec attrs uri) as [(Hf & ->) | (pre & p & post & E & Hf & ->)].
  - left. auto.
  - right. exists pre, p, post. split; [exact E|]. split; [exact Hf|].
    destruct p; cbn; split; intros; congruence.
Qed.

(** X18. Every submission of [run] comes after a fetch of the description
    of its own: the traffic of a run that returns is a number of
    fetch-then-POST exchanges, followed by one more fetch exactly when the
    service could not be resolved, in which case [run] has thrown. Every
    POST carries the action asked for, the first one the arguments as
    given and the later ones the arguments with the last one replaced by a
    zero lease. *)
Theorem run_fetches_before_every_post (resolve : string -> jsval -> string)
    (net : Net) (self : Device) (fuel : nat) (action : string)
    (args : list (string * jsval)) (tr tr' : list NetEvent) (r : Result jsval) :
  run resolve net self fuel action args tr = Some (r, tr') ->
  exists reqs rest,
    tr' = tr ++ exchanges self reqs ++ rest /\
    (rest = [] /\ reqs <> [] \/
     rest = [Fetched (url self)] /\ exists e, r = Throw e) /\
    Forall (fun q => req_action q = action /\
                     (req_args q = args \/ req_args q = set_last args lease_zero))
           reqs.
Proof.
  revert args tr. induction fuel as [|fuel IH]; intros args tr; [discriminate|].
  cbn [run].
  destruct (getXml net tr (url self)) as [description|e].
  2:{ intros [= <- <-]. exists [], [Fetched (url self)]. cbn. eauto 6. }
  destruct (_getService resolve self (services self) description) as [info|e].
  2:{ intros [= <- <-]. exists [], [Fetched (url self)]. cbn. eauto 6. }
  set (req := mkRequest (si_controlURL info) (si_service info) action args).
  assert (Hone : forall r0,
             Some (r0, (tr ++ [Fetched (url self)]) ++ [Posted req]) = Some (r, tr') ->
             exists reqs rest,
               tr' = tr ++ exchanges self reqs ++ rest /\
               (rest = [] /\ reqs <> [] \/
                rest = [Fetched (url self)] /\ exists e, r = Throw e) /\
               Forall (fun q => req_action q = action /\
                                (req_args q = args \/
                                 req_args q = set_last args lease_zero)) reqs).
  { intros r0 [= <- <-]. exists [req], []. cbn. rewrite <- app_assoc. cbn.
    split; [reflexivity|]. split; [left; split; [reflexivity | discriminate]|].
    repeat constructor. }
  destruct (post net _ req) as [res|e]; [|apply Hone].
  destruct (parsed res) as [body|e]; [|apply Hone].
  destruct (status res =? 500); [|destruct (negb _); apply Hone].
  destruct (fault_of body) as [fault|]; [|apply Hone].
  destruct (fault_string fault) as [|fs|]; [apply Hone| |apply Hone].
  destruct (bool_decide _); [|apply Hone].
  destruct (f_errorCode fault) as [| |n]; [apply Hone|apply Hone|].
  destruct (n =? 725); [|apply Hone].
  intros E. destruct (IH _ _ E) as (reqs & rest & -> & Hrest & Hf).
  exists (req :: reqs), rest. cbn. rewrite <- !app_assoc. cbn.
  split; [reflexivity|]. split.
  - destruct Hrest as [(-> & _) | (-> & He)];
      [left; split; [reflexivity | discriminate] | right; auto].
  - constructor; [cbn; auto|].
    eapply Forall_impl; [exact Hf|]. cbn. intros q (Ha & Hq).
    rewrite set_last_idem in Hq. split; [exact Ha|]. right. tauto.
Qed.

Lemma run_fetches_before_every_post_witness :
  exists reqs rest,
    [ Fetched gateway_url; Posted (submission ip_service "AddPortMapping" add_port_mapping);
      Fetched gateway_url;
      Posted (submission ip_service "AddPortMapping" (set_last add_port_mapping lease_zero));
      Fetched gateway_url;
      Posted (submission ip_service "AddPortMapping" (set_last add_port_mapping lease_zero)) ]
      = [] ++ exchanges (new_Device gateway_url) reqs ++ rest /\
    (rest = [] /\ reqs <> [] \/
     rest = [Fetched (url (new_Device gateway_url))] /\
     exists e, Ok (JStr "granted") = Throw e) /\
    Forall (fun q => req_action q = "AddPortMapping"%string /\
                     (req_args q = add_port_mapping \/
                      req_args q = set_last add_port_mapping lease_zero)) reqs.
Proof.
  apply (run_fetches_before_every_post join_url two_faults (new_Device gateway_url) 5
           "AddPortMapping" add_port_mapping []).
  reflexivity.
Defined.



(** Where the two revisions part: a 404 whose body is no XML, and a 725. *)
Example revisions_differ :
  (fst (run_callback join_url html_404 (new_Device gateway_url)
          "AddPortMapping" add_port_mapping [])
     = Throw (Error "Request failed: 404") /\
   fst <$> run join_url html_404 (new_Device gateway_url) 1
             "AddPortMapping" add_port_mapping []
     = Some (Throw (Error "Non-whitespace before first tag."))) /\
  (fst (run_callback join_url permanent_leases_only (new_Device gateway_url)
          "AddPortMapping" add_port_mapping [])
     = Throw (Error "Request failed: 500") /\
   fst <$> run join_url permanent_leases_only (new_Device gateway_url) 2
             "AddPortMapping" add_port_mapping []
     = Some (Ok (JStr "granted"))).
Proof. repeat split; reflexivity. Qed.
